(** * The client-side event-collection pipeline of websim

    A shallow embedding of [frontend/src/hooks/useExperimentLogger.ts] and
    [frontend/src/lib/loggerApi.ts], with the properties the specification
    states about them, and further properties of the hook, of
    [getParticipantId] in [frontend/src/App.tsx] and of the events endpoint
    in [backend/server.js].

    Conventions of the embedding.
    - A JavaScript number is an IEEE double.  Counters and clock readings
      (seq, timestamps, element heights) only ever hold integers, which a
      double represents exactly below 2^53, and are modelled as [Z].
      Quantities that can be fractional (scroll offsets, depth percentages,
      velocities, pointer coordinates) are modelled by the rational [Q]
      that a finite double denotes, and every subtraction, multiplication
      and division the code performs on them rounds its exact result to the
      nearest double, ties to the even significand ([Double.round]); so does
      [Number] applied to a decimal.  The two zeros denote the same rational;
      the code never tells them apart.  NaN cannot reach the arithmetic
      below: the scroll offset is read through [||], which replaces NaN by
      the next operand, and the DOM heights are integers.  Infinity is not
      represented: a result beyond the largest double keeps its magnitude,
      which makes no difference to [getScrollMetrics], whose clamp sends
      both to the same bound, and would need a scroll offset beyond 10^300
      pixels to show in the velocity of [onScroll].
    - A JavaScript string is the sequence of its code units, restricted to
      the code units below 256 that [string] can hold.
    - The hook's [useRef] cells are the fields of the record [Logger]; every
      handler is a function from the state before to the state after,
      together with the list of effects it performs.
    - The environment a handler reads ([Date.now()], [document], [window],
      [navigator]) is the record [Env] handed to each step. *)

From Stdlib Require Import Ascii ZArith QArith Qround Qminmax Qabs Qpower Lqa.
From Stdlib Require Import SpecFloat.
From stdpp Require Import base gmap strings list sorting pretty.

#[local] Set Warnings "-register-all".
#[local] Open Scope Z_scope.

(** ** Doubles *)

(** The finite doubles are the rationals [m * 2 ^ e] with a significand
    [m] of at most 53 bits and an exponent [e] of at least -1074.  An
    arithmetic operation on doubles yields the double nearest to the exact
    result, the one with the even significand when two are equally near. *)
Module Double.

(** The floor of the binary logarithm of a positive rational: the
    difference of the bit lengths of numerator and denominator, or one
    less. *)
Definition ilog2 (q : Q) : Z :=
  let k := Z.log2 (Qnum q) - Z.log2 (Zpos (Qden q)) in
  if Qle_bool (2 ^ k) q then k else k - 1.

(** The exponent of the unit in the last place of the doubles around [q]:
    53 significant bits, and never below the exponent of the least
    subnormal. *)
Definition exponent (q : Q) : Z := Z.max (ilog2 (Qabs q) - 52) (-1074).

(** The integer nearest to [q], the even one on a tie. *)
Definition nearest_even (q : Q) : Z :=
  let f := Qfloor q in
  match (q - inject_Z f ?= 1 # 2)%Q with
  | Lt => f
  | Gt => f + 1
  | Eq => if Z.even f then f else f + 1
  end.

(** The double nearest to [q], as a fraction in lowest terms. *)
Definition round (q : Q) : Q :=
  if Qeq_bool q 0 then 0%Q
  else let e := exponent q in
       Qred (inject_Z (nearest_even (q / 2 ^ e)) * 2 ^ e).

(** [a - b], [a * b] and [a / b] on doubles; the code divides by numbers
    that are at least 1 only. *)
Definition sub (a b : Q) : Q := round (a - b).
Definition mul (a b : Q) : Q := round (a * b).
Definition div (a b : Q) : Q := round (a / b).

End Double.

(** The same operations in the Standard Library's specification of IEEE 754
    arithmetic, instantiated to binary64, which [Double] is checked
    against. *)
Module IEEE.

Definition of_Z (z : Z) : spec_float := binary_normalize 53 1024 z 0 false.

(** The rational a finite float denotes. *)
Definition value (f : spec_float) : option Q :=
  match f with
  | S754_zero _ => Some 0%Q
  | S754_finite s m e =>
      Some (Qred ((if s then -1 else 1) * inject_Z (Zpos m) * 2 ^ e))%Q
  | _ => None
  end.

(** [(a - c) / b * k] computed both ways gives the same double. *)
Definition agrees (a c b k : Z) : bool :=
  match value (SFmul 53 1024
                 (SFdiv 53 1024 (SFsub 53 1024 (of_Z a) (of_Z c)) (of_Z b))
                 (of_Z k)) with
  | Some q =>
      Qeq_bool q
        (Double.mul
           (Double.div (Double.sub (inject_Z a) (inject_Z c)) (inject_Z b))
           (inject_Z k))
  | None => false
  end.

End IEEE.

(** ** JavaScript values and operators *)

Module JS.

(** The values stored in a [meta] bag. *)
Inductive Val : Type :=
| VUndefined
| VBool (b : bool)
| VNum (q : Q)
| VStr (s : string).

(** [a || b] on numbers: [0] is falsy. *)
Definition num_or (a b : Q) : Q := if Qeq_bool a 0 then b else a.

(** Truthiness of a possibly-undefined string: [undefined], [null] and the
    empty string are falsy. *)
Definition truthy (o : option string) : bool :=
  match o with
  | Some s => negb (String.eqb s "")
  | None => false
  end.

(** [a || b] on possibly-undefined strings. *)
Definition str_or (a b : option string) : option string :=
  if truthy a then a else b.

(** [o || d] for a string literal [d], which always yields a string. *)
Definition or_str (o : option string) (d : string) : string :=
  match o with
  | Some s => if String.eqb s "" then d else s
  | None => d
  end.

(** [o || undefined]. *)
Definition or_undefined (o : option string) : option string :=
  str_or o None.

Definition of_opt_str (o : option string) : Val :=
  match o with
  | Some s => VStr s
  | None => VUndefined
  end.

Definition of_Z (z : Z) : Val := VNum (inject_Z z).

(** [Math.round]: the nearest integer, ties towards plus infinity. *)
Definition Math_round (q : Q) : Z := Qfloor (q + (1 # 2)).

(** [s.slice(0, n)] for a non-negative literal [n]. *)
Fixpoint slice0 (n : nat) (s : string) : string :=
  match n, s with
  | O, _ => EmptyString
  | S _, EmptyString => EmptyString
  | S k, String c rest => String c (slice0 k rest)
  end.

(** The class [\s] of the regular expressions, on the code units below
    256: tab, line feed, vertical tab, form feed, carriage return, space
    and the no-break space. *)
Definition is_ws (c : ascii) : bool :=
  let n := N_of_ascii c in
  ((9 <=? n)%N && (n <=? 13)%N) || (n =? 32)%N || (n =? 160)%N.

(** [s.replace(/\s+/g, ' ')]: every maximal run of white space becomes one
    space.  [in_run] tells that the previous code unit was white space,
    whose run has already been replaced. *)
Fixpoint replace_ws_from (in_run : bool) (s : string) : string :=
  match s with
  | EmptyString => EmptyString
  | String c rest =>
      if is_ws c then
        if in_run then replace_ws_from true rest
        else String " " (replace_ws_from true rest)
      else String c (replace_ws_from false rest)
  end.

Definition replace_ws (s : string) : string := replace_ws_from false s.

(** [toLowerCase] on the code units below 256: the letters A to Z and the
    accented capitals 192 to 222, the multiplication sign 215 apart, move up
    by 32. *)
Definition lower_char (c : ascii) : ascii :=
  let n := N_of_ascii c in
  if ((65 <=? n)%N && (n <=? 90)%N)
     || ((192 <=? n)%N && (n <=? 222)%N && negb (n =? 215)%N)
  then ascii_of_N (n + 32) else c.

Fixpoint toLowerCase (s : string) : string :=
  match s with
  | EmptyString => EmptyString
  | String c rest => String (lower_char c) (toLowerCase rest)
  end.

(** The hundredths [n] that [x.toFixed(2)] prints for a non-negative [x]:
    the integer with [n / 100] closest to [x], the larger one on a tie. *)
Definition hundredths (x : Q) : Z := Qfloor (x * 100 + (1 # 2)).

Definition digit (d : Z) : string := pretty (d mod 10)%Z.

(** [x.toFixed(2)]: a sign for negative [x], the integer part, a dot and
    two decimals. *)
Definition toFixed2 (x : Q) : string :=
  let neg := if Qlt_le_dec x 0 then true else false in
  let n := hundredths (if neg then - x else x)%Q in
  (if neg then "-" else "") +:+
  pretty (n / 100)%Z +:+ "." +:+ digit (n / 10) +:+ digit n.

(** [Number(x.toFixed(2))]: the double nearest to the printed decimal,
    with the sign of the decimal. *)
Definition Number_toFixed2 (x : Q) : Q :=
  if Qlt_le_dec x 0 then (- Double.round (hundredths (- x) # 100))%Q
  else Double.round (hundredths x # 100).

End JS.

(** ** Metrics extractor *)

(** What [getScrollMetrics] reads from [document] and [window]. *)
Record ScrollDom : Type := {
  root_scrollTop : Q;      (* document.documentElement.scrollTop *)
  body_scrollTop : Q;      (* document.body.scrollTop *)
  root_scrollHeight : Z;   (* document.documentElement.scrollHeight *)
  body_scrollHeight : Z;   (* document.body.scrollHeight *)
  root_clientHeight : Z;   (* document.documentElement.clientHeight *)
  innerHeight : Z;         (* window.innerHeight *)
}.

Record ScrollMetrics : Type := {
  scrollTop : Q;
  scrollHeight : Z;
  clientHeight : Z;
  maxScrollable : Z;
  depthPct : Q;
}.

Definition getScrollMetrics (d : ScrollDom) : ScrollMetrics :=
  let scrollTop := JS.num_or (root_scrollTop d) (JS.num_or (body_scrollTop d) 0) in
  let scrollHeight := Z.max (Z.max (root_scrollHeight d) (body_scrollHeight d)) 1 in
  let clientHeight := Z.max (Z.max (root_clientHeight d) (innerHeight d)) 1 in
  let maxScrollable := Z.max (scrollHeight - clientHeight) 1 in
  let depthPct :=
    Qmin 100
      (Qmax 0 (Double.mul (Double.div scrollTop (inject_Z maxScrollable)) 100)) in
  {| scrollTop := scrollTop; scrollHeight := scrollHeight;
     clientHeight := clientHeight; maxScrollable := maxScrollable;
     depthPct := depthPct |}.

(** The clamp of the specification, written by cases. *)
Definition spec_clamp (lo hi x : Q) : Q :=
  if Qlt_le_dec x lo then lo
  else if Qlt_le_dec hi x then hi
  else x.

(** An element as [extractTargetMeta] sees it, with the chain of its
    ancestors.  [dataset_track] and [dataset_trackId] are [None] when the
    attributes [data-track] and [data-track-id] are absent. *)
Inductive Element : Type := MkElement {
  el_id : string;
  el_tagName : string;
  el_className : string;
  el_textContent : string;
  dataset_track : option string;
  dataset_trackId : option string;
  parentElement : option Element;
}.

(** An event target: [null], an object that is not an [Element] (the window,
    the document, a text node) or an element. *)
Inductive EventTarget : Type :=
| TargetNull
| TargetOther
| TargetElement (el : Element).

(** [el.closest('[data-track]')]: the nearest inclusive ancestor that
    carries the attribute. *)
Fixpoint closest_data_track (el : Element) : option Element :=
  match dataset_track el with
  | Some _ => Some el
  | None =>
      match parentElement el with
      | Some p => closest_data_track p
      | None => None
      end
  end.

Record TargetMeta : Type := {
  tm_action : string;
  tm_targetId : option string;
  tm_tag : string;
  tm_className : string;
  tm_textSample : string;
}.

Definition extractTargetMeta (target : EventTarget) : TargetMeta :=
  let el := match target with TargetElement e => Some e | _ => None end in
  let tracked := el ≫= closest_data_track in
  let rawText :=
    JS.or_str (JS.str_or (el_textContent <$> tracked) (el_textContent <$> el)) "" in
  {| tm_action := JS.or_str (tracked ≫= dataset_track) "dom_click";
     tm_targetId :=
       JS.or_undefined
         (JS.str_or (tracked ≫= dataset_trackId)
            (JS.str_or (el_id <$> tracked) (el_id <$> el)));
     tm_tag :=
       JS.toLowerCase
         (JS.or_str (JS.str_or (el_tagName <$> tracked) (el_tagName <$> el)) "");
     tm_className :=
       JS.slice0 120
         (JS.or_str (JS.str_or (el_className <$> tracked) (el_className <$> el)) "");
     tm_textSample := JS.slice0 50 (JS.replace_ws rawText) |}.

(** What [extractTargetMeta] returns when there is no element to look at. *)
Definition default_target_meta : TargetMeta :=
  {| tm_action := "dom_click"; tm_targetId := None; tm_tag := "";
     tm_className := ""; tm_textSample := "" |}.

Definition is_element (target : EventTarget) : bool :=
  match target with
  | TargetElement _ => true
  | _ => false
  end.

(** A string is white-space collapsed when the only white space in it is
    the space and no two spaces are adjacent.  [prev_space] tells that the
    code unit before [s] is a space. *)
Fixpoint collapsed_from (prev_space : bool) (s : string) : bool :=
  match s with
  | EmptyString => true
  | String c rest =>
      if JS.is_ws c then
        Ascii.eqb c " " && negb prev_space && collapsed_from true rest
      else collapsed_from false rest
  end.

Definition ws_collapsed (s : string) : bool := collapsed_from false s.

(** The code units of a string that are not white space. *)
Fixpoint visible (s : string) : string :=
  match s with
  | EmptyString => EmptyString
  | String c rest =>
      if JS.is_ws c then visible rest else String c (visible rest)
  end.

(** ** Event records *)

Inductive EventName : Type :=
| page_enter | page_exit | scroll | click | heartbeat
| touch_start | touch_move | touch_end
| visibility_change | focus | blur | input | route_update.

Record UserProfile : Type := {
  age : Q;
  occupation : string;
}.

Record LoggerConfig : Type := {
  cfg_pageId : string;
  cfg_condition : string;
  cfg_participantId : string;
  cfg_userProfile : option UserProfile;
}.

Record EventPayload : Type := {
  seq : Z;
  timestamp : Z;
  event : EventName;
  page : string;
  pageSessionId : string;
  sessionId : string;
  condition : string;
  participantId : string;
  dwellMs : option Z;
  depth : option string;
  action : option string;
  targetId : option string;
  meta : gmap string JS.Val;
}.

(** The argument of [push]: the fields the caller supplies. *)
Record Partial : Type := {
  p_event : EventName;
  p_timestamp : option Z;
  p_dwellMs : option Z;
  p_depth : option string;
  p_action : option string;
  p_targetId : option string;
  p_meta : option (gmap string JS.Val);
}.

Definition partial_of (e : EventName) : Partial :=
  {| p_event := e; p_timestamp := None; p_dwellMs := None; p_depth := None;
     p_action := None; p_targetId := None; p_meta := None |}.

(** ** Environment, events and effects *)

(** What a handler reads from the browser while it runs.  [now] is the
    handler's own [Date.now()]; [push_now] is the one [push] takes when the
    caller gave no timestamp. *)
Record Env : Type := {
  now : Z;
  push_now : Z;
  scroll_dom : ScrollDom;
  visibilityState : string;
  href : string;
  userAgent : string;
  innerWidth : Z;
  onLine : bool;
}.

Record Touch : Type := {
  touch_clientX : Q;
  touch_clientY : Q;
}.

(** The target of an [input] event, as [onInput] reads it. *)
Record InputTarget : Type := {
  it_id : string;
  it_name : option string;
  it_data_track : option string;   (* getAttribute('data-track') *)
  it_type : option string;
  it_value : option string;        (* [None] when [value] is not a string *)
}.

(** How the request issued by [fetch] ends: the promise rejects (network
    error, abort, any exception) or resolves with a response of some HTTP
    status. *)
Inductive FetchOutcome : Type :=
| Rejected (reason : string)
| Responded (status : Z).

Inductive Event : Type :=
| DomScroll
| DomClick (target : EventTarget) (clientX clientY : Q)
| DomTouchStart (changed : option Touch) (touches : Z)
| DomTouchMove (changed : option Touch) (touches : Z)
| DomTouchEnd (changed : option Touch) (touches : Z)
| DomVisibilityChange
| DomFocus
| DomBlur
| DomInput (target : option InputTarget)
| DomPopState
| SampleTick                                  (* the 100 ms interval *)
| FlushTick                                   (* the 400 ms interval *)
| Settle (i : nat) (outcome : FetchOutcome)   (* the i-th pending send ends *)
| Unload (beacon_queued : bool)               (* beforeunload or pagehide *)
| EffectCleanup
| EffectSetup (cfg : LoggerConfig).

Inductive Effect : Type :=
| Created (r : EventPayload)            (* a record was constructed *)
| Fetch (events : list EventPayload)    (* POST /api/events *)
| Beacon (events : list EventPayload).  (* navigator.sendBeacon *)

(** ** The hook's state *)

(** The [useRef] cells of one instance of the hook, the configuration its
    closures captured, whether its listeners are attached, and the batches
    of the [flush] calls suspended at their [await]. *)
Record Logger : Type := {
  config : LoggerConfig;
  sessionIdRef : string;
  pageSessionIdRef : string;
  enterAtRef : Z;
  hiddenAtRef : option Z;
  maxDepthRef : Q;
  seqRef : Z;
  queueRef : list EventPayload;
  lastScrollTopRef : Q;
  lastScrollTsRef : Z;
  flushingRef : bool;
  pending : list (list EventPayload);
  listening : bool;
}.

Definition set_config (v : LoggerConfig) (L : Logger) : Logger :=
  {| config := v; sessionIdRef := sessionIdRef L;
     pageSessionIdRef := pageSessionIdRef L; enterAtRef := enterAtRef L;
     hiddenAtRef := hiddenAtRef L; maxDepthRef := maxDepthRef L;
     seqRef := seqRef L; queueRef := queueRef L;
     lastScrollTopRef := lastScrollTopRef L;
     lastScrollTsRef := lastScrollTsRef L; flushingRef := flushingRef L;
     pending := pending L; listening := listening L |}.

Definition set_enterAt (v : Z) (L : Logger) : Logger :=
  {| config := config L; sessionIdRef := sessionIdRef L;
     pageSessionIdRef := pageSessionIdRef L; enterAtRef := v;
     hiddenAtRef := hiddenAtRef L; maxDepthRef := maxDepthRef L;
     seqRef := seqRef L; queueRef := queueRef L;
     lastScrollTopRef := lastScrollTopRef L;
     lastScrollTsRef := lastScrollTsRef L; flushingRef := flushingRef L;
     pending := pending L; listening := listening L |}.

Definition set_hiddenAt (v : option Z) (L : Logger) : Logger :=
  {| config := config L; sessionIdRef := sessionIdRef L;
     pageSessionIdRef := pageSessionIdRef L; enterAtRef := enterAtRef L;
     hiddenAtRef := v; maxDepthRef := maxDepthRef L;
     seqRef := seqRef L; queueRef := queueRef L;
     lastScrollTopRef := lastScrollTopRef L;
     lastScrollTsRef := lastScrollTsRef L; flushingRef := flushingRef L;
     pending := pending L; listening := listening L |}.

Definition set_maxDepth (v : Q) (L : Logger) : Logger :=
  {| config := config L; sessionIdRef := sessionIdRef L;
     pageSessionIdRef := pageSessionIdRef L; enterAtRef := enterAtRef L;
     hiddenAtRef := hiddenAtRef L; maxDepthRef := v;
     seqRef := seqRef L; queueRef := queueRef L;
     lastScrollTopRef := lastScrollTopRef L;
     lastScrollTsRef := lastScrollTsRef L; flushingRef := flushingRef L;
     pending := pending L; listening := listening L |}.

Definition set_seq (v : Z) (L : Logger) : Logger :=
  {| config := config L; sessionIdRef := sessionIdRef L;
     pageSessionIdRef := pageSessionIdRef L; enterAtRef := enterAtRef L;
     hiddenAtRef := hiddenAtRef L; maxDepthRef := maxDepthRef L;
     seqRef := v; queueRef := queueRef L;
     lastScrollTopRef := lastScrollTopRef L;
     lastScrollTsRef := lastScrollTsRef L; flushingRef := flushingRef L;
     pending := pending L; listening := listening L |}.

Definition set_queue (v : list EventPayload) (L : Logger) : Logger :=
  {| config := config L; sessionIdRef := sessionIdRef L;
     pageSessionIdRef := pageSessionIdRef L; enterAtRef := enterAtRef L;
     hiddenAtRef := hiddenAtRef L; maxDepthRef := maxDepthRef L;
     seqRef := seqRef L; queueRef := v;
     lastScrollTopRef := lastScrollTopRef L;
     lastScrollTsRef := lastScrollTsRef L; flushingRef := flushingRef L;
     pending := pending L; listening := listening L |}.

Definition set_lastScroll (top : Q) (ts : Z) (L : Logger) : Logger :=
  {| config := config L; sessionIdRef := sessionIdRef L;
     pageSessionIdRef := pageSessionIdRef L; enterAtRef := enterAtRef L;
     hiddenAtRef := hiddenAtRef L; maxDepthRef := maxDepthRef L;
     seqRef := seqRef L; queueRef := queueRef L;
     lastScrollTopRef := top;
     lastScrollTsRef := ts; flushingRef := flushingRef L;
     pending := pending L; listening := listening L |}.

Definition set_flushing (v : bool) (L : Logger) : Logger :=
  {| config := config L; sessionIdRef := sessionIdRef L;
     pageSessionIdRef := pageSessionIdRef L; enterAtRef := enterAtRef L;
     hiddenAtRef := hiddenAtRef L; maxDepthRef := maxDepthRef L;
     seqRef := seqRef L; queueRef := queueRef L;
     lastScrollTopRef := lastScrollTopRef L;
     lastScrollTsRef := lastScrollTsRef L; flushingRef := v;
     pending := pending L; listening := listening L |}.

Definition set_pending (v : list (list EventPayload)) (L : Logger) : Logger :=
  {| config := config L; sessionIdRef := sessionIdRef L;
     pageSessionIdRef := pageSessionIdRef L; enterAtRef := enterAtRef L;
     hiddenAtRef := hiddenAtRef L; maxDepthRef := maxDepthRef L;
     seqRef := seqRef L; queueRef := queueRef L;
     lastScrollTopRef := lastScrollTopRef L;
     lastScrollTsRef := lastScrollTsRef L; flushingRef := flushingRef L;
     pending := v; listening := listening L |}.

Definition set_listening (v : bool) (L : Logger) : Logger :=
  {| config := config L; sessionIdRef := sessionIdRef L;
     pageSessionIdRef := pageSessionIdRef L; enterAtRef := enterAtRef L;
     hiddenAtRef := hiddenAtRef L; maxDepthRef := maxDepthRef L;
     seqRef := seqRef L; queueRef := queueRef L;
     lastScrollTopRef := lastScrollTopRef L;
     lastScrollTsRef := lastScrollTsRef L; flushingRef := flushingRef L;
     pending := pending L; listening := v |}.

(** ** Session and page identity *)

Definition SESSION_KEY : string := "weibsim_session_id".

(** What the first render reads: one clock reading per [Date.now()] call
    and the six-character suffix [Math.random().toString(36).slice(2, 8)]
    of each draw. *)
Record RenderEnv : Type := {
  pg_now : Z;        (* Date.now() of the pageSessionId *)
  pg_rand : string;  (* random suffix of the pageSessionId *)
  enter_now : Z;     (* Date.now() of enterAtRef *)
  scroll_now : Z;    (* Date.now() of lastScrollTsRef *)
  s_now : Z;         (* Date.now() of a generated sessionId *)
  s_rand : string;   (* random suffix of a generated sessionId *)
}.

Definition make_id (tag : string) (ms : Z) (suffix : string) : string :=
  tag +:+ "_" +:+ pretty ms +:+ "_" +:+ suffix.

(** The session id of a render and the storage it leaves: the stored id
    when there is a non-empty one, else a new id, which it stores. *)
Definition resolve_session (storage : gmap string string) (renv : RenderEnv)
  : gmap string string * string :=
  match storage !! SESSION_KEY with
  | Some existing =>
      if String.eqb existing "" then
        let next := make_id "s" (s_now renv) (s_rand renv) in
        (<[SESSION_KEY := next]> storage, next)
      else (storage, existing)
  | None =>
      let next := make_id "s" (s_now renv) (s_rand renv) in
      (<[SESSION_KEY := next]> storage, next)
  end.

(** The string [s] has no code unit [c]. *)
Fixpoint free_of (c : ascii) (s : string) : Prop :=
  match s with
  | EmptyString => True
  | String a rest => a ≠ c ∧ free_of c rest
  end.

(** The first render of the hook: the refs are created and the session id
    is resolved.  The listeners are not attached yet. *)
Definition useExperimentLogger (storage : gmap string string) (renv : RenderEnv)
    (cfg : LoggerConfig) : gmap string string * Logger :=
  let '(storage', sid) := resolve_session storage renv in
  (storage',
   {| config := cfg;
      sessionIdRef := sid;
      pageSessionIdRef := make_id "pg" (pg_now renv) (pg_rand renv);
      enterAtRef := enter_now renv;
      hiddenAtRef := None;
      maxDepthRef := 0;
      seqRef := 0;
      queueRef := [];
      lastScrollTopRef := 0;
      lastScrollTsRef := scroll_now renv;
      flushingRef := false;
      pending := [];
      listening := false |}).

(** ** Event queue *)

Definition profile_meta (cfg : LoggerConfig) : gmap string JS.Val :=
  <["age" := match cfg_userProfile cfg with
             | Some u => JS.VNum (age u)
             | None => JS.VUndefined
             end]>
  (<["occupation" := match cfg_userProfile cfg with
                     | Some u => JS.VStr (occupation u)
                     | None => JS.VUndefined
                     end]> ∅).

(** The keys [push] writes before it spreads the caller's [meta]. *)
Definition default_meta (env : Env) (cfg : LoggerConfig) : gmap string JS.Val :=
  <["visibility" := JS.VStr (visibilityState env)]> (profile_meta cfg).

(** The record [push] builds.  The caller's keys are spread last, so they
    win over the defaults: the union of maps is left-biased. *)
Definition make_record (env : Env) (partial : Partial) (L : Logger) : EventPayload :=
  {| seq := seqRef L + 1;
     timestamp := default (push_now env) (p_timestamp partial);
     event := p_event partial;
     page := cfg_pageId (config L);
     pageSessionId := pageSessionIdRef L;
     sessionId := sessionIdRef L;
     condition := cfg_condition (config L);
     participantId := cfg_participantId (config L);
     dwellMs := p_dwellMs partial;
     depth := p_depth partial;
     action := p_action partial;
     targetId := p_targetId partial;
     meta := default ∅ (p_meta partial) ∪ default_meta env (config L) |}.

Definition push (env : Env) (partial : Partial) (L : Logger)
  : Logger * list Effect :=
  let r := make_record env partial L in
  (set_queue (queueRef L ++ [r]) (set_seq (seq r) L), [Created r]).

(** ** Delivery transport and flush scheduler *)

(** [sendEvents] issues one request unless it is given no events. *)
Definition sendEvents (events : list EventPayload) : list Effect :=
  match events with
  | [] => []
  | _ => [Fetch events]
  end.

(** Whether the promise of [sendEvents] is fulfilled: it awaits [fetch] and
    looks at nothing of the response. *)
Definition sendEvents_fulfilled (o : FetchOutcome) : bool :=
  match o with
  | Rejected _ => false
  | Responded _ => true
  end.

(** [flush] up to its [await]. *)
Definition flush (L : Logger) : Logger * list Effect :=
  if flushingRef L then (L, [])
  else
    let batch := queueRef L in
    let L1 := set_queue [] L in
    match batch with
    | [] => (L1, [])
    | _ => (set_pending (pending L1 ++ [batch]) (set_flushing true L1),
            sendEvents batch)
    end.

(** [flush] from its [await] on, for the [i]-th suspended call: [catch]
    puts the batch back in front of the queue, [finally] lowers the flag. *)
Definition flush_resume (i : nat) (o : FetchOutcome) (L : Logger) : Logger :=
  match pending L !! i with
  | None => L
  | Some batch =>
      let L1 := set_pending (delete i (pending L)) L in
      let L2 := if sendEvents_fulfilled o then L1
                else set_queue (batch ++ queueRef L1) L1 in
      set_flushing false L2
  end.

(** ** Unload guard *)

Definition depth_string (q : Q) : string := JS.toFixed2 q +:+ "%".

Definition exit_record (env : Env) (L : Logger) : EventPayload :=
  {| seq := seqRef L + 1;
     timestamp := now env;
     event := page_exit;
     page := cfg_pageId (config L);
     pageSessionId := pageSessionIdRef L;
     sessionId := sessionIdRef L;
     condition := cfg_condition (config L);
     participantId := cfg_participantId (config L);
     dwellMs := Some (now env - enterAtRef L);
     depth := Some (depth_string (maxDepthRef L));
     action := None;
     targetId := None;
     meta := profile_meta (config L) |}.

Definition handleUnload (env : Env) (L : Logger) : Logger * list Effect :=
  let r := exit_record env L in
  let payloads := r :: queueRef L in
  (set_queue [] (set_seq (seq r) L), [Created r; Beacon payloads]).

(** ** Listener registry *)

Definition num (q : Q) : JS.Val := JS.VNum q.

(** The body of the effect up to the registration of the listeners. *)
Definition setup (env : Env) (cfg : LoggerConfig) (L : Logger)
  : Logger * list Effect :=
  let initialMetrics := getScrollMetrics (scroll_dom env) in
  let L1 := set_maxDepth (depthPct initialMetrics)
              (set_enterAt (now env) (set_config cfg L)) in
  push env
    {| p_event := page_enter; p_timestamp := None; p_dwellMs := None;
       p_depth := Some (depth_string (depthPct initialMetrics));
       p_action := None; p_targetId := None;
       p_meta := Some
         (<["url" := JS.VStr (href env)]>
         (<["userAgent" := JS.VStr (userAgent env)]>
         (<["viewport" := JS.VStr (pretty (innerWidth env) +:+ "x" +:+
                                   pretty (innerHeight (scroll_dom env)))]> ∅))) |}
    (set_listening true L1).

Definition onScroll (env : Env) (L : Logger) : Logger * list Effect :=
  let metrics := getScrollMetrics (scroll_dom env) in
  let deltaY := Double.sub (scrollTop metrics) (lastScrollTopRef L) in
  let deltaT := Z.max (now env - lastScrollTsRef L) 1 in
  let velocityPxPerSec :=
    Double.mul (Double.div deltaY (inject_Z deltaT)) 1000 in
  let L1 := set_lastScroll (scrollTop metrics) (now env)
              (set_maxDepth (Qmax (maxDepthRef L) (depthPct metrics)) L) in
  push env
    {| p_event := scroll; p_timestamp := None; p_dwellMs := None;
       p_depth := Some (depth_string (depthPct metrics));
       p_action := None; p_targetId := None;
       p_meta := Some
         (<["scrollTop" := JS.of_Z (JS.Math_round (scrollTop metrics))]>
         (<["scrollHeight" := JS.of_Z (scrollHeight metrics)]>
         (<["clientHeight" := JS.of_Z (clientHeight metrics)]>
         (<["deltaY" := JS.of_Z (JS.Math_round deltaY)]>
         (<["velocityPxPerSec" := num (JS.Number_toFixed2 velocityPxPerSec)]>
         (<["maxDepthPct" := num (JS.Number_toFixed2 (maxDepthRef L1))]> ∅)))))) |}
    L1.

Definition target_meta_map (t : TargetMeta) : gmap string JS.Val :=
  <["action" := JS.VStr (tm_action t)]>
  (<["targetId" := JS.of_opt_str (tm_targetId t)]>
  (<["tag" := JS.VStr (tm_tag t)]>
  (<["className" := JS.VStr (tm_className t)]>
  (<["textSample" := JS.VStr (tm_textSample t)]> ∅)))).

Definition onClick (env : Env) (target : EventTarget) (clientX clientY : Q)
    (L : Logger) : Logger * list Effect :=
  let targetMeta := extractTargetMeta target in
  push env
    {| p_event := click; p_timestamp := None; p_dwellMs := None;
       p_depth := None;
       p_action := Some (tm_action targetMeta);
       p_targetId := tm_targetId targetMeta;
       p_meta := Some
         (target_meta_map targetMeta ∪
          (<["x" := JS.of_Z (JS.Math_round clientX)]>
          (<["y" := JS.of_Z (JS.Math_round clientY)]> ∅))) |}
    L.

(** The three touch listeners differ only in the event name. *)
Definition onTouch (name : EventName) (env : Env) (changed : option Touch)
    (touches : Z) (L : Logger) : Logger * list Effect :=
  match changed with
  | None => (L, [])
  | Some t =>
      push env
        {| p_event := name; p_timestamp := None; p_dwellMs := None;
           p_depth := None; p_action := None; p_targetId := None;
           p_meta := Some
             (<["x" := JS.of_Z (JS.Math_round (touch_clientX t))]>
             (<["y" := JS.of_Z (JS.Math_round (touch_clientY t))]>
             (<["touchCount" := JS.of_Z touches]> ∅))) |}
        L
  end.

Definition onTouchStart := onTouch touch_start.
Definition onTouchMove := onTouch touch_move.
Definition onTouchEnd := onTouch touch_end.

Definition onVisibilityChange (env : Env) (L : Logger) : Logger * list Effect :=
  let hidden := String.eqb (visibilityState env) "hidden" in
  let L1 := if hidden then set_hiddenAt (Some (now env)) L else L in
  let hiddenDurationMs :=
    if hidden then 0
    else match hiddenAtRef L1 with
         | Some h => if h =? 0 then 0 else now env - h
         | None => 0
         end in
  push env
    {| p_event := visibility_change; p_timestamp := None; p_dwellMs := None;
       p_depth := None; p_action := None; p_targetId := None;
       p_meta := Some
         (<["state" := JS.VStr (visibilityState env)]>
         (<["hiddenDurationMs" := JS.of_Z hiddenDurationMs]> ∅)) |}
    L1.

Definition onFocus (env : Env) (L : Logger) := push env (partial_of focus) L.
Definition onBlur (env : Env) (L : Logger) := push env (partial_of blur) L.

Definition onInput (env : Env) (target : option InputTarget) (L : Logger)
  : Logger * list Effect :=
  match target with
  | None => (L, [])
  | Some t =>
      let value := default "" (it_value t) in
      push env
        {| p_event := input; p_timestamp := None; p_dwellMs := None;
           p_depth := None;
           p_action := Some "input_change";
           p_targetId :=
             JS.or_undefined
               (JS.str_or (Some (it_id t))
                  (JS.str_or (it_name t) (it_data_track t)));
           p_meta := Some
             (<["fieldType" := JS.VStr (JS.or_str (it_type t) "text")]>
             (<["valueLength" := JS.of_Z (Z.of_nat (String.length value))]> ∅)) |}
        L
  end.

Definition onPopState (env : Env) (L : Logger) : Logger * list Effect :=
  push env
    {| p_event := route_update; p_timestamp := None; p_dwellMs := None;
       p_depth := None; p_action := None; p_targetId := None;
       p_meta := Some (<["url" := JS.VStr (href env)]> ∅) |}
    L.

Definition sampleTimer (env : Env) (L : Logger) : Logger * list Effect :=
  let metrics := getScrollMetrics (scroll_dom env) in
  let L1 := set_maxDepth (Qmax (maxDepthRef L) (depthPct metrics)) L in
  push env
    {| p_event := heartbeat; p_timestamp := None; p_dwellMs := None;
       p_depth := Some (depth_string (depthPct metrics));
       p_action := None; p_targetId := None;
       p_meta := Some
         (<["scrollTop" := JS.of_Z (JS.Math_round (scrollTop metrics))]>
         (<["scrollHeight" := JS.of_Z (scrollHeight metrics)]>
         (<["clientHeight" := JS.of_Z (clientHeight metrics)]>
         (<["maxDepthPct" := num (JS.Number_toFixed2 (maxDepthRef L1))]>
         (<["activeMs" := JS.of_Z (now env - enterAtRef L1)]>
         (<["online" := JS.VBool (onLine env)]> ∅)))))) |}
    L1.

(** The function the effect returns: a last record, the listeners and the
    timers go, and one more [flush] is started. *)
Definition exit_partial (env : Env) (L : Logger) : Partial :=
  {| p_event := page_exit; p_timestamp := Some (now env);
     p_dwellMs := Some (now env - enterAtRef L);
     p_depth := Some (depth_string (maxDepthRef L));
     p_action := None; p_targetId := None; p_meta := None |}.

Definition cleanup (env : Env) (L : Logger) : Logger * list Effect :=
  let '(L1, created) := push env (exit_partial env L) L in
  let '(L2, sent) := flush (set_listening false L1) in
  (L2, created ++ sent).

(** One turn of the event loop.  A listener or a timer only runs while it
    is registered; the continuation of a suspended [flush] runs whenever its
    request ends; the effect is set up only after a cleanup or the first
    render. *)
Definition step (env : Env) (ev : Event) (L : Logger) : Logger * list Effect :=
  match ev with
  | Settle i o => (flush_resume i o L, [])
  | EffectSetup cfg => if listening L then (L, []) else setup env cfg L
  | _ =>
      if listening L then
        match ev with
        | DomScroll => onScroll env L
        | DomClick target x y => onClick env target x y L
        | DomTouchStart changed touches => onTouchStart env changed touches L
        | DomTouchMove changed touches => onTouchMove env changed touches L
        | DomTouchEnd changed touches => onTouchEnd env changed touches L
        | DomVisibilityChange => onVisibilityChange env L
        | DomFocus => onFocus env L
        | DomBlur => onBlur env L
        | DomInput target => onInput env target L
        | DomPopState => onPopState env L
        | SampleTick => sampleTimer env L
        | FlushTick => flush L
        | Unload _ => handleUnload env L
        | EffectCleanup => cleanup env L
        | _ => (L, [])
        end
      else (L, [])
  end.

(** A run of the event loop, with the effects in the order they happen. *)
Fixpoint run (trace : list (Env * Event)) (L : Logger) : Logger * list Effect :=
  match trace with
  | [] => (L, [])
  | (env, ev) :: rest =>
      let '(L1, effs1) := step env ev L in
      let '(L2, effs2) := run rest L1 in
      (L2, effs1 ++ effs2)
  end.

(** The records constructed during a run, oldest first. *)
Definition created (effs : list Effect) : list EventPayload :=
  omap (λ e, match e with Created r => Some r | _ => None end) effs.

(** The batches handed to a transport during a run. *)
Definition sends (effs : list Effect) : list (list EventPayload) :=
  omap (λ e, match e with
             | Fetch b => Some b
             | Beacon b => Some b
             | Created _ => None
             end) effs.

(** The sequence numbers of each batch sent during a run. *)
Definition batch_seqs (effs : list Effect) : list (list Z) :=
  (λ batch : list EventPayload, seq <$> batch) <$> sends effs.

Definition is_settle (ev : Event) : bool :=
  match ev with
  | Settle _ _ => true
  | _ => false
  end.

Definition is_unload (ev : Event) : bool :=
  match ev with
  | Unload _ => true
  | _ => false
  end.

Definition is_setup (ev : Event) : bool :=
  match ev with
  | EffectSetup _ => true
  | _ => false
  end.

Definition is_scroll_or_heartbeat (ev : Event) : bool :=
  match ev with
  | DomScroll | SampleTick => true
  | _ => false
  end.

(** The [maxDepthPct] a record carries in its meta, if any. *)
Definition maxDepthPct_of (r : EventPayload) : option Q :=
  match meta r !! "maxDepthPct" with
  | Some (JS.VNum q) => Some q
  | _ => None
  end.

(** The [maxDepthPct] values recorded during a run, oldest first. *)
Definition maxDepthPcts (effs : list Effect) : list Q :=
  omap maxDepthPct_of (created effs).

(** What the specification counts as a failed delivery: a rejected request
    or a response whose status is not a success. *)
Definition spec_delivery_failed (o : FetchOutcome) : bool :=
  match o with
  | Rejected _ => true
  | Responded status => negb ((200 <=? status) && (status <=? 299))
  end.

(** ** Reachable states and their invariant *)

(** The states an instance of the hook can be in: the one its first render
    creates, and every state a turn of the event loop leads to. *)
Inductive reachable : Logger → Prop :=
| reachable_render storage renv cfg :
    reachable (useExperimentLogger storage renv cfg).2
| reachable_step env ev L :
    reachable L → reachable (step env ev L).1.

(** The records that wait for delivery: those of the suspended sends, then
    those of the queue. *)
Definition waiting (L : Logger) : list EventPayload :=
  concat (pending L) ++ queueRef L.

(** The invariant of the queue and of the flush guard. *)
Record wf (L : Logger) : Prop := {
  wf_single :
    (flushingRef L = false ∧ pending L = [])
    ∨ (flushingRef L = true ∧ ∃ batch, pending L = [batch] ∧ batch ≠ []);
  wf_sorted : StronglySorted Z.lt (seq <$> waiting L);
  wf_bound : Forall (λ r, seq r ≤ seqRef L) (waiting L);
}.

(** The caller's [meta] leaves the keys that [push] supplies alone. *)
Definition keeps_defaults (p : Partial) : Prop :=
  default ∅ (p_meta p) !! "visibility" = None
  ∧ default ∅ (p_meta p) !! "age" = None
  ∧ default ∅ (p_meta p) !! "occupation" = None.

(** Two states that agree on everything the queue and the flush guard
    depend on. *)
Definition same_core (L L1 : Logger) : Prop :=
  seqRef L1 = seqRef L ∧ queueRef L1 = queueRef L ∧ pending L1 = pending L
  ∧ flushingRef L1 = flushingRef L
  ∧ sessionIdRef L1 = sessionIdRef L
  ∧ pageSessionIdRef L1 = pageSessionIdRef L.

(** ** Concrete inputs

    States and readings the properties below are evaluated on. *)

(** A document exactly as tall as its viewport, scrolled through [body]. *)
Definition degenerate_dom : ScrollDom :=
  {| root_scrollTop := 0; body_scrollTop := 35 # 2;
     root_scrollHeight := 640; body_scrollHeight := 600;
     root_clientHeight := 640; innerHeight := 640 |}.

(** A button inside a tracked card, its text spread over several lines. *)
Definition tracked_card : Element :=
  {| el_id := "card-7"; el_tagName := "SECTION";
     el_className := "bg-white px-4 py-3";
     el_textContent := "AI  summary" +:+ String "010"%char "  of the   topic";
     dataset_track := Some "aigs_card"; dataset_trackId := None;
     parentElement := None |}.

Definition inner_span : Element :=
  {| el_id := ""; el_tagName := "SPAN"; el_className := "";
     el_textContent := "more";
     dataset_track := None; dataset_trackId := None;
     parentElement := Some tracked_card |}.

(** A visit of the login page by a known viewer. *)
Definition login_cfg : LoggerConfig :=
  {| cfg_pageId := "login"; cfg_condition := "prelogin";
     cfg_participantId := "p001";
     cfg_userProfile := Some {| age := 29; occupation := "teacher" |} |}.

Definition first_render : RenderEnv :=
  {| pg_now := 1700000000000; pg_rand := "k3x9qa";
     enter_now := 1700000000000; scroll_now := 1700000000000;
     s_now := 1700000000000; s_rand := "p0w2zm" |}.

Definition long_page (top : Q) : ScrollDom :=
  {| root_scrollTop := top; body_scrollTop := 0;
     root_scrollHeight := 2640; body_scrollHeight := 2640;
     root_clientHeight := 640; innerHeight := 640 |}.

(** The browser [ms] milliseconds after the first render, the page
    scrolled to [top]. *)
Definition browser_at (ms : Z) (top : Q) : Env :=
  {| now := 1700000000000 + ms; push_now := 1700000000000 + ms;
     scroll_dom := long_page top; visibilityState := "visible";
     href := "https://lab.example/login"; userAgent := "Mozilla/5.0";
     innerWidth := 390; onLine := true |}.

Definition fresh_logger : Logger :=
  (useExperimentLogger ∅ first_render login_cfg).2.

(** Mounted, with two records in the queue and nothing in flight. *)
Definition two_queued : Logger :=
  (run [(browser_at 5 0, EffectSetup login_cfg);
        (browser_at 100 0, SampleTick)] fresh_logger).1.

(** The same visit after the first flush tick: the two records are in
    flight, and a scroll has queued a third. *)
Definition one_in_flight : Logger :=
  (run [(browser_at 400 0, FlushTick);
        (browser_at 450 500, DomScroll)] two_queued).1.

(** A second render in the same millisecond whose random draw prints the
    same suffix. *)
Definition same_ms_render : RenderEnv :=
  {| pg_now := 1700000000000; pg_rand := "k3x9qa";
     enter_now := 1700000000000; scroll_now := 1700000000000;
     s_now := 1700000000000; s_rand := "d81mfc" |}.

Definition later_render : RenderEnv :=
  {| pg_now := 1700000042000; pg_rand := "k3x9qa";
     enter_now := 1700000042000; scroll_now := 1700000042000;
     s_now := 1700000042000; s_rand := "d81mfc" |}.

(** A scroll down, a heartbeat, a scroll back up and a scroll further
    down. *)
Definition scroll_burst : list (Env * Event) :=
  [(browser_at 500 100, DomScroll);
   (browser_at 600 300, SampleTick);
   (browser_at 700 200, DomScroll);
   (browser_at 800 1000, DomScroll)].

(** A clean visit: mount, then unmount 1500 ms later. *)
Definition clean_visit_effects : list Effect :=
  (run [(browser_at 0 0, EffectSetup login_cfg);
        (browser_at 1500 0, EffectCleanup)] fresh_logger).2.

(** Three records queued; the first send fails, the second succeeds. *)
Definition recovery_run : Logger * list Effect :=
  run [(browser_at 400 0, FlushTick);
       (browser_at 420 0, Settle 0 (Rejected "TypeError: Failed to fetch"));
       (browser_at 800 0, FlushTick);
       (browser_at 830 0, Settle 0 (Responded 200))]
    (run [(browser_at 200 0, SampleTick)] two_queued).1.

(** A tick while the first send is in flight, its end, and the next tick. *)
Definition overlap_effects : list Effect :=
  (run [(browser_at 800 500, FlushTick);
        (browser_at 900 500, Settle 0 (Responded 200));
        (browser_at 1200 500, FlushTick)] one_in_flight).2.

(** The record of a click on the span inside the tracked card. *)
Definition click_on_card : list EventPayload :=
  created (step (browser_at 250 0)
             (DomClick (TargetElement inner_span) (1203 # 10) (4007 # 10))
             two_queued).2.

(** ** Tactics *)

(** Looking up a key in a map written as a chain of inserts under other
    keys, or in a union of such maps. *)
Ltac lookup_none_tac :=
  repeat first
    [ apply lookup_empty
    | rewrite lookup_insert_ne by discriminate
    | apply lookup_union_None_2 ].

Ltac keeps_defaults_tac :=
  repeat split; cbn [default from_option id p_meta partial_of];
  unfold target_meta_map;
  lookup_none_tac.

(** ** Further definitions *)

(** The refs that [flush] and its continuation never write. *)
Definition same_refs (L L' : Logger) : Prop :=
  config L' = config L
  ∧ enterAtRef L' = enterAtRef L
  ∧ hiddenAtRef L' = hiddenAtRef L
  ∧ maxDepthRef L' = maxDepthRef L
  ∧ seqRef L' = seqRef L
  ∧ lastScrollTopRef L' = lastScrollTopRef L
  ∧ lastScrollTsRef L' = lastScrollTsRef L
  ∧ listening L' = listening L.

Definition is_cleanup (ev : Event) : bool :=
  match ev with
  | EffectCleanup => true
  | _ => false
  end.

Definition is_scroll (ev : Event) : bool :=
  match ev with
  | DomScroll => true
  | _ => false
  end.

(** The turn is a visibility change that finds the document hidden. *)
Definition hides (x : Env * Event) : bool :=
  match x.2 with
  | DomVisibilityChange => String.eqb (visibilityState x.1) "hidden"
  | _ => false
  end.

(** The records handed to a transport during a run. *)
Definition sent (effs : list Effect) : list EventPayload :=
  concat (sends effs).

(** The batches posted with [fetch] during a run. *)
Definition fetched (effs : list Effect) : list (list EventPayload) :=
  omap (λ e, match e with Fetch b => Some b | _ => None end) effs.

(** Every record in flight has been handed to a transport. *)
Definition flights_sent (L : Logger) (S : list EventPayload) : Prop :=
  ∀ r, r ∈ concat (pending L) → r ∈ S.

(** What a transition owes: a record that waited or was constructed still
    waits or has been sent, and what is in flight has been sent. *)
Definition accounts (S : list EventPayload) (L : Logger)
    (out : Logger * list Effect) : Prop :=
  (∀ r, r ∈ waiting L ∨ r ∈ created out.2 →
        r ∈ waiting out.1 ∨ r ∈ S ∨ r ∈ sent out.2)
  ∧ flights_sent out.1 (S ++ sent out.2).

(** An element and its ancestors, nearest first. *)
Fixpoint ancestors (el : Element) : list Element :=
  el :: match parentElement el with
        | Some p => ancestors p
        | None => []
        end.

(** The capital letters A to Z. *)
Definition is_upper (c : ascii) : bool :=
  let n := N_of_ascii c in (65 <=? n)%N && (n <=? 90)%N.

Fixpoint has_upper (s : string) : bool :=
  match s with
  | EmptyString => false
  | String c rest => is_upper c || has_upper rest
  end.

(** Two input fields that differ in nothing but the text typed into them. *)
Definition same_field (t1 t2 : InputTarget) : Prop :=
  it_id t1 = it_id t2 ∧ it_name t1 = it_name t2
  ∧ it_data_track t1 = it_data_track t2 ∧ it_type t1 = it_type t2.

(** A password field that holds [text]. *)
Definition secret_field (text : string) : InputTarget :=
  {| it_id := "pw"; it_name := Some "password"; it_data_track := None;
     it_type := Some "password"; it_value := Some text |}.

(** ** The participant id of [App.tsx] *)

Module App.

Definition PARTICIPANT_KEY : string := "weibsim_participant_id".

(** [s.slice(-n)]: the last [n] code units of [s], all of [s] when it has
    fewer. *)
Fixpoint drop_str (n : nat) (s : string) : string :=
  match n, s with
  | O, _ => s
  | S _, EmptyString => EmptyString
  | S k, String _ rest => drop_str k rest
  end.

Definition slice_last (n : nat) (s : string) : string :=
  drop_str (String.length s - n) s.

(** [getParticipantId].  [fromQuery] is [params.get('pid')]; [ms] is
    [Date.now()] and [draw] is [Math.floor(10 + Math.random() * 90)], both
    read only when an id is generated. *)
Definition getParticipantId (fromQuery : option string)
    (storage : gmap string string) (ms draw : Z)
  : gmap string string * string :=
  if JS.truthy fromQuery then (storage, default "" fromQuery)
  else
    let cached := storage !! PARTICIPANT_KEY in
    if JS.truthy cached then (storage, default "" cached)
    else
      let next := "p" +:+ slice_last 6 (pretty ms) +:+ pretty draw in
      (<[PARTICIPANT_KEY := next]> storage, next).

End App.

(** ** The events endpoint of [backend/server.js] *)

Module Server.

(** A JSON value; the fields of an object in the order of its keys. *)
Inductive Json : Type :=
| JNull
| JBool (b : bool)
| JNum (q : Q)
| JStr (s : string)
| JArr (items : list Json)
| JObj (fields : list (string * Json)).

(** Truthiness: [null], [false], [0] and the empty string are falsy. *)
Definition truthy (j : Json) : bool :=
  match j with
  | JNull => false
  | JBool b => b
  | JNum q => negb (Qeq_bool q 0)
  | JStr s => negb (String.eqb s "")
  | JArr _ | JObj _ => true
  end.

Fixpoint assoc (k : string) (fields : list (string * Json)) : option Json :=
  match fields with
  | [] => None
  | (k', v) :: rest => if String.eqb k k' then Some v else assoc k rest
  end.

(** [Array.isArray(j?.events) ? j.events : null]: only an object has a
    property [events]. *)
Definition events_of (j : Json) : option (list Json) :=
  match j with
  | JObj fields =>
      match assoc "events" fields with
      | Some (JArr events) => Some events
      | _ => None
      end
  | _ => None
  end.

(** [obj[k] = v] on the fields of an object: an existing key keeps its
    place, a new key goes last. *)
Fixpoint set_field (k : string) (v : Json) (fields : list (string * Json))
  : list (string * Json) :=
  match fields with
  | [] => [(k, v)]
  | (k', v') :: rest =>
      if String.eqb k k' then (k, v) :: rest
      else (k', v') :: set_field k v rest
  end.

Fixpoint chars (s : string) : list Json :=
  match s with
  | EmptyString => []
  | String c rest => JStr (String c EmptyString) :: chars rest
  end.

(** The own enumerable properties that [{...j}] copies: the fields of an
    object, the indexed elements of an array or of a string, nothing of
    another value. *)
Definition spread (j : Json) : list (string * Json) :=
  match j with
  | JObj fields => fields
  | JArr items => imap (λ i x, (pretty (N.of_nat i), x)) items
  | JStr s => imap (λ i x, (pretty (N.of_nat i), x)) (chars s)
  | _ => []
  end.

(** What the handler reads of a request. *)
Record Request : Type := {
  body : option Json;                 (* req.body; [None] is undefined *)
  x_forwarded_for : option string;    (* req.headers['x-forwarded-for'] *)
  remoteAddress : option string;      (* req.socket.remoteAddress *)
  user_agent : option string;         (* req.headers['user-agent'] *)
}.

(** How the file system answers: [mkdir] fails, [appendFile] fails, or both
    succeed. *)
Inductive FsOutcome : Type :=
| MkdirFailed (message : string)
| AppendFailed (message : string)
| Written.

Record Response : Type := {
  status : Z;
  json : Json;
}.

Section WithJSON.

(** [JSON.parse], [None] when it throws, and [JSON.stringify]. *)
Variable JSON_parse : string → option Json.
Variable JSON_stringify : Json → string.

Definition normalizeEvents (body : option Json) : option (list Json) :=
  match body with
  | None => None
  | Some b =>
      if negb (truthy b) then None
      else
        match b with
        | JStr s =>
            match JSON_parse s with
            | Some parsed => events_of parsed
            | None => None
            end
        | JObj _ | JArr _ => events_of b
        | _ => None
        end
  end.

(** The object logged for one event: the event's own properties, then the
    two server fields written over them. *)
Definition stamp (received : Z) (ip userAgent : string) (event : Json) : Json :=
  JObj (set_field "serverMeta"
          (JObj [("ip", JStr ip); ("userAgent", JStr userAgent)])
          (set_field "serverReceivedAt" (JNum (inject_Z received))
             (spread event))).

(** The text for the log: one stringified object per event, joined by line
    feeds, and a line feed at the end.  [clock i] is the [Date.now()] read
    for the event at index [i]. *)
Definition log_lines (clock : nat → Z) (ip userAgent : string)
    (events : list Json) : string :=
  String.concat (String "010" EmptyString)
    (imap (λ i event, JSON_stringify (stamp (clock i) ip userAgent event))
       events)
  +:+ String "010" EmptyString.

(** The handler of [POST /api/events]: the response, and the text handed
    to [appendFile] if it is called. *)
Definition post_events (req : Request) (clock : nat → Z) (fs : FsOutcome)
  : Response * option string :=
  match normalizeEvents (body req) with
  | None =>
      ({| status := 400;
          json := JObj [("ok", JBool false);
                        ("message", JStr "events must be an array")] |},
       None)
  | Some events =>
      let clientIp :=
        JS.or_str (JS.str_or (x_forwarded_for req) (remoteAddress req)) "" in
      let userAgent := JS.or_str (user_agent req) "" in
      let lines := log_lines clock clientIp userAgent events in
      match fs with
      | MkdirFailed message =>
          ({| status := 500;
              json := JObj [("ok", JBool false); ("message", JStr message)] |},
           None)
      | AppendFailed message =>
          ({| status := 500;
              json := JObj [("ok", JBool false); ("message", JStr message)] |},
           Some lines)
      | Written =>
          ({| status := 200;
              json := JObj [("ok", JBool true);
                            ("count", JNum (inject_Z (Z.of_nat (length events))))] |},
           Some lines)
      end
  end.

End WithJSON.

End Server.

(** Lines written one after the other, each ended by a line feed. *)
Fixpoint terminated (lines : list string) : string :=
  match lines with
  | [] => EmptyString
  | l :: rest => l +:+ String "010" EmptyString +:+ terminated rest
  end.

(** A parser that knows one text, and a printer that prints the number of
    fields of an object: enough to run the endpoint on an example. *)
Definition toy_parse (s : string) : option Server.Json :=
  if String.eqb s "{}" then Some (Server.JObj []) else None.

Definition toy_stringify (j : Server.Json) : string :=
  match j with
  | Server.JObj fields => pretty (N.of_nat (length fields))
  | _ => "?"
  end.

(** A batch of two events, the second of which carries a field named like
    a server field. *)
Definition spoofing_batch : Server.Json :=
  Server.JObj
    [("events",
      Server.JArr
        [Server.JObj [("seq", Server.JNum 1)];
         Server.JObj [("seq", Server.JNum 2);
                      ("serverReceivedAt", Server.JNum 0)]])].

Definition beacon_request : Server.Request :=
  {| Server.body := Some spoofing_batch;
     Server.x_forwarded_for := None;
     Server.remoteAddress := Some "203.0.113.9";
     Server.user_agent := Some "Mozilla/5.0" |}.

(** * Properties *)

(** ** Rounding to a double *)

Section Rounding.

#[local] Open Scope Q_scope.

Lemma nearest_even_spec (q : Q) :
  q - (1 # 2) <= inject_Z (Double.nearest_even q) <= q + (1 # 2).
Proof.
  unfold Double.nearest_even.
  pose proof (Qfloor_le q) as Hlo. pose proof (Qlt_floor q) as Hhi.
  rewrite inject_Z_plus in Hhi. change (inject_Z 1) with 1 in Hhi.
  destruct (q - inject_Z (Qfloor q) ?= 1 # 2) eqn:Hc.
  - apply Qeq_alt in Hc.
    destruct (Z.even (Qfloor q)); [| rewrite inject_Z_plus; change (inject_Z 1) with 1];
      lra.
  - apply Qlt_alt in Hc. lra.
  - apply Qgt_alt in Hc. rewrite inject_Z_plus. change (inject_Z 1) with 1. lra.
Qed.

Lemma nearest_even_compat (x y : Q) :
  x == y -> Double.nearest_even x = Double.nearest_even y.
Proof.
  intros Hxy. unfold Double.nearest_even.
  assert (Hf : Qfloor x = Qfloor y) by (by rewrite Hxy).
  rewrite Hf.
  assert (Hc : (x - inject_Z (Qfloor y) ?= 1 # 2) = (y - inject_Z (Qfloor y) ?= 1 # 2)).
  { by rewrite Hxy. }
  by rewrite Hc.
Qed.

Lemma nearest_even_Z (z : Z) : Double.nearest_even (inject_Z z) = z.
Proof.
  unfold Double.nearest_even. rewrite Qfloor_Z.
  assert (Hc : (inject_Z z - inject_Z z ?= 1 # 2) = Lt).
  { apply (proj1 (Qlt_alt _ _)). unfold Qminus. rewrite Qplus_opp_r. reflexivity. }
  by rewrite Hc.
Qed.

Lemma nearest_even_mono (x y : Q) :
  x <= y -> (Double.nearest_even x <= Double.nearest_even y)%Z.
Proof.
  intros Hxy.
  destruct (Z_le_gt_dec (Double.nearest_even x) (Double.nearest_even y))
    as [Hle | Hgt]; [done | exfalso].
  pose proof (nearest_even_spec x) as [_ Hx].
  pose proof (nearest_even_spec y) as [Hy _].
  assert (Hstep : (Double.nearest_even y + 1 <= Double.nearest_even x)%Z) by lia.
  rewrite Zle_Qle, inject_Z_plus in Hstep.
  change (inject_Z 1) with 1 in Hstep.
  assert (Heq : x == y) by lra.
  apply nearest_even_compat in Heq. lia.
Qed.

End Rounding.

Section Exponent.

#[local] Open Scope Q_scope.

Lemma two_nonzero : ¬ (2 == 0).
Proof. discriminate. Qed.

Lemma pow2_pos (k : Z) : 0 < 2 ^ k.
Proof. apply Qpower_0_lt. reflexivity. Qed.

Lemma pow2_succ (k : Z) : 2 ^ (k + 1) == 2 * 2 ^ k.
Proof. rewrite Qpower_plus by apply two_nonzero. change (2 ^ 1) with 2. ring. Qed.

Lemma pow2_le (a b : Z) : (a <= b)%Z -> 2 ^ a <= 2 ^ b.
Proof. intros Hab. apply Qpower_le_compat_l; [done | discriminate]. Qed.

Lemma pow2_lt_inv (a b : Z) : 2 ^ a < 2 ^ b -> (a < b)%Z.
Proof. intros Hab. eapply Qpower_lt_compat_l_inv; [exact Hab | reflexivity]. Qed.

Lemma pow2_inject (n : Z) : (0 <= n)%Z -> inject_Z (2 ^ n) == 2 ^ n.
Proof. intros Hn. by rewrite Zpower_Qpower. Qed.

(** A positive integer lies between two consecutive powers of two. *)
Lemma log2_bounds (n : Z) :
  (0 < n)%Z ->
  2 ^ Z.log2 n <= inject_Z n ∧ inject_Z n < 2 ^ (Z.log2 n + 1).
Proof.
  intros Hn. destruct (Z.log2_spec n Hn) as [Hlo Hhi].
  pose proof (Z.log2_nonneg n) as Hnn.
  rewrite <- !pow2_inject by lia. split.
  - by rewrite <- Zle_Qle.
  - rewrite <- Zlt_Qlt. by rewrite <- Z.add_1_r in Hhi.
Qed.

Lemma ilog2_spec (q : Q) :
  0 < q -> 2 ^ Double.ilog2 q <= q ∧ q < 2 ^ (Double.ilog2 q + 1).
Proof.
  intros Hq. unfold Double.ilog2.
  destruct q as [n d]. cbn [Qnum Qden].
  assert (Hn : (0 < n)%Z).
  { unfold Qlt in Hq. cbn in Hq. lia. }
  destruct (log2_bounds n Hn) as [Hnlo Hnhi].
  destruct (log2_bounds (Zpos d) eq_refl) as [Hdlo Hdhi].
  set (a := Z.log2 n) in *. set (b := Z.log2 (Zpos d)) in *.
  assert (Hq' : n # d == inject_Z n / inject_Z (Zpos d)) by apply Qmake_Qdiv.
  assert (Hdpos : 0 < inject_Z (Zpos d)) by reflexivity.
  assert (Hsplit : 2 ^ a == 2 ^ (a - b) * 2 ^ b).
  { rewrite <- Qpower_plus by apply two_nonzero. by replace (a - b + b)%Z with a by lia. }
  assert (Hsplit' : 2 ^ (a + 1) == 2 ^ (a - b) * 2 ^ (b + 1)).
  { rewrite <- Qpower_plus by apply two_nonzero.
    by replace (a - b + (b + 1))%Z with (a + 1)%Z by lia. }
  pose proof (pow2_pos (a - b)) as Hk. pose proof (pow2_pos b) as Hb.
  pose proof (pow2_succ (a - b)) as Hks.
  pose proof (pow2_succ b) as Hbs.
  pose proof (pow2_succ (a - b - 1)) as Hkp.
  replace (a - b - 1 + 1)%Z with (a - b)%Z in Hkp by lia.
  set (Q0 := n # d) in *.
  assert (Hmul : Q0 * inject_Z (Zpos d) == inject_Z n).
  { rewrite Hq'. field. discriminate. }
  destruct (Qle_bool (2 ^ (a - b)) Q0) eqn:Hc.
  - apply Qle_bool_iff in Hc. split; [done |].
    rewrite Hks.
    apply Qnot_le_lt. intros Hge.
    assert (2 * 2 ^ (a - b) * inject_Z (Zpos d) <= Q0 * inject_Z (Zpos d)).
    { apply Qmult_le_compat_r; [done | lra]. }
    assert (2 ^ (a - b) * 2 ^ b <=  2 ^ (a - b) * inject_Z (Zpos d)).
    { rewrite !(Qmult_comm (2 ^ (a - b))). apply Qmult_le_compat_r; [done | lra]. }
    nra.
  - assert (Hlt : Q0 < 2 ^ (a - b)).
    { apply Qnot_le_lt. intros Hle. apply Qle_bool_iff in Hle. congruence. }
    replace (a - b - 1 + 1)%Z with (a - b)%Z by lia.
    split; [| done].
    apply Qnot_lt_le. intros Hlt'.
    assert (Q0 * inject_Z (Zpos d) < 2 ^ (a - b - 1) * inject_Z (Zpos d)).
    { apply Qmult_lt_compat_r; [done | done]. }
    assert (2 ^ (a - b - 1) * inject_Z (Zpos d) <= 2 ^ (a - b - 1) * 2 ^ (b + 1)).
    { rewrite !(Qmult_comm (2 ^ (a - b - 1))).
      apply Qmult_le_compat_r; [lra | apply Qlt_le_weak, pow2_pos]. }
    nra.
Qed.

End Exponent.

Section Round.

#[local] Open Scope Q_scope.

Lemma ilog2_unique (q : Q) (k : Z) :
  2 ^ k <= q -> q < 2 ^ (k + 1) -> Double.ilog2 q = k.
Proof.
  intros Hlo Hhi.
  assert (Hq : 0 < q) by (pose proof (pow2_pos k); lra).
  destruct (ilog2_spec q Hq) as [Hlo' Hhi'].
  assert (Double.ilog2 q < k + 1)%Z by (apply pow2_lt_inv; lra).
  assert (k < Double.ilog2 q + 1)%Z by (apply pow2_lt_inv; lra).
  lia.
Qed.

Lemma ilog2_compat (x y : Q) : 0 < x -> x == y -> Double.ilog2 x = Double.ilog2 y.
Proof.
  intros Hx Hxy. destruct (ilog2_spec x Hx) as [Hlo Hhi].
  symmetry. apply ilog2_unique; lra.
Qed.

Lemma ilog2_mono (x y : Q) :
  0 < x -> x <= y -> (Double.ilog2 x <= Double.ilog2 y)%Z.
Proof.
  intros Hx Hxy.
  destruct (ilog2_spec x Hx) as [Hlo _].
  destruct (ilog2_spec y) as [_ Hhi]; [lra |].
  assert (Double.ilog2 x < Double.ilog2 y + 1)%Z by (apply pow2_lt_inv; lra).
  lia.
Qed.

Lemma ilog2_below (q : Q) (k : Z) : 0 < q -> q < 2 ^ k -> (Double.ilog2 q < k)%Z.
Proof.
  intros Hq Hk. destruct (ilog2_spec q Hq) as [Hlo _].
  apply pow2_lt_inv. lra.
Qed.

Lemma exponent_compat (x y : Q) :
  ¬ x == 0 -> x == y -> Double.exponent x = Double.exponent y.
Proof.
  intros Hx Hxy. unfold Double.exponent. f_equal. f_equal.
  apply ilog2_compat.
  - apply Qnot_le_lt. intros Hle.
    apply Hx. apply Qabs_Qle_condition in Hle. lra.
  - by rewrite Hxy.
Qed.

(** [round] maps equal rationals to the same fraction. *)
Lemma round_compat (x y : Q) : x == y -> Double.round x = Double.round y.
Proof.
  intros Hxy. unfold Double.round.
  destruct (Qeq_bool x 0) eqn:Hx, (Qeq_bool y 0) eqn:Hy; [done | | |].
  - apply Qeq_bool_iff in Hx. apply Qeq_bool_neq in Hy. exfalso. apply Hy. lra.
  - apply Qeq_bool_iff in Hy. apply Qeq_bool_neq in Hx. exfalso. apply Hx. lra.
  - apply Qeq_bool_neq in Hx. cbv zeta.
    rewrite <- (exponent_compat x y Hx Hxy).
    apply Qred_complete.
    assert (Hm : x / 2 ^ Double.exponent x == y / 2 ^ Double.exponent x)
      by (by apply Qdiv_comp).
    by rewrite (nearest_even_compat _ _ Hm).
Qed.

(** The value [round] returns, up to the reduction of the fraction. *)
Lemma round_value (q : Q) :
  Double.round q
  == inject_Z (Double.nearest_even (q / 2 ^ Double.exponent q))
     * 2 ^ Double.exponent q.
Proof.
  unfold Double.round. destruct (Qeq_bool q 0) eqn:Hq.
  - apply Qeq_bool_iff in Hq.
    assert (Hm : q / 2 ^ Double.exponent q == inject_Z 0).
    { change (inject_Z 0) with 0. unfold Qdiv.
      rewrite (Qmult_comp _ _ Hq _ _ (Qeq_refl _)). ring. }
    rewrite (nearest_even_compat _ _ Hm), nearest_even_Z. ring.
  - cbv zeta. apply Qred_correct.
Qed.

(** Rounding moves a number by at most half a unit in the last place. *)
Lemma round_near (q : Q) :
  Qabs (Double.round q - q) <= 2 ^ Double.exponent q * (1 # 2).
Proof.
  rewrite round_value. set (e := Double.exponent q).
  pose proof (pow2_pos e) as He.
  pose proof (nearest_even_spec (q / 2 ^ e)) as [Hlo Hhi].
  set (m := inject_Z (Double.nearest_even (q / 2 ^ e))) in *.
  assert (Hq : q == q / 2 ^ e * 2 ^ e) by (field; lra).
  set (t := q / 2 ^ e) in *. clearbody m t.
  apply Qabs_Qle_condition. rewrite Hq. clear Hq. split; nra.
Qed.

Lemma round_nonneg (q : Q) : 0 <= q -> 0 <= Double.round q.
Proof.
  intros Hq. rewrite round_value.
  pose proof (pow2_pos (Double.exponent q)) as He.
  apply Qmult_le_0_compat; [| lra].
  change 0 with (inject_Z 0). rewrite <- Zle_Qle.
  rewrite <- (nearest_even_Z 0). apply nearest_even_mono.
  change (inject_Z 0) with 0. apply Qle_shift_div_l; [done | lra].
Qed.

Lemma Qabs_pos_eq (q : Q) : 0 < q -> Qabs q = q.
Proof.
  destruct q as [n d]. unfold Qlt. cbn. intros Hn.
  f_equal. apply Z.abs_eq. lia.
Qed.

Lemma exponent_mono (x y : Q) :
  0 < x -> x <= y -> (Double.exponent x <= Double.exponent y)%Z.
Proof.
  intros Hx Hxy. unfold Double.exponent.
  assert (Double.ilog2 (Qabs x) <= Double.ilog2 (Qabs y))%Z; [| lia].
  apply ilog2_mono.
  - rewrite Qabs_pos_eq; done.
  - rewrite !Qabs_pos_eq; [done | lra | done].
Qed.

(** Rounding keeps the order of the non-negative numbers. *)
Lemma round_mono_nonneg (x y : Q) :
  0 <= x -> x <= y -> Double.round x <= Double.round y.
Proof.
  intros Hx Hxy.
  destruct (Qeq_dec x 0) as [Hx0 | Hx0].
  { rewrite (round_compat x 0 Hx0). change (Double.round 0) with 0.
    apply round_nonneg. lra. }
  assert (Hxpos : 0 < x) by lra.
  assert (Hypos : 0 < y) by lra.
  rewrite (round_value x), (round_value y).
  pose proof (exponent_mono x y Hxpos Hxy) as He.
  set (ex := Double.exponent x) in *. set (ey := Double.exponent y) in *.
  pose proof (pow2_pos ex) as Hpx. pose proof (pow2_pos ey) as Hpy.
  destruct (Z.eq_dec ex ey) as [Heq | Hne].
  - rewrite <- Heq. apply Qmult_le_compat_r; [| lra].
    rewrite <- Zle_Qle. apply nearest_even_mono.
    unfold Qdiv. apply Qmult_le_compat_r; [done |].
    apply Qlt_le_weak, Qinv_lt_0_compat, Hpx.
  - assert (Hlt : (ex < ey)%Z) by lia.
    (* x / 2 ^ ex is below 2 ^ 53, hence so is its rounding *)
    assert (Hxm : inject_Z (Double.nearest_even (x / 2 ^ ex)) <= 2 ^ 53).
    { change (2 ^ 53) with (inject_Z (2 ^ 53)%Z). rewrite <- Zle_Qle.
      rewrite <- (nearest_even_Z (2 ^ 53)%Z). apply nearest_even_mono.
      change (inject_Z (2 ^ 53)%Z) with (2 ^ 53).
      apply Qle_shift_div_r; [done |].
      rewrite <- Qpower_plus by apply two_nonzero.
      destruct (ilog2_spec (Qabs x)) as [_ Hhi]; [by rewrite Qabs_pos_eq |].
      rewrite Qabs_pos_eq in Hhi by done.
      apply Qlt_le_weak. eapply Qlt_le_trans; [exact Hhi |].
      apply pow2_le. subst ex. unfold Double.exponent.
      rewrite Qabs_pos_eq by done. lia. }
    (* y / 2 ^ ey is at least 2 ^ 52, hence so is its rounding *)
    assert (Hym : 2 ^ 52 <= inject_Z (Double.nearest_even (y / 2 ^ ey))).
    { change (2 ^ 52) with (inject_Z (2 ^ 52)%Z). rewrite <- Zle_Qle.
      rewrite <- (nearest_even_Z (2 ^ 52)%Z). apply nearest_even_mono.
      change (inject_Z (2 ^ 52)%Z) with (2 ^ 52).
      apply Qle_shift_div_l; [done |].
      rewrite <- Qpower_plus by apply two_nonzero.
      destruct (ilog2_spec (Qabs y)) as [Hlo _]; [by rewrite Qabs_pos_eq |].
      rewrite Qabs_pos_eq in Hlo by done.
      eapply Qle_trans; [| exact Hlo].
      apply pow2_le.
      assert (ey = Double.ilog2 (Qabs y) - 52)%Z.
      { subst ex ey. unfold Double.exponent in *. lia. }
      rewrite Qabs_pos_eq in * by done. lia. }
    apply Qle_trans with (2 ^ 53 * 2 ^ ex).
    { apply Qmult_le_compat_r; [done | lra]. }
    apply Qle_trans with (2 ^ 52 * 2 ^ ey).
    + rewrite <- !Qpower_plus by apply two_nonzero. apply pow2_le. lia.
    + apply Qmult_le_compat_r; [done | lra].
Qed.

End Round.

Section Fixed.

#[local] Open Scope Q_scope.

Lemma Qabs_pos_lt (q : Q) : ¬ q == 0 -> 0 < Qabs q.
Proof.
  intros Hq. apply Qnot_le_lt. intros Hle.
  apply Hq. apply Qabs_Qle_condition in Hle. lra.
Qed.

Lemma exponent_floor (q : Q) : (-1074 <= Double.exponent q)%Z.
Proof. unfold Double.exponent. lia. Qed.

(** Below [2 ^ k] the unit in the last place is at most [2 ^ (k - 53)]. *)
Lemma exponent_below (q : Q) (k : Z) :
  ¬ q == 0 -> Qabs q < 2 ^ k -> (-1021 <= k)%Z ->
  (Double.exponent q <= k - 53)%Z.
Proof.
  intros Hq Hk Hmin. unfold Double.exponent.
  pose proof (ilog2_below (Qabs q) k (Qabs_pos_lt q Hq) Hk). lia.
Qed.

Lemma round_zero (q : Q) : q == 0 -> Double.round q = 0.
Proof. intros Hq. by rewrite (round_compat q 0 Hq). Qed.

Lemma round_near_below (q : Q) (k : Z) :
  Qabs q < 2 ^ k -> (-1021 <= k)%Z ->
  Qabs (Double.round q - q) <= 2 ^ (k - 54).
Proof.
  intros Hk Hmin. destruct (Qeq_dec q 0) as [Hq | Hq].
  - rewrite (round_zero q Hq).
    assert (H0 : 0 - q == 0) by lra. rewrite H0.
    apply Qlt_le_weak, pow2_pos.
  - eapply Qle_trans; [apply round_near |].
    pose proof (exponent_below q k Hq Hk Hmin) as He.
    pose proof (pow2_le _ _ He) as Hle.
    pose proof (pow2_succ (k - 54)) as Hs.
    replace (k - 54 + 1)%Z with (k - 53)%Z in Hs by lia.
    lra.
Qed.

Lemma round_nonpos (q : Q) : q <= 0 -> Double.round q <= 0.
Proof.
  intros Hq. rewrite round_value.
  pose proof (pow2_pos (Double.exponent q)) as He.
  assert (Hm : inject_Z (Double.nearest_even (q / 2 ^ Double.exponent q)) <= 0).
  { change 0 with (inject_Z 0). rewrite <- Zle_Qle.
    rewrite <- (nearest_even_Z 0). apply nearest_even_mono.
    change (inject_Z 0) with 0. apply Qle_shift_div_r; [done | lra]. }
  nra.
Qed.

(** A number with at most 53 significant bits above the least exponent is
    a double: rounding leaves it alone. *)
Lemma round_fixed_lt (m e : Z) :
  (Z.abs m < 2 ^ 53)%Z -> (-1074 <= e)%Z ->
  Double.round (inject_Z m * 2 ^ e) == inject_Z m * 2 ^ e.
Proof.
  intros Hm He. destruct (Z.eq_dec m 0%Z) as [-> | Hm0].
  { rewrite round_zero; [| ring]. ring. }
  set (q := inject_Z m * 2 ^ e).
  pose proof (pow2_pos e) as Hpe.
  assert (Hq0 : ¬ q == 0).
  { subst q. intros H0. apply Qmult_integral in H0 as [H0 | H0]; [| lra].
    apply Hm0, inject_Z_injective. exact H0. }
  assert (Habs : Qabs q < 2 ^ (53 + e)).
  { subst q. rewrite Qabs_Qmult, (Qabs_pos (2 ^ e)) by lra.
    rewrite Qpower_plus by apply two_nonzero.
    apply Qmult_lt_compat_r; [done |].
    change (Qabs (inject_Z m)) with (inject_Z (Z.abs m)).
    change (2 ^ 53) with (inject_Z (2 ^ 53)%Z).
    by rewrite <- Zlt_Qlt. }
  assert (HE : (Double.exponent q <= e)%Z).
  { unfold Double.exponent.
    pose proof (ilog2_below (Qabs q) (53 + e) (Qabs_pos_lt q Hq0) Habs). lia. }
  rewrite round_value. set (E := Double.exponent q) in *.
  pose proof (pow2_pos E) as HpE.
  assert (Hint : q / 2 ^ E == inject_Z (m * 2 ^ (e - E))).
  { rewrite inject_Z_mult, pow2_inject by lia. subst q.
    replace e with (e - E + E)%Z at 1 by lia.
    rewrite Qpower_plus by apply two_nonzero. field. lra. }
  rewrite (nearest_even_compat _ _ Hint), nearest_even_Z.
  rewrite <- Hint. field. lra.
Qed.

Lemma round_fixed (m e : Z) :
  (Z.abs m <= 2 ^ 53)%Z -> (-1074 <= e)%Z ->
  Double.round (inject_Z m * 2 ^ e) == inject_Z m * 2 ^ e.
Proof.
  intros Hm He.
  destruct (Z_lt_le_dec (Z.abs m) (2 ^ 53)%Z) as [Hlt | Hge];
    [by apply round_fixed_lt |].
  assert (Hsgn : m = (Z.sgn m * 2 ^ 53)%Z) by lia.
  assert (Heq : inject_Z m * 2 ^ e == inject_Z (Z.sgn m) * 2 ^ (53 + e)).
  { rewrite Hsgn at 1. rewrite inject_Z_mult, Qpower_plus by apply two_nonzero.
    change (inject_Z (2 ^ 53)%Z) with (2 ^ 53). ring. }
  rewrite (round_compat _ _ Heq), Heq.
  apply round_fixed_lt; lia.
Qed.

Lemma round_Z (z : Z) :
  (Z.abs z <= 2 ^ 53)%Z -> Double.round (inject_Z z) == inject_Z z.
Proof.
  intros Hz.
  assert (Heq : inject_Z z == inject_Z z * 2 ^ 0) by (change (2 ^ 0) with 1; ring).
  rewrite (round_compat _ _ Heq), round_fixed by (done || lia).
  symmetry. exact Heq.
Qed.

(** The significand of a rounded number has at most 53 bits. *)
Lemma significand_bound (q : Q) :
  (Z.abs (Double.nearest_even (q / 2 ^ Double.exponent q)) <= 2 ^ 53)%Z.
Proof.
  set (E := Double.exponent q). pose proof (pow2_pos E) as HpE.
  assert (Hq : Qabs q <= 2 ^ (E + 53)).
  { destruct (Qeq_dec q 0) as [H0 | H0].
    - rewrite H0. change (Qabs 0) with 0. apply Qlt_le_weak, pow2_pos.
    - destruct (ilog2_spec (Qabs q) (Qabs_pos_lt q H0)) as [_ Hhi].
      apply Qlt_le_weak. eapply Qlt_le_trans; [exact Hhi |].
      apply pow2_le. subst E. unfold Double.exponent. lia. }
  rewrite Qpower_plus in Hq by apply two_nonzero.
  apply Qabs_Qle_condition in Hq as [Hlo Hhi].
  apply Z.abs_le. split.
  - rewrite <- (nearest_even_Z (- 2 ^ 53)%Z). apply nearest_even_mono.
    change (inject_Z (- 2 ^ 53)%Z) with (- 2 ^ 53).
    apply Qle_shift_div_l; [done |]. lra.
  - rewrite <- (nearest_even_Z (2 ^ 53)%Z). apply nearest_even_mono.
    change (inject_Z (2 ^ 53)%Z) with (2 ^ 53).
    apply Qle_shift_div_r; [done |]. lra.
Qed.

Lemma round_canonical (q : Q) : Qred (Double.round q) = Double.round q.
Proof.
  unfold Double.round. destruct (Qeq_bool q 0); [done |].
  cbv zeta. apply Qred_complete, Qred_correct.
Qed.

(** Rounding a second time changes nothing. *)
Lemma round_idempotent (q : Q) : Double.round (Double.round q) = Double.round q.
Proof.
  rewrite <- (round_canonical (Double.round q)).
  transitivity (Qred (Double.round q)); [| apply round_canonical].
  apply Qred_complete.
  rewrite (round_compat _ _ (round_value q)), (round_value q).
  apply round_fixed; [apply significand_bound | apply exponent_floor].
Qed.

End Fixed.

Section Symmetry.

#[local] Open Scope Q_scope.

Lemma Qfloor_unique (q : Q) (z : Z) :
  inject_Z z <= q -> q < inject_Z z + 1 -> Qfloor q = z.
Proof.
  intros Hlo Hhi.
  pose proof (Qfloor_le q) as Hf1. pose proof (Qlt_floor q) as Hf2.
  rewrite inject_Z_plus in Hf2. change (inject_Z 1) with 1 in Hf2.
  assert (H1 : inject_Z z < inject_Z (Qfloor q + 1)%Z).
  { rewrite inject_Z_plus. change (inject_Z 1) with 1. lra. }
  assert (H2 : inject_Z (Qfloor q) < inject_Z (z + 1)%Z).
  { rewrite inject_Z_plus. change (inject_Z 1) with 1. lra. }
  rewrite <- Zlt_Qlt in H1, H2. lia.
Qed.

(** Ties to even is symmetric about zero. *)
Lemma nearest_even_opp (q : Q) :
  Double.nearest_even (- q) = (- Double.nearest_even q)%Z.
Proof.
  pose proof (Qfloor_le q) as Hlo. pose proof (Qlt_floor q) as Hhi.
  rewrite inject_Z_plus in Hhi. change (inject_Z 1) with 1 in Hhi.
  destruct (Qeq_dec q (inject_Z (Qfloor q))) as [Hint | Hfrac].
  { assert (Hneg : - q == inject_Z (- Qfloor q)) by (rewrite inject_Z_opp; lra).
    rewrite (nearest_even_compat _ _ Hneg), (nearest_even_compat _ _ Hint).
    by rewrite !nearest_even_Z. }
  assert (Hf : Qfloor (- q) = (- Qfloor q - 1)%Z).
  { apply Qfloor_unique.
    - unfold Z.sub. rewrite inject_Z_plus, inject_Z_opp.
      change (inject_Z (- (1))) with (- (1)). lra.
    - unfold Z.sub. rewrite inject_Z_plus, inject_Z_opp.
      change (inject_Z (- (1))) with (- (1)). lra. }
  unfold Double.nearest_even. rewrite Hf.
  set (f := Qfloor q) in *.
  assert (Hr : - q - inject_Z (- f - 1) == 1 - (q - inject_Z f)).
  { unfold Z.sub. rewrite inject_Z_plus, inject_Z_opp.
    change (inject_Z (- (1))) with (- (1)). ring. }
  destruct (q - inject_Z f ?= 1 # 2) eqn:Hc.
  - apply Qeq_alt in Hc.
    assert (Hc' : (- q - inject_Z (- f - 1) ?= 1 # 2) = Eq).
    { apply Qeq_alt. lra. }
    rewrite Hc'.
    replace (- f - 1)%Z with (- (f + 1))%Z by lia.
    rewrite Z.even_opp, Z.even_add. change (Z.even 1) with false.
    destruct (Z.even f); cbn; lia.
  - apply Qlt_alt in Hc.
    assert (Hc' : (- q - inject_Z (- f - 1) ?= 1 # 2) = Gt).
    { apply Qgt_alt. lra. }
    rewrite Hc'. lia.
  - apply Qgt_alt in Hc.
    assert (Hc' : (- q - inject_Z (- f - 1) ?= 1 # 2) = Lt).
    { apply (proj1 (Qlt_alt _ _)). lra. }
    rewrite Hc'. lia.
Qed.

Lemma Qabs_opp_eq (q : Q) : Qabs (- q) = Qabs q.
Proof. destruct q as [n d]. unfold Qabs, Qopp. cbn. by rewrite Z.abs_opp. Qed.

(** Rounding is symmetric about zero. *)
Lemma round_opp (q : Q) : Double.round (- q) == - Double.round q.
Proof.
  rewrite (round_value (- q)), (round_value q).
  unfold Double.exponent. rewrite Qabs_opp_eq.
  fold (Double.exponent q). set (e := Double.exponent q).
  pose proof (pow2_pos e) as He.
  assert (Hm : - q / 2 ^ e == - (q / 2 ^ e)) by (field; lra).
  rewrite (nearest_even_compat _ _ Hm), nearest_even_opp, inject_Z_opp. ring.
Qed.

(** Rounding keeps the order. *)
Lemma round_mono (x y : Q) : x <= y -> Double.round x <= Double.round y.
Proof.
  intros Hxy. destruct (Qlt_le_dec x 0) as [Hx | Hx]; [| by apply round_mono_nonneg].
  destruct (Qlt_le_dec y 0) as [Hy | Hy].
  - assert (Hx' : x == - - x) by ring. assert (Hy' : y == - - y) by ring.
    rewrite (round_compat _ _ Hx'), (round_compat _ _ Hy').
    rewrite (round_opp (- x)), (round_opp (- y)).
    apply Qopp_le_compat, round_mono_nonneg; lra.
  - pose proof (round_nonpos x ltac:(lra)). pose proof (round_nonneg y Hy). lra.
Qed.

(** Rounding does not cross a power of two. *)
Lemma round_abs_le (q : Q) (k : Z) :
  Qabs q <= 2 ^ k -> (-1074 <= k)%Z -> Qabs (Double.round q) <= 2 ^ k.
Proof.
  intros Hq Hk. apply Qabs_Qle_condition in Hq as [Hlo Hhi].
  assert (Hfix : Double.round (2 ^ k) == 2 ^ k).
  { assert (Heq : 2 ^ k == inject_Z 1 * 2 ^ k) by (change (inject_Z 1) with 1; ring).
    rewrite (round_compat _ _ Heq), round_fixed by (done || lia).
    symmetry. exact Heq. }
  apply Qabs_Qle_condition. split.
  - rewrite <- Hfix, <- round_opp. by apply round_mono.
  - rewrite <- Hfix. by apply round_mono.
Qed.

End Symmetry.

(** On small integers [Double] computes what the Standard Library's
    specification of IEEE 754 computes: the depth [a / b * 100] for every
    offset [a] from -5 to 44 over every range [b] from 1 to 40, and the
    velocity [(a - 7) / b * 1000] for the same [a] and [b]. *)
Example agrees_with_IEEE :
  forallb (λ a, forallb (λ b, IEEE.agrees a 0 b 100 && IEEE.agrees a 7 b 1000)
                  (seqZ 1 40))
    (seqZ (-5) 50) = true.
Proof. by vm_compute. Qed.

(** The roundings at work: 115 pixels of a range of 800 are a depth just
    below 14.375, printed as 14.37; 323 pixels in 320 ms are recorded as
    1009.37 pixels per second; and the double the decimal 0.13 is read as is
    more than half a hundredth away from 0.125. *)
Example double_arithmetic :
  Double.mul (Double.div 115 800) 100 = (8092405580431359 # 2 ^ 49)%Q
  ∧ (Double.mul (Double.div 115 800) 100 < 14375 # 1000)%Q
  ∧ JS.toFixed2 (Double.mul (Double.div 115 800) 100) = "14.37"
  ∧ Double.mul (Double.div 323 320) 1000 = (8878556394291199 # 2 ^ 43)%Q
  ∧ JS.Number_toFixed2 (Double.mul (Double.div 323 320) 1000)
    = Double.round (100937 # 100)
  ∧ JS.Number_toFixed2 (1 # 8) = Double.round (13 # 100)
  ∧ (1 # 200 < JS.Number_toFixed2 (1 # 8) - (1 # 8))%Q.
Proof. by vm_compute. Qed.


(** ** Metrics extractor *)

Section Clamp.

Lemma min_max_is_clamp (x : Q) : Qmin 100 (Qmax 0 x) == spec_clamp 0 100 x.
Proof.
  unfold spec_clamp.
  destruct (Qlt_le_dec x 0) as [Hneg | Hpos].
  - rewrite (Q.max_l 0 x) by lra. rewrite Q.min_r by lra. reflexivity.
  - rewrite (Q.max_r 0 x) by lra.
    destruct (Qlt_le_dec 100 x) as [Hbig | Hsmall].
    + rewrite Q.min_l by lra. reflexivity.
    + rewrite Q.min_r by lra. reflexivity.
Qed.

Lemma spec_clamp_bounds (lo hi x : Q) :
  (lo <= hi -> lo <= spec_clamp lo hi x <= hi)%Q.
Proof.
  intros Hlh. unfold spec_clamp.
  destruct (Qlt_le_dec x lo); [lra |].
  destruct (Qlt_le_dec hi x); lra.
Qed.

Lemma spec_clamp_compat (lo hi x y : Q) :
  x == y -> spec_clamp lo hi x == spec_clamp lo hi y.
Proof.
  intros Hxy. unfold spec_clamp.
  destruct (Qlt_le_dec x lo), (Qlt_le_dec y lo); try lra;
    destruct (Qlt_le_dec hi x), (Qlt_le_dec hi y); lra.
Qed.

(** The clamp brings two numbers no further apart. *)
Lemma spec_clamp_near (lo hi x y eps : Q) :
  (lo <= hi -> x - eps <= y <= x + eps ->
   spec_clamp lo hi x - eps <= spec_clamp lo hi y <= spec_clamp lo hi x + eps)%Q.
Proof.
  intros Hlh [Hlo Hhi]. unfold spec_clamp.
  destruct (Qlt_le_dec x lo), (Qlt_le_dec y lo);
    destruct (Qlt_le_dec hi x), (Qlt_le_dec hi y); lra.
Qed.

End Clamp.

Lemma inject_Z_pos_nonzero (z : Z) : 1 ≤ z → ¬ (inject_Z z == 0)%Q.
Proof. intros Hz H0. unfold Qeq in H0. simpl in H0. lia. Qed.

Lemma depthPct_bounds (d : ScrollDom) :
  (0 <= depthPct (getScrollMetrics d) <= 100)%Q.
Proof.
  cbn [getScrollMetrics depthPct].
  rewrite min_max_is_clamp. apply spec_clamp_bounds. lra.
Qed.

Section Accuracy.

#[local] Open Scope Q_scope.

(** The quotient of the code, rounded after the division and again after
    the multiplication, against the exact one: once both are clamped they
    differ by less than six parts in 10^14. *)
Lemma depth_accuracy (v : Q) :
  Qabs (spec_clamp 0 100 (Double.mul (Double.round v) 100)
        - spec_clamp 0 100 (v * 100)) <= 1 # 2 ^ 44.
Proof.
  unfold Double.mul. set (c1 := Double.round v).
  set (c2 := Double.round (c1 * 100)).
  apply Qabs_diff_Qle_condition.
  change (1 # 2 ^ 44) with (1 # 17592186044416).
  destruct (Qlt_le_dec 0 v) as [Hpos | Hneg].
  2:{ (* nothing was scrolled, or upwards: both are 0 *)
      pose proof (round_nonpos v Hneg) as H1. fold c1 in H1.
      assert (H2 : c2 <= 0) by (apply round_nonpos; lra).
      unfold spec_clamp.
      destruct (Qlt_le_dec c2 0), (Qlt_le_dec (v * 100) 0);
        destruct (Qlt_le_dec 100 c2), (Qlt_le_dec 100 (v * 100)); lra. }
  destruct (Qlt_le_dec 2 v) as [Hbig | Hsmall].
  { (* beyond twice the range: both are 100 *)
    assert (H1 : 2 <= c1).
    { assert (Htwo : Double.round 2 == 2) by (by vm_compute).
      rewrite <- Htwo. apply round_mono. lra. }
    assert (H2 : 200 <= c2).
    { assert (Htwo : Double.round 200 == 200) by (by vm_compute).
      rewrite <- Htwo. apply round_mono. lra. }
    unfold spec_clamp.
    destruct (Qlt_le_dec c2 0), (Qlt_le_dec (v * 100) 0);
      destruct (Qlt_le_dec 100 c2), (Qlt_le_dec 100 (v * 100)); lra. }
  (* in between, each rounding moves the number by half a unit in the last
     place: of the doubles below 4, and then of the doubles below 256 *)
  assert (Hv : Qabs v < 2 ^ 2).
  { apply Qabs_Qlt_condition. change (2 ^ 2) with 4. lra. }
  pose proof (round_near_below v 2 Hv ltac:(lia)) as Hn1. fold c1 in Hn1.
  change (2 ^ (2 - 54)) with (1 # 4503599627370496) in Hn1.
  apply Qabs_diff_Qle_condition in Hn1 as [Hlo1 Hhi1].
  assert (Hc : Qabs (c1 * 100) < 2 ^ 8).
  { apply Qabs_Qlt_condition. change (2 ^ 8) with 256. lra. }
  pose proof (round_near_below (c1 * 100) 8 Hc ltac:(lia)) as Hn2. fold c2 in Hn2.
  change (2 ^ (8 - 54)) with (1 # 70368744177664) in Hn2.
  apply Qabs_diff_Qle_condition in Hn2 as [Hlo2 Hhi2].
  apply spec_clamp_near; lra.
Qed.

End Accuracy.

(** C5.  Whatever the document reports, [getScrollMetrics] returns as
    [scrollTop] the first non-zero of the scroll offsets of the root element
    and of the body (0 if both are zero), as [scrollHeight] and
    [clientHeight] the largest of the two heights read and 1, and as
    [depthPct] the clamp to [0, 100] of [scrollTop / max(scrollHeight -
    clientHeight, 1) * 100], the quotient and the product each rounded to a
    double; this is within [2 ^ -44] of the clamp of the same expression
    evaluated exactly.  The denominator is at least 1, hence never zero;
    the depth lies in the closed interval [0, 100]; and when [scrollHeight]
    equals [clientHeight] the denominator is exactly 1. *)
Theorem getScrollMetrics_depthPct (d : ScrollDom) :
  let top :=
    if Qeq_bool (root_scrollTop d) 0
    then if Qeq_bool (body_scrollTop d) 0 then 0%Q else body_scrollTop d
    else root_scrollTop d in
  let height := Z.max (Z.max (root_scrollHeight d) (body_scrollHeight d)) 1 in
  let client := Z.max (Z.max (root_clientHeight d) (innerHeight d)) 1 in
  let range := Z.max (height - client) 1 in
  let m := getScrollMetrics d in
  scrollTop m = top
  ∧ scrollHeight m = height
  ∧ clientHeight m = client
  ∧ maxScrollable m = range
  ∧ depthPct m ==
      spec_clamp 0 100 (Double.mul (Double.div top (inject_Z range)) 100)
  ∧ (Qabs (depthPct m - spec_clamp 0 100 (top / inject_Z range * 100))
     <= 1 # 2 ^ 44)%Q
  ∧ 1 ≤ range
  ∧ ¬ (inject_Z range == 0)%Q
  ∧ (0 <= depthPct m <= 100)%Q
  ∧ (height = client →
     range = 1
     ∧ depthPct m == spec_clamp 0 100 (Double.mul (Double.round top) 100)
     ∧ (0 <= depthPct m <= 100)%Q).
Proof.
  intros top height client range m.
  assert (Hden : 1 ≤ range) by (subst range; lia).
  assert (Hdepth : depthPct m ==
            spec_clamp 0 100 (Double.mul (Double.div top (inject_Z range)) 100))
    by apply min_max_is_clamp.
  split; [reflexivity |]. split; [reflexivity |]. split; [reflexivity |].
  split; [reflexivity |]. split; [exact Hdepth |].
  split; [rewrite Hdepth; apply depth_accuracy |].
  split; [exact Hden |].
  split; [apply inject_Z_pos_nonzero, Hden |].
  split; [apply depthPct_bounds |].
  intros Heq.
  assert (Hone : range = 1) by (subst range; lia).
  split; [exact Hone |].
  split; [| apply depthPct_bounds].
  rewrite Hdepth, Hone. unfold Double.div.
  assert (Hq : (top / inject_Z 1 == top)%Q) by (change (inject_Z 1) with 1%Q; field).
  by rewrite (round_compat _ _ Hq).
Qed.

Lemma getScrollMetrics_depthPct_witness :
  scrollTop (getScrollMetrics degenerate_dom) = (35 # 2)%Q
  ∧ maxScrollable (getScrollMetrics degenerate_dom) = 1
  ∧ (depthPct (getScrollMetrics degenerate_dom) == 100)%Q
  ∧ (0 <= depthPct (getScrollMetrics degenerate_dom) <= 100)%Q.
Proof.
  destruct (getScrollMetrics_depthPct degenerate_dom)
    as (Htop & _ & _ & Hrange & _ & _ & _ & _ & _ & Hdeg).
  destruct (Hdeg eq_refl) as (Hone & Hdepth & Hbounds).
  split; [exact Htop |]. split; [by rewrite Hrange |].
  split; [rewrite Hdepth; by vm_compute | exact Hbounds].
Defined.

Section TargetMeta.

Lemma slice0_length (n : nat) (s : string) :
  (String.length (JS.slice0 n s) ≤ n)%nat.
Proof.
  revert s. induction n as [| n IH]; intros [| c rest]; cbn; try lia.
  specialize (IH rest). lia.
Qed.

(** Cutting a collapsed string leaves it collapsed. *)
Lemma slice0_collapsed (n : nat) (s : string) (p : bool) :
  collapsed_from p s = true → collapsed_from p (JS.slice0 n s) = true.
Proof.
  revert s p. induction n as [| n IH]; intros [| c rest] p; cbn; try done.
  destruct (JS.is_ws c).
  - rewrite !andb_true_iff. intros [Hc Hrest]. split; [done |]. by apply IH.
  - apply IH.
Qed.

(** The output of the replacement is collapsed; when it continues a run,
    the space of that run may already stand before it. *)
Lemma replace_ws_from_collapsed (s : string) (in_run p : bool) :
  (p = true → in_run = true) →
  collapsed_from p (JS.replace_ws_from in_run s) = true.
Proof.
  revert in_run p. induction s as [| c rest IH]; intros in_run p Hp; [done |].
  cbn [JS.replace_ws_from].
  destruct (JS.is_ws c) eqn:Hc.
  - destruct in_run.
    + by apply IH.
    + cbn [collapsed_from]. change (JS.is_ws " ") with true. cbv iota.
      destruct p; [by specialize (Hp eq_refl) |].
      cbn. by apply IH.
  - cbn [collapsed_from]. rewrite Hc. by apply IH.
Qed.

(** The replacement touches white space only. *)
Lemma replace_ws_from_visible (s : string) (in_run : bool) :
  visible (JS.replace_ws_from in_run s) = visible s.
Proof.
  revert in_run. induction s as [| c rest IH]; intros in_run; [done |].
  cbn [JS.replace_ws_from visible].
  destruct (JS.is_ws c) eqn:Hc.
  - destruct in_run; [apply IH |].
    cbn [visible]. change (JS.is_ws " ") with true. cbv iota. apply IH.
  - cbn [visible]. rewrite Hc. f_equal. apply IH.
Qed.

Lemma extractTargetMeta_no_element (target : EventTarget) :
  is_element target = false → extractTargetMeta target = default_target_meta.
Proof. destruct target; [reflexivity | reflexivity | discriminate]. Qed.

End TargetMeta.

(** C9.  [extractTargetMeta] is a total function of its target, [null] and
    non-elements included (its only recursion, [closest], descends the
    finite chain of ancestors).  Its class name has at most 120 code units;
    its text sample has at most 50 and is white-space collapsed; and for a
    target that is no element it returns the defaults: action ['dom_click'],
    no target id, and the empty string for tag, class name and text
    sample. *)
Theorem extractTargetMeta_total (target : EventTarget) :
  let m := extractTargetMeta target in
  (String.length (tm_className m) ≤ 120)%nat
  ∧ (String.length (tm_textSample m) ≤ 50)%nat
  ∧ ws_collapsed (tm_textSample m) = true
  ∧ (is_element target = false →
     tm_action m = "dom_click" ∧ tm_targetId m = None ∧ tm_tag m = ""
     ∧ tm_className m = "" ∧ tm_textSample m = "").
Proof.
  intros m. repeat split.
  - apply slice0_length.
  - apply slice0_length.
  - apply slice0_collapsed, replace_ws_from_collapsed. discriminate.
  - subst m. by rewrite extractTargetMeta_no_element.
  - subst m. by rewrite extractTargetMeta_no_element.
  - subst m. by rewrite extractTargetMeta_no_element.
  - subst m. by rewrite extractTargetMeta_no_element.
  - subst m. by rewrite extractTargetMeta_no_element.
Qed.

Lemma extractTargetMeta_total_witness :
  let m := extractTargetMeta TargetOther in
  tm_action m = "dom_click" ∧ tm_targetId m = None ∧ tm_tag m = ""
  ∧ tm_className m = "" ∧ tm_textSample m = "".
Proof.
  destruct (extractTargetMeta_total TargetOther) as (_ & _ & _ & Hdefault).
  apply Hdefault. reflexivity.
Defined.

(** On an element inside a tracked card the action, the id and the text
    come from the card. *)
Example extractTargetMeta_tracked :
  extractTargetMeta (TargetElement inner_span) =
  {| tm_action := "aigs_card"; tm_targetId := Some "card-7";
     tm_tag := "section"; tm_className := "bg-white px-4 py-3";
     tm_textSample := "AI summary of the topic" |}.
Proof. reflexivity. Qed.

(** ** The event loop *)

Section Machine.

Implicit Types (L : Logger) (env : Env) (ev : Event) (p : Partial).

Lemma same_core_refl L : same_core L L.
Proof. by repeat split. Qed.

(** Every turn of the event loop is one of six things: nothing, one
    [push] after updates of refs that the queue does not depend on, a
    [flush], the continuation of a [flush], the unload guard, or the
    cleanup. *)
Lemma keeps_defaults_intro p :
  (∀ k, k ∈ ["visibility"; "age"; "occupation"] →
        default ∅ (p_meta p) !! k = None) →
  keeps_defaults p.
Proof. intros Hk. repeat split; apply Hk; set_solver. Qed.

Lemma step_cases env ev L :
  step env ev L = (L, [])
  ∨ (∃ p L1, same_core L L1 ∧ keeps_defaults p
             ∧ step env ev L = push env p L1)
  ∨ step env ev L = flush L
  ∨ (∃ i o, ev = Settle i o ∧ step env ev L = (flush_resume i o L, []))
  ∨ (∃ b, ev = Unload b ∧ step env ev L = handleUnload env L)
  ∨ step env ev L = cleanup env L.
Proof.
  destruct ev; cbn [step]; try destruct (listening L); auto;
    try destruct changed; try destruct target; auto 7;
    try (right; left; eexists _, _;
         split; [| split; [| reflexivity]];
         [by repeat split | keeps_defaults_tac]).
  - right; left. unfold onVisibilityChange.
    eexists _, _. split; [| split; [| reflexivity]]; [| keeps_defaults_tac].
    destruct (String.eqb _ _); by repeat split.
  - right; right; right; left. eauto.
  - right; right; right; left. eauto.
  - right; right; right; right; left. eauto.
Qed.

Lemma seqZ_sorted (m n : Z) : StronglySorted Z.lt (seqZ m n).
Proof.
  destruct (decide (n ≤ 0)) as [Hn | Hn]; [rewrite seqZ_nil by done; constructor |].
  rewrite <- (Z2Nat.id n) by lia. generalize (Z.to_nat n) as k. clear.
  intros k. revert m. induction k as [| k IH]; intros m; [constructor |].
  rewrite seqZ_cons by lia.
  replace (Z.pred (Z.of_nat (S k))) with (Z.of_nat k) by lia.
  constructor; [apply IH |]. apply Forall_seqZ. lia.
Qed.

Lemma created_app (a b : list Effect) : created (a ++ b) = created a ++ created b.
Proof. apply omap_app. Qed.

Lemma sends_app (a b : list Effect) : sends (a ++ b) = sends a ++ sends b.
Proof. apply omap_app. Qed.

Lemma sendEvents_created (events : list EventPayload) :
  created (sendEvents events) = [].
Proof. by destruct events. Qed.

Lemma flush_created L : created (flush L).2 = [].
Proof.
  unfold flush. destruct (flushingRef L); [done |].
  destruct (queueRef L); [done |]. apply sendEvents_created.
Qed.

Lemma flush_seqRef L : seqRef (flush L).1 = seqRef L.
Proof.
  unfold flush. destruct (flushingRef L); [done |].
  by destruct (queueRef L).
Qed.

Lemma flush_resume_seqRef i o L : seqRef (flush_resume i o L) = seqRef L.
Proof.
  unfold flush_resume. destruct (pending L !! i); [| done].
  by destruct (sendEvents_fulfilled o).
Qed.

Lemma cleanup_eq env L :
  cleanup env L =
  ((flush (set_listening false (push env (exit_partial env L) L).1)).1,
   (push env (exit_partial env L) L).2
     ++ (flush (set_listening false (push env (exit_partial env L) L).1)).2).
Proof.
  unfold cleanup. destruct (push _ _ _) as [L1 c]. cbn [fst snd].
  by destruct (flush _).
Qed.

(** A turn constructs no record and leaves the counter, or constructs one
    record, numbered by the counter's next value. *)
Lemma step_created env ev L :
  (created (step env ev L).2 = [] ∧ seqRef (step env ev L).1 = seqRef L)
  ∨ (∃ r, created (step env ev L).2 = [r] ∧ seq r = seqRef L + 1
          ∧ seqRef (step env ev L).1 = seqRef L + 1).
Proof.
  destruct (step_cases env ev L)
    as [-> | [(p & L1 & Hcore & _ & ->) | [-> | [(i & o & _ & ->) | [(b & _ & ->) | ->]]]]].
  - by left.
  - right. eexists. split; [reflexivity |].
    destruct Hcore as (Hseq & _). cbn. by rewrite Hseq.
  - left. split; [apply flush_created | apply flush_seqRef].
  - left. split; [done | apply flush_resume_seqRef].
  - right. eexists. by split; [reflexivity |].
  - right. rewrite cleanup_eq. cbn [fst snd].
    rewrite created_app, flush_created, flush_seqRef.
    eexists. by split; [reflexivity |].
Qed.

Lemma run_cons env ev (rest : list (Env * Event)) L :
  run ((env, ev) :: rest) L =
  ((run rest (step env ev L).1).1,
   (step env ev L).2 ++ (run rest (step env ev L).1).2).
Proof.
  cbn [run]. destruct (step env ev L) as [L1 effs1]. cbn [fst snd].
  by destruct (run rest L1).
Qed.

Lemma run_app (t1 t2 : list (Env * Event)) L :
  run (t1 ++ t2) L =
  ((run t2 (run t1 L).1).1, (run t1 L).2 ++ (run t2 (run t1 L).1).2).
Proof.
  revert L. induction t1 as [| [env ev] t1 IH]; intros L.
  - cbn. by destruct (run t2 L).
  - rewrite <- app_comm_cons, !run_cons, IH. cbn [fst snd].
    by rewrite app_assoc.
Qed.

(** The records of a run are numbered consecutively from the counter's
    next value, and the counter ends on the last number. *)
Lemma run_created (trace : list (Env * Event)) L :
  seq <$> created (run trace L).2
    = seqZ (seqRef L + 1) (Z.of_nat (length (created (run trace L).2)))
  ∧ seqRef (run trace L).1
    = seqRef L + Z.of_nat (length (created (run trace L).2)).
Proof.
  revert L. induction trace as [| [env ev] rest IH]; intros L.
  - cbn. split; [done | lia].
  - rewrite run_cons. cbn [fst snd]. rewrite created_app, fmap_app, length_app.
    destruct (IH (step env ev L).1) as [IHseq IHref].
    rewrite IHseq, IHref.
    destruct (step_created env ev L) as [[Hnil Hsame] | (r & Hone & Hr & Hnext)].
    + rewrite Hnil, Hsame. cbn. split; [done | lia].
    + rewrite Hone, Hnext. cbn [fmap list_fmap length app].
      rewrite Hr. split; [| lia].
      rewrite Nat2Z.inj_add. change (Z.of_nat 1) with 1.
      rewrite seqZ_app by lia. cbn. do 2 f_equal. 
  Qed.

End Machine.

(** C1.  From the first render of an instance on, through any sequence of
    events, timer ticks, settled sends, unloads, cleanups and effect setups,
    the records constructed (by [push] and by the unload guard alike) carry,
    in the order of their construction, the numbers 1, 2, ..., N' with no
    gap and no repetition, and the counter ends on N'. *)
Theorem seq_consecutive (storage : gmap string string) (renv : RenderEnv)
    (cfg : LoggerConfig) (trace : list (Env * Event)) :
  let L0 := (useExperimentLogger storage renv cfg).2 in
  let records := created (run trace L0).2 in
  seq <$> records = seqZ 1 (Z.of_nat (length records))
  ∧ NoDup (seq <$> records)
  ∧ StronglySorted Z.lt (seq <$> records)
  ∧ seqRef (run trace L0).1 = Z.of_nat (length records).
Proof.
  intros L0 records.
  assert (Hzero : seqRef L0 = 0).
  { subst L0. unfold useExperimentLogger. by destruct (resolve_session _ _). }
  destruct (run_created trace L0) as [Hseq Href].
  rewrite Hzero in Hseq, Href. cbn in Hseq, Href. fold records in Hseq, Href.
  split; [exact Hseq |]. split; [| split; [| exact Href]].
  - rewrite Hseq. apply NoDup_seqZ.
  - rewrite Hseq. apply seqZ_sorted.
Qed.

(** ** The invariant of the queue *)

Section Invariant.

Implicit Types (L : Logger) (env : Env) (ev : Event) (p : Partial).

Lemma wf_render storage renv cfg : wf (useExperimentLogger storage renv cfg).2.
Proof.
  unfold useExperimentLogger. destruct (resolve_session _ _) as [st sid].
  split; cbn; [by left | constructor | constructor].
Qed.

Lemma wf_same_core L L1 : same_core L L1 → wf L → wf L1.
Proof.
  intros (Hseq & Hq & Hp & Hf & _) [Hsingle Hsorted Hbound].
  split; unfold waiting in *; rewrite ?Hseq, ?Hq, ?Hp, ?Hf; done.
Qed.

Lemma waiting_push env p L :
  waiting (push env p L).1 = waiting L ++ [make_record env p L].
Proof. unfold waiting. cbn. by rewrite app_assoc. Qed.

Lemma wf_push env p L : wf L → wf (push env p L).1.
Proof.
  intros [Hsingle Hsorted Hbound]. split.
  - exact Hsingle.
  - rewrite waiting_push, fmap_app. apply StronglySorted_app_2; [| done |].
    + intros x1 x2 Hx1 ->%list_elem_of_singleton.
      apply list_elem_of_fmap in Hx1 as (r & -> & Hr).
      rewrite Forall_forall in Hbound. specialize (Hbound r Hr). cbn. lia.
    + repeat constructor.
  - rewrite waiting_push. apply Forall_app. split.
    + eapply Forall_impl; [exact Hbound |]. cbn. intros; lia.
    + constructor; [cbn; lia | constructor].
Qed.

Lemma wf_flush L : wf L → wf (flush L).1.
Proof.
  intros HL. unfold flush. destruct (flushingRef L) eqn:Hflag; [done |].
  destruct HL as [Hsingle Hsorted Hbound].
  destruct Hsingle as [[_ Hnone] | [Hbusy _]]; [| congruence].
  destruct (queueRef L) as [| r batch] eqn:Hqueue.
  - split; unfold waiting in *; cbn; rewrite ?Hqueue in *; auto.
  - split; unfold waiting in *; cbn; rewrite Hnone in *; cbn in *.
    + right. split; [done |]. by eexists.
    + rewrite !app_nil_r. by rewrite Hqueue in Hsorted.
    + rewrite !app_nil_r. by rewrite Hqueue in Hbound.
Qed.

Lemma wf_flush_resume i o L : wf L → wf (flush_resume i o L).
Proof.
  intros HL. unfold flush_resume.
  destruct (pending L !! i) as [batch |] eqn:Hi; [| done].
  destruct HL as [Hsingle Hsorted Hbound].
  destruct Hsingle as [[_ Hnone] | [_ (b & Hone & _)]];
    [by rewrite Hnone in Hi |].
  rewrite Hone in Hi. destruct i as [| i]; [| done].
  injection Hi as <-. unfold waiting in *. rewrite Hone in *.
  cbn in Hsorted, Hbound. rewrite app_nil_r in Hsorted, Hbound.
  destruct (sendEvents_fulfilled o); split; cbn; auto.
  - rewrite fmap_app in Hsorted. by apply StronglySorted_app_1_r in Hsorted.
  - by apply Forall_app in Hbound as [_ ?].
Qed.

Lemma wf_handleUnload env L : wf L → wf (handleUnload env L).1.
Proof.
  intros [Hsingle Hsorted Hbound]. unfold waiting in *. split; cbn.
  - exact Hsingle.
  - unfold waiting. cbn. rewrite app_nil_r.
    rewrite fmap_app in Hsorted. by apply StronglySorted_app_1_l in Hsorted.
  - unfold waiting. cbn. rewrite app_nil_r.
    apply Forall_app in Hbound as [Hbound _].
    eapply Forall_impl; [exact Hbound |]. cbn. intros; lia.
Qed.

Lemma wf_cleanup env L : wf L → wf (cleanup env L).1.
Proof.
  intros HL. rewrite cleanup_eq. cbn [fst].
  apply wf_flush. eapply wf_same_core; [| by apply (wf_push env), HL].
  by repeat split.
Qed.

Lemma wf_step env ev L : wf L → wf (step env ev L).1.
Proof.
  intros HL.
  destruct (step_cases env ev L)
    as [-> | [(p & L1 & Hcore & _ & ->) | [-> | [(i & o & _ & ->) | [(b & _ & ->) | ->]]]]].
  - done.
  - by apply wf_push, (wf_same_core L).
  - by apply wf_flush.
  - by apply wf_flush_resume.
  - by apply wf_handleUnload.
  - by apply wf_cleanup.
Qed.

Lemma wf_run (trace : list (Env * Event)) L : wf L → wf (run trace L).1.
Proof.
  revert L. induction trace as [| [env ev] rest IH]; intros L HL; [done |].
  rewrite run_cons. cbn [fst]. by apply IH, wf_step.
Qed.

Lemma reachable_wf L : reachable L → wf L.
Proof.
  induction 1 as [storage renv cfg | env ev L _ IH];
    [apply wf_render | by apply wf_step].
Qed.

Lemma reachable_run (trace : list (Env * Event)) L :
  reachable L → reachable (run trace L).1.
Proof.
  revert L. induction trace as [| [env ev] rest IH]; intros L HL; [done |].
  rewrite run_cons. cbn [fst]. by apply IH, reachable_step.
Qed.

End Invariant.

(** ** Flush scheduler *)

Section Flush.

Implicit Types (L : Logger) (env : Env) (ev : Event).

Lemma two_queued_reachable : reachable two_queued.
Proof. apply reachable_run, reachable_render. Qed.

Lemma one_in_flight_reachable : reachable one_in_flight.
Proof. apply reachable_run, two_queued_reachable. Qed.

Lemma two_queued_seqs : seq <$> queueRef two_queued = [1; 2].
Proof. by vm_compute. Qed.

Lemma two_queued_nonempty : queueRef two_queued ≠ [].
Proof. intros Hnil. pose proof two_queued_seqs as H. by rewrite Hnil in H. Qed.

Lemma one_in_flight_pending : pending one_in_flight = [queueRef two_queued].
Proof. by vm_compute. Qed.

Lemma one_in_flight_seqs : seq <$> queueRef one_in_flight = [3].
Proof. by vm_compute. Qed.

Lemma flush_busy L : flushingRef L = true → flush L = (L, []).
Proof. intros Hbusy. unfold flush. by rewrite Hbusy. Qed.

(** In a well-formed state the only send that can end is the one in
    flight, and it is the first. *)
Lemma pending_lookup L i batch :
  wf L → pending L !! i = Some batch →
  i = 0%nat ∧ pending L = [batch] ∧ batch ≠ [] ∧ flushingRef L = true.
Proof.
  intros [Hsingle _ _] Hi.
  destruct Hsingle as [[_ Hnone] | [Hbusy (b & Hone & Hne)]].
  - by rewrite Hnone in Hi.
  - rewrite Hone in Hi. destruct i as [| i]; [| done].
    injection Hi as <-. done.
Qed.

Lemma flush_resume_rejected L batch reason :
  pending L = [batch] →
  flush_resume 0 (Rejected reason) L
  = set_flushing false (set_queue (batch ++ queueRef L) (set_pending [] L)).
Proof. intros Hone. unfold flush_resume. by rewrite Hone. Qed.

Lemma flush_resume_responded L batch status :
  pending L = [batch] →
  flush_resume 0 (Responded status) L
  = set_flushing false (set_pending [] L).
Proof. intros Hone. unfold flush_resume. by rewrite Hone. Qed.

Lemma responded_drops L env batch status :
  pending L = [batch] →
  queueRef (step env (Settle 0 (Responded status)) L).1 = queueRef L
  ∧ waiting (step env (Settle 0 (Responded status)) L).1 = queueRef L.
Proof.
  intros Hone. cbn [step fst]. by rewrite (flush_resume_responded L batch).
Qed.

End Flush.

(** C6.  In every reachable state at most one send is in flight; and while
    one is, the flag is up and a tick of the flush timer changes nothing
    and sends nothing: it neither drains the queue nor starts a second
    send.  The same holds for the [flush] that the cleanup starts. *)
Theorem single_flight (L : Logger) (env : Env) :
  reachable L →
  (length (pending L) ≤ 1)%nat
  ∧ (pending L ≠ [] →
     flushingRef L = true
     ∧ step env FlushTick L = (L, [])
     ∧ flush L = (L, [])).
Proof.
  intros HL%reachable_wf. destruct HL as [Hsingle _ _].
  destruct Hsingle as [[_ Hnone] | [Hbusy (b & Hone & _)]].
  - rewrite Hnone. split; [cbn; lia | done].
  - rewrite Hone. split; [cbn; lia |]. intros _.
    split; [done |]. split; [| by apply flush_busy].
    cbn [step]. destruct (listening L); [by apply flush_busy | done].
Qed.

Lemma single_flight_witness :
  flushingRef one_in_flight = true
  ∧ step (browser_at 800 500) FlushTick one_in_flight = (one_in_flight, [])
  ∧ flush one_in_flight = (one_in_flight, []).
Proof.
  apply (single_flight one_in_flight (browser_at 800 500)).
  - apply one_in_flight_reachable.
  - by rewrite one_in_flight_pending.
Defined.

(** C2, as the code has it.  When the request of a batch in flight is
    rejected (a network error or any thrown exception), the whole batch
    goes back in front of the queue, the queue stays ordered by [seq], and
    the flag is lowered.  When the request is answered, whatever the HTTP
    status, the send counts as done: the queue is left as it is and the
    batch is in no queue any more. *)
Theorem flush_failure_requeues (L : Logger) (env : Env) (i : nat)
    (batch : list EventPayload) :
  reachable L →
  pending L !! i = Some batch →
  batch ≠ []
  ∧ (∀ reason,
       let L' := (step env (Settle i (Rejected reason)) L).1 in
       queueRef L' = batch ++ queueRef L
       ∧ StronglySorted Z.lt (seq <$> queueRef L')
       ∧ pending L' = [] ∧ flushingRef L' = false)
  ∧ (∀ status,
       let L' := (step env (Settle i (Responded status)) L).1 in
       queueRef L' = queueRef L
       ∧ pending L' = [] ∧ flushingRef L' = false).
Proof.
  intros HL%reachable_wf Hi.
  destruct (pending_lookup L i batch HL Hi) as (-> & Hone & Hne & Hbusy).
  split; [exact Hne |]. split.
  - intros reason L'. subst L'. cbn [step fst].
    rewrite (flush_resume_rejected L batch) by done. cbn.
    repeat split.
    pose proof (wf_sorted L HL) as Hsorted. unfold waiting in Hsorted.
    rewrite Hone in Hsorted. cbn in Hsorted. by rewrite app_nil_r in Hsorted.
  - intros status L'. subst L'. cbn [step fst].
    rewrite (flush_resume_responded L batch) by done. by cbn.
Qed.

Lemma flush_failure_requeues_witness :
  queueRef two_queued ≠ []
  ∧ queueRef (step (browser_at 460 500)
                (Settle 0 (Rejected "TypeError: Failed to fetch"))
                one_in_flight).1
    = queueRef two_queued ++ queueRef one_in_flight.
Proof.
  destruct (flush_failure_requeues one_in_flight (browser_at 460 500) 0%nat
              (queueRef two_queued))
    as (Hne & Hrej & _);
    [apply one_in_flight_reachable | by rewrite one_in_flight_pending |].
  split; [exact Hne |]. apply (Hrej "TypeError: Failed to fetch").
Defined.

(** C2, as the specification states it, fails on a response that is not a
    success: a batch whose request is answered with status 500 is not put
    back, and is lost. *)
Lemma flush_server_error_drops_batch :
  let batch := queueRef two_queued in
  let L' := (step (browser_at 460 500) (Settle 0 (Responded 500))
               one_in_flight).1 in
  reachable one_in_flight
  ∧ pending one_in_flight !! 0%nat = Some batch
  ∧ batch ≠ []
  ∧ spec_delivery_failed (Responded 500) = true
  ∧ queueRef L' ≠ batch ++ queueRef one_in_flight
  ∧ Forall (λ r, seq r ∉ seq <$> waiting L') batch.
Proof.
  cbv zeta.
  destruct (responded_drops one_in_flight (browser_at 460 500)
              (queueRef two_queued) 500 one_in_flight_pending) as [-> ->].
  split; [apply one_in_flight_reachable |].
  split; [by rewrite one_in_flight_pending |].
  split; [apply two_queued_nonempty |].
  split; [reflexivity |].
  split.
  - intros Heq. apply (f_equal (fmap seq)) in Heq.
    rewrite fmap_app, one_in_flight_seqs, two_queued_seqs in Heq. discriminate.
  - apply (proj1 (Forall_fmap seq (λ s, s ∉ seq <$> queueRef one_in_flight) _)).
    rewrite one_in_flight_seqs, two_queued_seqs.
    repeat constructor; cbn; intros Hin%list_elem_of_singleton; discriminate.
Qed.

Section RoundTrip.

Implicit Types (L : Logger) (env : Env) (ev : Event).

(** While a send is in flight and does not end, a turn leaves the flag
    and the batch in flight alone; it appends the record it constructs
    to the queue, unless it is the unload guard, which empties the
    queue. *)
Lemma busy_step env ev L :
  flushingRef L = true → is_settle ev = false →
  flushingRef (step env ev L).1 = true
  ∧ pending (step env ev L).1 = pending L
  ∧ (queueRef (step env ev L).1 = queueRef L ++ created (step env ev L).2
     ∨ (is_unload ev = true ∧ queueRef (step env ev L).1 = [])).
Proof.
  intros Hbusy Hev.
  destruct (step_cases env ev L)
    as [-> | [(p & L1 & Hcore & _ & ->) | [-> | [(i & o & -> & _) | [(b & -> & ->) | ->]]]]].
  - cbn. rewrite app_nil_r. auto.
  - destruct Hcore as (_ & Hq & Hp & Hf & _). cbn. rewrite Hq, Hp, Hf. auto.
  - rewrite flush_busy by done. cbn. rewrite app_nil_r. auto.
  - done.
  - cbn. auto.
  - rewrite cleanup_eq. cbn [fst snd]. rewrite flush_busy by done.
    cbn. auto.
Qed.

Lemma busy_run (mid : list (Env * Event)) L :
  flushingRef L = true →
  Forall (λ x, is_settle x.2 = false) mid →
  flushingRef (run mid L).1 = true
  ∧ pending (run mid L).1 = pending L
  ∧ queueRef (run mid L).1 `suffix_of` queueRef L ++ created (run mid L).2
  ∧ (Forall (λ x, is_unload x.2 = false) mid →
     queueRef (run mid L).1 = queueRef L ++ created (run mid L).2).
Proof.
  revert L. induction mid as [| [env ev] rest IH]; intros L Hbusy Hmid.
  - cbn. rewrite app_nil_r. done.
  - apply Forall_cons in Hmid as [Hev Hrest]. cbn in Hev.
    rewrite run_cons. cbn [fst snd].
    destruct (busy_step env ev L Hbusy Hev) as (Hbusy1 & Hpend1 & Hqueue1).
    destruct (IH _ Hbusy1 Hrest) as (Hbusy2 & Hpend2 & Hsuffix & Hexact).
    rewrite created_app.
    split; [done |]. split; [congruence |]. split.
    + etrans; [exact Hsuffix |].
      destruct Hqueue1 as [-> | [_ ->]].
      * by rewrite !app_assoc.
      * cbn. rewrite app_assoc. by apply suffix_app_r.
    + intros Hno. apply Forall_cons in Hno as [Hev' Hno]. cbn in Hev'.
      rewrite (Hexact Hno).
      destruct Hqueue1 as [-> | [Hunload _]]; [| congruence].
      by rewrite !app_assoc.
Qed.

Lemma flush_idle L :
  flushingRef L = false → pending L = [] → queueRef L ≠ [] →
  flush L = (set_pending [queueRef L] (set_flushing true (set_queue [] L)),
             [Fetch (queueRef L)]).
Proof.
  intros Hidle Hnone Hne. unfold flush. rewrite Hidle.
  destruct (queueRef L) eqn:Hq; [done |]. cbn. by rewrite Hnone.
Qed.

Lemma sorted_NoDup (l : list Z) : StronglySorted Z.lt l → NoDup l.
Proof.
  induction 1 as [| x l _ IH Hall]; constructor; [| done].
  intros Hin. rewrite Forall_forall in Hall. specialize (Hall x Hin). lia.
Qed.

End RoundTrip.

(** C3.  Take a reachable state with no send in flight and a non-empty
    queue.  [flush] drains the whole queue as one batch and sends it.
    While the send is in flight, let any events happen.  When the send is
    rejected, the batch is put back in front of what the queue then holds,
    which are records constructed in the meantime (all of them, if the
    unload guard did not run).  The next [flush] sends the batch again, in
    its original order, each record once, ahead of those newer records. *)
Theorem requeue_round_trip (L : Logger) (mid : list (Env * Event))
    (reason : string) :
  reachable L →
  flushingRef L = false →
  queueRef L ≠ [] →
  Forall (λ x, is_settle x.2 = false) mid →
  let batch := queueRef L in
  let L1 := (flush L).1 in
  let L2 := (run mid L1).1 in
  let pushed := created (run mid L1).2 in
  let L3 := flush_resume 0 (Rejected reason) L2 in
  (flush L).2 = [Fetch batch]
  ∧ queueRef L1 = []
  ∧ pending L2 = [batch]
  ∧ queueRef L2 `suffix_of` pushed
  ∧ (Forall (λ x, is_unload x.2 = false) mid → queueRef L2 = pushed)
  ∧ queueRef L3 = batch ++ queueRef L2
  ∧ (flush L3).2 = [Fetch (batch ++ queueRef L2)]
  ∧ queueRef (flush L3).1 = []
  ∧ StronglySorted Z.lt (seq <$> batch ++ queueRef L2)
  ∧ NoDup (seq <$> batch ++ queueRef L2).
Proof.
  intros HL%reachable_wf Hidle Hne Hmid. cbv zeta.
  assert (Hnone : pending L = []).
  { destruct (wf_single L HL) as [[_ ?] | [? _]]; [done | congruence]. }
  pose proof (wf_flush L HL) as HL1.
  rewrite (flush_idle L Hidle Hnone Hne) in *. cbn [fst snd] in *.
  set (batch := queueRef L) in *.
  set (L1 := set_pending [batch] (set_flushing true (set_queue [] L))) in *.
  destruct (busy_run mid L1 eq_refl Hmid) as (Hbusy2 & Hpend2 & Hsuffix & Hexact).
  pose proof (wf_run mid L1 HL1) as HL2.
  set (L2 := (run mid L1).1) in *. set (pushed := created (run mid L1).2) in *.
  change (pending L1) with [batch] in Hpend2.
  change (queueRef L1) with (@nil EventPayload) in Hsuffix, Hexact.
  cbn [app] in Hsuffix, Hexact.
  pose proof (wf_flush_resume 0 (Rejected reason) L2 HL2) as HL3.
  rewrite (flush_resume_rejected L2 batch) in * by done.
  set (L3 := set_flushing false
               (set_queue (batch ++ queueRef L2) (set_pending [] L2))) in *.
  assert (Hne3 : queueRef L3 ≠ []).
  { cbn. subst batch. by destruct (queueRef L). }
  assert (Hsorted : StronglySorted Z.lt (seq <$> batch ++ queueRef L2)).
  { exact (wf_sorted L3 HL3). }
  rewrite (flush_idle L3) by done.
  repeat split; try done. by apply sorted_NoDup.
Qed.

Lemma requeue_round_trip_witness :
  let mid := [(browser_at 450 500, DomScroll)] in
  let L2 := (run mid (flush two_queued).1).1 in
  let L3 := flush_resume 0 (Rejected "TypeError: Failed to fetch") L2 in
  seq <$> queueRef two_queued = [1; 2]
  ∧ seq <$> queueRef L2 = [3]
  ∧ (flush L3).2 = [Fetch (queueRef two_queued ++ queueRef L2)].
Proof.
  intros mid L2 L3.
  split; [by vm_compute |]. split; [by vm_compute |].
  pose proof two_queued_nonempty as Hne.
  assert (Hmid : Forall (λ x : Env * Event, is_settle x.2 = false) mid).
  { by repeat constructor. }
  apply (requeue_round_trip two_queued mid "TypeError: Failed to fetch"
           two_queued_reachable eq_refl Hne Hmid).
Defined.

(** ** Unload guard *)

(** C4.  When the unload guard runs on a state with [k] records in the
    queue, it constructs one [page_exit] record, numbered by the counter's
    next value (above every record that waits for delivery), with the dwell
    time since entry and the running-maximum depth; it makes exactly one
    send, a beacon that carries this record followed by the [k] queued
    ones, [k + 1] in all; and the queue is empty afterwards, whatever
    [sendBeacon] answers. *)
Theorem unload_guard (L : Logger) (env : Env) (beacon_queued : bool) :
  reachable L →
  listening L = true →
  let r := exit_record env L in
  let L' := (step env (Unload beacon_queued) L).1 in
  let effs := (step env (Unload beacon_queued) L).2 in
  effs = [Created r; Beacon (r :: queueRef L)]
  ∧ sends effs = [r :: queueRef L]
  ∧ length (r :: queueRef L) = S (length (queueRef L))
  ∧ event r = page_exit
  ∧ seq r = seqRef L + 1
  ∧ Forall (λ q, seq q < seq r) (waiting L)
  ∧ dwellMs r = Some (now env - enterAtRef L)
  ∧ depth r = Some (JS.toFixed2 (maxDepthRef L) +:+ "%")
  ∧ queueRef L' = []
  ∧ seqRef L' = seq r.
Proof.
  intros HL%reachable_wf Hon. cbv zeta. cbn [step]. rewrite Hon.
  repeat split.
  eapply Forall_impl; [exact (wf_bound L HL) |]. cbn. intros; lia.
Qed.

Lemma unload_guard_witness :
  let effs := (step (browser_at 300 0) (Unload true) two_queued).2 in
  length (queueRef two_queued) = 2%nat
  ∧ (length <$> sends effs) = [3%nat]
  ∧ (event <$> concat (sends effs)) = [page_exit; page_enter; heartbeat]
  ∧ (seq <$> concat (sends effs)) = [3; 1; 2]
  ∧ queueRef (step (browser_at 300 0) (Unload true) two_queued).1 = [].
Proof.
  destruct (unload_guard two_queued (browser_at 300 0) true
              two_queued_reachable eq_refl)
    as (Heffs & Hsends & _ & _ & _ & _ & _ & _ & Hempty & _).
  cbv zeta. rewrite Hsends.
  split; [by vm_compute |]. split; [by vm_compute |]. split; [by vm_compute |].
  split; [by vm_compute |]. exact Hempty.
Defined.

(** ** The meta bag *)

Section Meta.

Implicit Types (L : Logger) (env : Env) (ev : Event) (p : Partial).

Lemma make_record_meta env p L (k : string) :
  meta (make_record env p L) !! k
  = match default ∅ (p_meta p) !! k with
    | Some v => Some v
    | None => default_meta env (config L) !! k
    end.
Proof.
  cbn [make_record meta]. rewrite lookup_union.
  destruct (default ∅ (p_meta p) !! k) as [v |];
    by destruct (default_meta env (config L) !! k).
Qed.

Lemma default_meta_visibility env (cfg : LoggerConfig) :
  default_meta env cfg !! "visibility" = Some (JS.VStr (visibilityState env)).
Proof. apply lookup_insert_eq. Qed.

Lemma default_meta_profile env (cfg : LoggerConfig) (k : string) :
  k ≠ "visibility" → default_meta env cfg !! k = profile_meta cfg !! k.
Proof. intros Hk. unfold default_meta. by rewrite lookup_insert_ne. Qed.

Lemma profile_meta_known (cfg : LoggerConfig) (u : UserProfile) :
  cfg_userProfile cfg = Some u →
  profile_meta cfg !! "age" = Some (JS.VNum (age u))
  ∧ profile_meta cfg !! "occupation" = Some (JS.VStr (occupation u)).
Proof.
  intros Hu. unfold profile_meta. rewrite Hu. split.
  - apply lookup_insert_eq.
  - rewrite lookup_insert_ne by discriminate. apply lookup_insert_eq.
Qed.

Lemma profile_meta_dom (cfg : LoggerConfig) :
  dom (profile_meta cfg) = {["age"; "occupation"]}.
Proof. unfold profile_meta. rewrite !dom_insert_L. set_solver. Qed.

Lemma profile_meta_no_visibility (cfg : LoggerConfig) :
  profile_meta cfg !! "visibility" = None.
Proof. unfold profile_meta. lookup_none_tac. Qed.

(** A record built by [push] from a partial that keeps the defaults. *)
Lemma make_record_defaults env p L :
  keeps_defaults p →
  meta (make_record env p L) !! "visibility"
    = Some (JS.VStr (visibilityState env))
  ∧ meta (make_record env p L) !! "age" = profile_meta (config L) !! "age"
  ∧ meta (make_record env p L) !! "occupation"
    = profile_meta (config L) !! "occupation".
Proof.
  intros (Hvis & Hage & Hocc). rewrite !make_record_meta, Hvis, Hage, Hocc.
  rewrite default_meta_visibility, !default_meta_profile by discriminate.
  done.
Qed.

Lemma flush_config L : config (flush L).1 = config L.
Proof.
  unfold flush. destruct (flushingRef L); [done |].
  by destruct (queueRef L).
Qed.

Lemma flush_no_record L r : Created r ∉ (flush L).2.
Proof.
  unfold flush. destruct (flushingRef L); [apply not_elem_of_nil |].
  destruct (queueRef L); cbn; [apply not_elem_of_nil |].
  by intros Hin%list_elem_of_singleton.
Qed.

(** The records of every listener and timer but the unload guard. *)
Lemma step_record_meta env ev L r :
  is_unload ev = false →
  Created r ∈ (step env ev L).2 →
  meta r !! "visibility" = Some (JS.VStr (visibilityState env))
  ∧ meta r !! "age" = profile_meta (config (step env ev L).1) !! "age"
  ∧ meta r !! "occupation"
    = profile_meta (config (step env ev L).1) !! "occupation".
Proof.
  intros Hev.
  destruct (step_cases env ev L)
    as [-> | [(p & L1 & Hcore & Hkeeps & ->) | [-> | [(i & o & _ & ->) | [(b & -> & _) | ->]]]]].
  - set_solver.
  - cbn [push snd fst config set_queue set_seq].
    intros Hin%list_elem_of_singleton.
    injection Hin as ->. by apply make_record_defaults.
  - intros Hin. by apply flush_no_record in Hin.
  - set_solver.
  - done.
  - rewrite cleanup_eq. cbn [fst snd]. rewrite flush_config.
    cbn [push fst config set_queue set_seq set_listening].
    intros [Hin | Hin]%elem_of_app; [| by apply flush_no_record in Hin].
    cbn [push snd] in Hin. apply list_elem_of_singleton in Hin.
    injection Hin as ->. apply make_record_defaults. by repeat split.
Qed.

Lemma elem_of_created (r : EventPayload) (effs : list Effect) :
  r ∈ created effs ↔ Created r ∈ effs.
Proof.
  unfold created. rewrite list_elem_of_omap. split.
  - intros ([] & Hin & Heq); by simplify_eq.
  - intros Hin. by exists (Created r).
Qed.

End Meta.

(** C10.  The record that [push] builds carries a meta bag made of the
    caller's keys laid over the defaults: a key the caller gives keeps the
    caller's value, any other key has its default, and the defaults are the
    visibility state of the document and the viewer's age and occupation
    (their values when the profile is known).  No listener or timer
    overrides a default, so each of their records shows the current
    visibility.  The record of the unload guard is the exception: its meta
    has the keys [age] and [occupation] and no others, so no
    [visibility]. *)
Theorem push_meta (env : Env) (p : Partial) (L : Logger) :
  let r := make_record env p L in
  (push env p L).2 = [Created r]
  ∧ (∀ k : string,
       meta r !! k = match default ∅ (p_meta p) !! k with
                     | Some v => Some v
                     | None => default_meta env (config L) !! k
                     end)
  ∧ default_meta env (config L) !! "visibility"
    = Some (JS.VStr (visibilityState env))
  ∧ (∀ u, cfg_userProfile (config L) = Some u →
       default_meta env (config L) !! "age" = Some (JS.VNum (age u))
       ∧ default_meta env (config L) !! "occupation"
         = Some (JS.VStr (occupation u)))
  ∧ (∀ ev r',
       is_unload ev = false →
       Created r' ∈ (step env ev L).2 →
       meta r' !! "visibility" = Some (JS.VStr (visibilityState env))
       ∧ meta r' !! "age" = profile_meta (config (step env ev L).1) !! "age"
       ∧ meta r' !! "occupation"
         = profile_meta (config (step env ev L).1) !! "occupation")
  ∧ (handleUnload env L).2
    = [Created (exit_record env L); Beacon (exit_record env L :: queueRef L)]
  ∧ dom (meta (exit_record env L)) = {["age"; "occupation"]}
  ∧ meta (exit_record env L) !! "visibility" = None.
Proof.
  cbv zeta. split; [reflexivity |].
  split; [apply make_record_meta |].
  split; [apply default_meta_visibility |].
  split.
  { intros u Hu. rewrite !default_meta_profile by discriminate.
    by apply profile_meta_known. }
  split; [intros ev r'; apply step_record_meta |].
  split; [reflexivity |].
  split; [apply profile_meta_dom | apply profile_meta_no_visibility].
Qed.

Lemma push_meta_witness :
  event <$> created (step (browser_at 450 500) DomScroll two_queued).2 = [scroll]
  ∧ Forall (λ r, meta r !! "visibility" = Some (JS.VStr "visible")
                 ∧ meta r !! "age" = Some (JS.VNum 29)
                 ∧ meta r !! "occupation" = Some (JS.VStr "teacher"))
      (created (step (browser_at 450 500) DomScroll two_queued).2).
Proof.
  split; [by vm_compute |].
  apply Forall_forall. intros r Hr%elem_of_created.
  destruct (push_meta (browser_at 450 500) (partial_of focus) two_queued)
    as (_ & _ & _ & _ & Hstep & _).
  destruct (Hstep DomScroll r eq_refl Hr) as (Hvis & Hage & Hocc).
  rewrite Hvis, Hage, Hocc. repeat split; by vm_compute.
Defined.

(** ** Session and page identity *)

Section Identity.

Implicit Types (L : Logger) (env : Env) (ev : Event).

Lemma pretty_N_char_digit (x : N) : pretty_N_char x ≠ "_"%char.
Proof. unfold pretty_N_char. by repeat case_match. Qed.

Lemma pretty_N_go_free (x : N) (s : string) :
  free_of "_" s → free_of "_" (pretty_N_go x s).
Proof.
  revert s. induction (N.lt_wf_0 x) as [x _ IH]. intros s Hs.
  destruct (decide (x = 0)%N) as [-> | Hx]; [by rewrite pretty_N_go_0 |].
  rewrite pretty_N_go_step by lia. apply IH.
  - apply N.div_lt; lia.
  - split; [apply pretty_N_char_digit | exact Hs].
Qed.

Lemma pretty_N_free (x : N) : free_of "_" (pretty x).
Proof.
  unfold pretty, pretty_N. case_decide; [by repeat split |].
  by apply pretty_N_go_free.
Qed.

(** The decimal print of an integer has no underscore. *)
Lemma pretty_Z_free (z : Z) : free_of "_" (pretty z).
Proof.
  unfold pretty, pretty_Z. destruct z as [| x | x].
  - by repeat split.
  - apply pretty_N_free.
  - split; [done | apply pretty_N_free].
Qed.

Lemma append_empty_l (s : string) : "" +:+ s = s.
Proof. reflexivity. Qed.

Lemma append_cons_l (c : ascii) (a s : string) :
  String c a +:+ s = String c (a +:+ s).
Proof. reflexivity. Qed.

(** A string is cut at its first underscore in one way only. *)
Lemma cut_unique (a b r1 r2 : string) :
  free_of "_" a → free_of "_" b →
  a +:+ "_" +:+ r1 = b +:+ "_" +:+ r2 → a = b ∧ r1 = r2.
Proof.
  revert b. induction a as [| x a IH]; intros [| y b] Ha Hb Heq;
    cbn in Ha, Hb; rewrite ?append_cons_l, ?append_empty_l in Heq.
  - by injection Heq as ->.
  - injection Heq as <- _. by destruct Hb.
  - injection Heq as -> _. by destruct Ha.
  - injection Heq as -> Heq. destruct Ha as [_ Ha], Hb as [_ Hb].
    destruct (IH b Ha Hb Heq) as [-> ->]. done.
Qed.

Lemma make_id_inj (tag : string) (n1 n2 : Z) (r1 r2 : string) :
  make_id tag n1 r1 = make_id tag n2 r2 ↔ n1 = n2 ∧ r1 = r2.
Proof.
  split; [| by intros [-> ->]].
  unfold make_id. intros Heq.
  apply (inj (String.app tag)) in Heq.
  rewrite !append_cons_l, !append_empty_l in Heq. injection Heq as Heq.
  apply cut_unique in Heq as [Hn ->]; [| apply pretty_Z_free ..].
  by apply (inj pretty) in Hn.
Qed.

Lemma make_id_nonempty (tag : string) (n : Z) (r : string) :
  tag ≠ "" → make_id tag n r ≠ "".
Proof. intros Htag. unfold make_id. by destruct tag. Qed.

(** A render leaves in the storage the non-empty id it resolved. *)
Lemma resolve_session_stored (storage : gmap string string) (renv : RenderEnv) :
  (resolve_session storage renv).1 !! SESSION_KEY
    = Some (resolve_session storage renv).2
  ∧ (resolve_session storage renv).2 ≠ "".
Proof.
  unfold resolve_session.
  destruct (storage !! SESSION_KEY) as [existing |] eqn:Hget.
  - destruct (String.eqb_spec existing "") as [-> | Hne]; cbn.
    + split; [apply lookup_insert_eq | by apply make_id_nonempty].
    + done.
  - cbn. split; [apply lookup_insert_eq | by apply make_id_nonempty].
Qed.

(** A render that finds a non-empty id reads it and stores nothing. *)
Lemma resolve_session_existing (storage : gmap string string)
    (renv : RenderEnv) (existing : string) :
  storage !! SESSION_KEY = Some existing → existing ≠ "" →
  resolve_session storage renv = (storage, existing).
Proof.
  intros Hget Hne. unfold resolve_session. rewrite Hget.
  by destruct (String.eqb_spec existing "").
Qed.

Lemma render_fst storage renv cfg :
  (useExperimentLogger storage renv cfg).1 = (resolve_session storage renv).1.
Proof. unfold useExperimentLogger. by destruct (resolve_session _ _). Qed.

Lemma render_sessionId storage renv cfg :
  sessionIdRef (useExperimentLogger storage renv cfg).2
  = (resolve_session storage renv).2.
Proof. unfold useExperimentLogger. by destruct (resolve_session _ _). Qed.

Lemma render_pageSessionId storage renv cfg :
  pageSessionIdRef (useExperimentLogger storage renv cfg).2
  = make_id "pg" (pg_now renv) (pg_rand renv).
Proof. unfold useExperimentLogger. by destruct (resolve_session _ _). Qed.

Lemma flush_ids L :
  pageSessionIdRef (flush L).1 = pageSessionIdRef L
  ∧ sessionIdRef (flush L).1 = sessionIdRef L.
Proof.
  unfold flush. destruct (flushingRef L); [done |].
  by destruct (queueRef L).
Qed.

Lemma flush_resume_ids i o L :
  pageSessionIdRef (flush_resume i o L) = pageSessionIdRef L
  ∧ sessionIdRef (flush_resume i o L) = sessionIdRef L.
Proof.
  unfold flush_resume. destruct (pending L !! i); [| done].
  by destruct (sendEvents_fulfilled o).
Qed.

(** No turn of the event loop writes the two ids, and every record it
    constructs carries them. *)
Lemma step_ids env ev L :
  pageSessionIdRef (step env ev L).1 = pageSessionIdRef L
  ∧ sessionIdRef (step env ev L).1 = sessionIdRef L
  ∧ Forall (λ r, pageSessionId r = pageSessionIdRef L
                 ∧ sessionId r = sessionIdRef L)
      (created (step env ev L).2).
Proof.
  destruct (step_cases env ev L)
    as [-> | [(p & L1 & Hcore & _ & ->) | [-> | [(i & o & _ & ->) | [(b & _ & ->) | ->]]]]].
  - by repeat split.
  - destruct Hcore as (_ & _ & _ & _ & Hs & Hp). cbn. rewrite Hs, Hp.
    by repeat constructor.
  - rewrite flush_created. destruct (flush_ids L). by repeat split.
  - destruct (flush_resume_ids i o L). by repeat split.
  - cbn. by repeat constructor.
  - rewrite cleanup_eq. cbn [fst snd].
    rewrite created_app, flush_created.
    destruct (flush_ids (set_listening false
                           (push env (exit_partial env L) L).1)) as [-> ->].
    cbn. by repeat constructor.
Qed.

Lemma run_ids (trace : list (Env * Event)) L :
  pageSessionIdRef (run trace L).1 = pageSessionIdRef L
  ∧ sessionIdRef (run trace L).1 = sessionIdRef L
  ∧ Forall (λ r, pageSessionId r = pageSessionIdRef L
                 ∧ sessionId r = sessionIdRef L)
      (created (run trace L).2).
Proof.
  revert L. induction trace as [| [env ev] rest IH]; intros L.
  - by repeat split.
  - rewrite run_cons. cbn [fst snd]. rewrite created_app.
    destruct (step_ids env ev L) as (Hp1 & Hs1 & Hall1).
    destruct (IH (step env ev L).1) as (Hp2 & Hs2 & Hall2).
    rewrite Hp1, Hs1 in *. split; [done |]. split; [done |].
    by apply Forall_app.
Qed.

End Identity.

(** C7, as the code has it.  Two renders of the hook in one tab, the second
    on the storage the first left, resolve the same session id: the stored
    one when the first render finds a non-empty id, else the id the first
    render generates and stores.  Each render makes its page-session id from
    its clock reading and its random suffix, so the two ids are equal
    exactly when both readings are; and through every run of the instance
    the two ids stay what the render made them and are the ids of every
    record. *)
Theorem remount_identity (storage : gmap string string) (r1 r2 : RenderEnv)
    (c1 c2 : LoggerConfig) (trace : list (Env * Event)) :
  let storage1 := (useExperimentLogger storage r1 c1).1 in
  let L1 := (useExperimentLogger storage r1 c1).2 in
  let L2 := (useExperimentLogger storage1 r2 c2).2 in
  sessionIdRef L1 = sessionIdRef L2
  ∧ storage1 !! SESSION_KEY = Some (sessionIdRef L1)
  ∧ (∀ existing, storage !! SESSION_KEY = Some existing → existing ≠ "" →
       sessionIdRef L1 = existing ∧ storage1 = storage)
  ∧ (storage !! SESSION_KEY = None →
       sessionIdRef L1 = make_id "s" (s_now r1) (s_rand r1))
  ∧ pageSessionIdRef L1 = make_id "pg" (pg_now r1) (pg_rand r1)
  ∧ pageSessionIdRef L2 = make_id "pg" (pg_now r2) (pg_rand r2)
  ∧ (pageSessionIdRef L1 = pageSessionIdRef L2
     ↔ pg_now r1 = pg_now r2 ∧ pg_rand r1 = pg_rand r2)
  ∧ pageSessionIdRef (run trace L1).1 = pageSessionIdRef L1
  ∧ sessionIdRef (run trace L1).1 = sessionIdRef L1
  ∧ Forall (λ r, pageSessionId r = pageSessionIdRef L1
                 ∧ sessionId r = sessionIdRef L1)
      (created (run trace L1).2).
Proof.
  cbv zeta.
  destruct (resolve_session_stored storage r1) as [Hstored Hne].
  rewrite !render_sessionId, !render_pageSessionId, !render_fst.
  split.
  { by rewrite (resolve_session_existing _ r2 _ Hstored Hne). }
  split; [exact Hstored |].
  split.
  { intros existing Hget Hex.
    by rewrite (resolve_session_existing _ r1 _ Hget Hex). }
  split.
  { intros Hget. unfold resolve_session. by rewrite Hget. }
  split; [done |]. split; [done |].
  split; [apply make_id_inj |].
  pose proof (run_ids trace (useExperimentLogger storage r1 c1).2) as Hrun.
  by rewrite render_sessionId, render_pageSessionId in Hrun.
Qed.

Lemma remount_identity_witness :
  let storage1 := (useExperimentLogger ∅ first_render login_cfg).1 in
  let L1 := (useExperimentLogger ∅ first_render login_cfg).2 in
  let L2 := (useExperimentLogger storage1 later_render login_cfg).2 in
  sessionIdRef L1 = "s_1700000000000_p0w2zm"
  ∧ sessionIdRef L2 = "s_1700000000000_p0w2zm"
  ∧ pageSessionIdRef L1 ≠ pageSessionIdRef L2.
Proof.
  destruct (remount_identity ∅ first_render later_render login_cfg login_cfg [])
    as (Hsame & _ & _ & Hnew & _ & _ & Hpage & _).
  cbv zeta. rewrite <- Hsame, (Hnew (lookup_empty _)).
  split; [by vm_compute |]. split; [by vm_compute |].
  intros Heq. apply Hpage in Heq as [Hnow _]. discriminate Hnow.
Defined.

(** C7, as the specification states it, fails when two renders read the
    same millisecond and draw the same suffix: the session id is shared, as
    it should, but so is the page-session id. *)
Lemma remount_same_page_session :
  let storage1 := (useExperimentLogger ∅ first_render login_cfg).1 in
  let L1 := (useExperimentLogger ∅ first_render login_cfg).2 in
  let L2 := (useExperimentLogger storage1 same_ms_render login_cfg).2 in
  ¬ (sessionIdRef L1 = sessionIdRef L2
     ∧ pageSessionIdRef L1 ≠ pageSessionIdRef L2).
Proof.
  cbv zeta. intros [_ Hdiff]. apply Hdiff.
  by rewrite !render_pageSessionId.
Qed.

(** ** Running-maximum depth *)

Section Depth.

Implicit Types (L : Logger) (env : Env) (ev : Event) (p : Partial).

Lemma hundredths_mono (x y : Q) :
  (x <= y)%Q → JS.hundredths x ≤ JS.hundredths y.
Proof. intros Hxy. unfold JS.hundredths. apply Qfloor_resp_le. lra. Qed.

Lemma hundredths_nonneg (x : Q) : (0 <= x)%Q → 0 ≤ JS.hundredths x.
Proof.
  intros Hx. change 0 with (Qfloor 0). unfold JS.hundredths.
  apply Qfloor_resp_le. lra.
Qed.

Lemma cents_le (a b : Z) : a ≤ b → (a # 100 <= b # 100)%Q.
Proof. intros Hab. unfold Qle. cbn. lia. Qed.

Lemma cents_nonneg (a : Z) :
  0 ≤ a → (- (a # 100) <= 0)%Q ∧ (0 <= a # 100)%Q.
Proof. intros Ha. unfold Qle. cbn. lia. Qed.

Lemma cents_round_nonneg (a : Z) :
  0 ≤ a → (0 <= Double.round (a # 100))%Q.
Proof. intros Ha. by apply round_nonneg, cents_nonneg. Qed.

(** Rounding to two decimals keeps the order. *)
Lemma Number_toFixed2_mono (x y : Q) :
  (x <= y)%Q → (JS.Number_toFixed2 x <= JS.Number_toFixed2 y)%Q.
Proof.
  intros Hxy. unfold JS.Number_toFixed2.
  destruct (Qlt_le_dec x 0) as [Hx | Hx], (Qlt_le_dec y 0) as [Hy | Hy].
  - apply Qopp_le_compat, round_mono, cents_le, hundredths_mono. lra.
  - assert (Hx' : (0 <= - x)%Q) by lra.
    pose proof (cents_round_nonneg (JS.hundredths (- x))
                  (hundredths_nonneg _ Hx')).
    pose proof (cents_round_nonneg (JS.hundredths y) (hundredths_nonneg _ Hy)).
    lra.
  - lra.
  - by apply round_mono, cents_le, hundredths_mono.
Qed.

Lemma make_record_maxDepthPct env p L :
  maxDepthPct_of (make_record env p L)
  = match default ∅ (p_meta p) !! "maxDepthPct" with
    | Some (JS.VNum q) => Some q
    | _ => None
    end.
Proof.
  unfold maxDepthPct_of. rewrite make_record_meta.
  destruct (default ∅ (p_meta p) !! "maxDepthPct") as [v |]; [done |].
  unfold default_meta, profile_meta. by rewrite !lookup_insert_ne, lookup_empty.
Qed.

Lemma maxDepthPcts_one (r : EventPayload) (rest : list Effect) :
  maxDepthPcts (Created r :: rest)
  = match maxDepthPct_of r with
    | Some q => q :: maxDepthPcts rest
    | None => maxDepthPcts rest
    end.
Proof. reflexivity. Qed.

Lemma push_maxDepthPcts env p L :
  maxDepthPcts (push env p L).2
  = match default ∅ (p_meta p) !! "maxDepthPct" with
    | Some (JS.VNum q) => [q]
    | _ => []
    end.
Proof.
  cbn [push snd]. rewrite maxDepthPcts_one, make_record_maxDepthPct.
  by destruct (default ∅ (p_meta p) !! "maxDepthPct") as [[] |].
Qed.

Lemma push_no_maxDepthPct env p L :
  default ∅ (p_meta p) !! "maxDepthPct" = None →
  maxDepthPcts (push env p L).2 = [].
Proof.
  intros Hnone. by rewrite push_maxDepthPcts, Hnone.
Qed.

Lemma onScroll_maxDepth env L :
  maxDepthRef (onScroll env L).1
    = Qmax (maxDepthRef L) (depthPct (getScrollMetrics (scroll_dom env)))
  ∧ maxDepthPcts (onScroll env L).2
    = [JS.Number_toFixed2 (maxDepthRef (onScroll env L).1)].
Proof.
  split; [reflexivity |].
  unfold onScroll. rewrite push_maxDepthPcts. cbn [default from_option id p_meta].
  rewrite !lookup_insert_ne by discriminate. by rewrite lookup_insert_eq.
Qed.

Lemma sampleTimer_maxDepth env L :
  maxDepthRef (sampleTimer env L).1
    = Qmax (maxDepthRef L) (depthPct (getScrollMetrics (scroll_dom env)))
  ∧ maxDepthPcts (sampleTimer env L).2
    = [JS.Number_toFixed2 (maxDepthRef (sampleTimer env L).1)].
Proof.
  split; [reflexivity |].
  unfold sampleTimer. rewrite push_maxDepthPcts. cbn [default from_option id p_meta].
  rewrite !lookup_insert_ne by discriminate. by rewrite lookup_insert_eq.
Qed.

Lemma flush_maxDepth L :
  maxDepthRef (flush L).1 = maxDepthRef L ∧ maxDepthPcts (flush L).2 = [].
Proof.
  unfold maxDepthPcts. rewrite flush_created. split; [| done].
  unfold flush. destruct (flushingRef L); [done |]. by destruct (queueRef L).
Qed.

Lemma flush_resume_maxDepth i o L :
  maxDepthRef (flush_resume i o L) = maxDepthRef L.
Proof.
  unfold flush_resume. destruct (pending L !! i); [| done].
  by destruct (sendEvents_fulfilled o).
Qed.

Lemma exit_record_no_maxDepthPct env L :
  maxDepthPct_of (exit_record env L) = None.
Proof.
  unfold maxDepthPct_of, exit_record, profile_meta. cbn [meta].
  by rewrite !lookup_insert_ne, lookup_empty.
Qed.

Lemma sorted_const (c : Q) (l : list Q) :
  Forall (λ q, q = c) l → StronglySorted Qle l.
Proof.
  induction 1 as [| q l -> Hall IH]; constructor; [done |].
  eapply Forall_impl; [exact Hall |]. intros q ->. apply Qle_refl.
Qed.

(** One turn that is not a setup of the effect never lowers the running
    maximum, and what it records, if anything, is the maximum it leaves,
    rounded. *)
Lemma step_maxDepth env ev L :
  is_setup ev = false →
  (maxDepthRef L <= maxDepthRef (step env ev L).1)%Q
  ∧ Forall (λ q, q = JS.Number_toFixed2 (maxDepthRef (step env ev L).1))
      (maxDepthPcts (step env ev L).2).
Proof.
  intros Hev.
  assert (Hsame : ∀ S : Logger * list Effect,
            maxDepthRef S.1 = maxDepthRef L → maxDepthPcts S.2 = [] →
            (maxDepthRef L <= maxDepthRef S.1)%Q
            ∧ Forall (λ q, q = JS.Number_toFixed2 (maxDepthRef S.1))
                (maxDepthPcts S.2)).
  { intros S -> ->. split; [lra | constructor]. }
  assert (Hpush : ∀ p L1,
            maxDepthRef L1 = maxDepthRef L →
            default ∅ (p_meta p) !! "maxDepthPct" = None →
            (maxDepthRef L <= maxDepthRef (push env p L1).1)%Q
            ∧ Forall (λ q, q = JS.Number_toFixed2
                                 (maxDepthRef (push env p L1).1))
                (maxDepthPcts (push env p L1).2)).
  { intros p L1 HL1 Hp. apply Hsame; [done | by apply push_no_maxDepthPct]. }
  destruct ev; try discriminate Hev; cbn [step];
    try (destruct (listening L); [| by apply Hsame]).
  - destruct (onScroll_maxDepth env L) as [Hmax ->].
    split; [rewrite Hmax; apply Q.le_max_l | by repeat constructor].
  - apply Hpush; [done |]. cbn [default from_option id p_meta]. unfold target_meta_map.
    lookup_none_tac.
  - destruct changed; [| by apply Hsame].
    apply Hpush; [done |]. cbn [default from_option id p_meta]. lookup_none_tac.
  - destruct changed; [| by apply Hsame].
    apply Hpush; [done |]. cbn [default from_option id p_meta]. lookup_none_tac.
  - destruct changed; [| by apply Hsame].
    apply Hpush; [done |]. cbn [default from_option id p_meta]. lookup_none_tac.
  - unfold onVisibilityChange. apply Hpush.
    + by destruct (String.eqb _ _).
    + cbn [default from_option id p_meta]. lookup_none_tac.
  - by apply Hpush.
  - by apply Hpush.
  - destruct target; [| by apply Hsame].
    apply Hpush; [done |]. cbn [default from_option id p_meta]. lookup_none_tac.
  - apply Hpush; [done |]. cbn [default from_option id p_meta]. lookup_none_tac.
  - destruct (sampleTimer_maxDepth env L) as [Hmax ->].
    split; [rewrite Hmax; apply Q.le_max_l | by repeat constructor].
  - apply Hsame; apply flush_maxDepth.
  - apply Hsame; [apply flush_resume_maxDepth | done].
  - apply Hsame; [done |].
    cbn [handleUnload snd].
    by rewrite maxDepthPcts_one, exit_record_no_maxDepthPct.
  - rewrite cleanup_eq. apply Hsame; cbn [fst snd].
    + by rewrite (proj1 (flush_maxDepth _)).
    + unfold maxDepthPcts. rewrite created_app, flush_created, app_nil_r.
      by apply push_no_maxDepthPct.
Qed.

(** Over a run without a setup of the effect the recorded maxima never
    decrease, none is below the rounded maximum the run starts from, and
    the running maximum itself never decreases. *)
Lemma run_maxDepth (trace : list (Env * Event)) L :
  Forall (λ x, is_setup x.2 = false) trace →
  StronglySorted Qle (maxDepthPcts (run trace L).2)
  ∧ Forall (λ q, (JS.Number_toFixed2 (maxDepthRef L) <= q)%Q)
      (maxDepthPcts (run trace L).2)
  ∧ (maxDepthRef L <= maxDepthRef (run trace L).1)%Q.
Proof.
  revert L. induction trace as [| [env ev] rest IH]; intros L Htrace.
  - cbn. split; [constructor |]. split; [constructor | lra].
  - apply Forall_cons in Htrace as [Hev Hrest]. cbn in Hev.
    rewrite run_cons. cbn [fst snd].
    destruct (step_maxDepth env ev L Hev) as [Hup Hrec].
    destruct (IH (step env ev L).1 Hrest) as (Hsorted & Hlow & Hup').
    assert (Hround := Number_toFixed2_mono _ _ Hup).
    unfold maxDepthPcts in *. rewrite created_app, omap_app.
    split; [| split; [| lra]].
    + apply StronglySorted_app_2; [| | done].
      * intros q1 q2 Hq1 Hq2. rewrite Forall_forall in Hrec, Hlow.
        rewrite (Hrec q1 Hq1). by apply Hlow.
      * by eapply sorted_const.
    + apply Forall_app. split.
      * eapply Forall_impl; [exact Hrec |]. by intros q ->.
      * eapply Forall_impl; [exact Hlow |]. cbn. intros q Hq. lra.
Qed.

End Depth.

Section ScrollAndHeartbeat.

Implicit Types (L : Logger) (env : Env) (ev : Event).

Lemma scroll_or_heartbeat_no_setup (trace : list (Env * Event)) :
  Forall (λ x, is_scroll_or_heartbeat x.2 = true) trace →
  Forall (λ x, is_setup x.2 = false) trace.
Proof.
  intros Htrace. eapply Forall_impl; [exact Htrace |].
  intros [env ev] Hev. cbn in *. by destruct ev.
Qed.

(** While the listeners are attached, every scroll and every heartbeat
    records one value. *)
Lemma run_records_each (trace : list (Env * Event)) L :
  Forall (λ x, is_scroll_or_heartbeat x.2 = true) trace →
  listening L = true →
  length (maxDepthPcts (run trace L).2) = length trace.
Proof.
  revert L. induction trace as [| [env ev] rest IH]; intros L Htrace Hon;
    [done |].
  apply Forall_cons in Htrace as [Hev Hrest]. cbn in Hev.
  rewrite run_cons. cbn [fst snd].
  unfold maxDepthPcts in *. rewrite created_app, omap_app, length_app.
  assert (Hone : length (omap maxDepthPct_of (created (step env ev L).2)) = 1%nat
                 ∧ listening (step env ev L).1 = true).
  { destruct ev; try discriminate Hev; cbn [step]; rewrite Hon.
    - fold (maxDepthPcts (onScroll env L).2).
      by rewrite (proj2 (onScroll_maxDepth env L)).
    - fold (maxDepthPcts (sampleTimer env L).2).
      by rewrite (proj2 (sampleTimer_maxDepth env L)). }
  destruct Hone as [-> Hon1]. rewrite (IH _ Hrest Hon1). done.
Qed.

End ScrollAndHeartbeat.

(** C8.  Over any sequence of scroll events and heartbeats, from any state
    and whatever the document reports at each of them, the [maxDepthPct]
    values recorded in the metas never decrease from one record to the
    next, and neither does the running maximum; while the listeners are
    attached, each of these events records one value. *)
Theorem maxDepth_never_decreases (L : Logger) (trace : list (Env * Event)) :
  Forall (λ x, is_scroll_or_heartbeat x.2 = true) trace →
  StronglySorted Qle (maxDepthPcts (run trace L).2)
  ∧ (maxDepthRef L <= maxDepthRef (run trace L).1)%Q
  ∧ (listening L = true →
     length (maxDepthPcts (run trace L).2) = length trace).
Proof.
  intros Htrace.
  destruct (run_maxDepth trace L (scroll_or_heartbeat_no_setup trace Htrace))
    as (Hsorted & _ & Hup).
  split; [exact Hsorted |]. split; [exact Hup |].
  by apply run_records_each.
Qed.

Lemma maxDepth_never_decreases_witness :
  maxDepthPcts (run scroll_burst two_queued).2
    = [5; 15; 15; 50]%Q
  ∧ StronglySorted Qle (maxDepthPcts (run scroll_burst two_queued).2).
Proof.
  split; [by vm_compute |].
  apply (maxDepth_never_decreases two_queued scroll_burst).
  by repeat constructor.
Defined.

(** ** Scenarios of the specification *)

(** A clean visit gives two records, [page_enter] and [page_exit], numbered
    1 and 2, the second with the dwell time; the flush of the cleanup sends
    both. *)
Example clean_visit :
  event <$> created clean_visit_effects = [page_enter; page_exit]
  ∧ seq <$> created clean_visit_effects = [1; 2]
  ∧ dwellMs <$> created clean_visit_effects = [None; Some 1500]
  ∧ batch_seqs clean_visit_effects = [[1; 2]].
Proof. by vm_compute. Qed.

(** A failed flush, then recovery: the three records reach the backend
    twice, both times in their order, and nothing is left behind. *)
Example failed_flush_then_recovery :
  batch_seqs recovery_run.2 = [[1; 2; 3]; [1; 2; 3]]
  ∧ queueRef recovery_run.1 = []
  ∧ pending recovery_run.1 = []
  ∧ flushingRef recovery_run.1 = false.
Proof. by vm_compute. Qed.

(** A tick during a send that has not ended sends nothing; the record
    queued meanwhile leaves with the next batch. *)
Example tick_while_in_flight :
  batch_seqs overlap_effects = [[3]].
Proof. by vm_compute. Qed.

(** A click on a tracked card, as the backend receives it. *)
Example click_record :
  seq <$> click_on_card = [3]
  ∧ action <$> click_on_card = [Some "aigs_card"]
  ∧ targetId <$> click_on_card = [Some "card-7"]
  ∧ pageSessionId <$> click_on_card = ["pg_1700000000000_k3x9qa"]
  ∧ sessionId <$> click_on_card = ["s_1700000000000_p0w2zm"]
  ∧ ((λ r, meta r !! "textSample") <$> click_on_card)
    = [Some (JS.VStr "AI summary of the topic")]
  ∧ ((λ r, meta r !! "x") <$> click_on_card) = [Some (JS.VNum 120)]
  ∧ ((λ r, meta r !! "visibility") <$> click_on_card)
    = [Some (JS.VStr "visible")].
Proof. by vm_compute. Qed.

(** Depths as they are printed. *)
Example depth_strings :
  depth_string (1234 # 100) = "12.34%"
  ∧ depth_string (5 # 1000) = "0.01%"
  ∧ depth_string 100 = "100.00%"
  ∧ depth_string 0 = "0.00%".
Proof. by vm_compute. Qed.

(** * Further properties of the hook *)

(** ** What each turn leaves alone *)

Section Frames.

Implicit Types (L : Logger) (env : Env) (ev : Event) (p : Partial).

Lemma flush_same_refs L : same_refs L (flush L).1.
Proof.
  unfold flush. destruct (flushingRef L); [by repeat split |].
  destruct (queueRef L); by repeat split.
Qed.

Lemma flush_resume_same_refs i o L : same_refs L (flush_resume i o L).
Proof.
  unfold flush_resume. destruct (pending L !! i); [| by repeat split].
  destruct (sendEvents_fulfilled o); by repeat split.
Qed.

(** Only a setup of the effect writes the configuration and the entry
    time. *)
Lemma step_keeps_entry env ev L :
  is_setup ev = false →
  config (step env ev L).1 = config L
  ∧ enterAtRef (step env ev L).1 = enterAtRef L.
Proof.
  intros Hev. destruct ev; try discriminate Hev; cbn [step];
    try (destruct (listening L); [| done]);
    try destruct changed; try destruct target; try done.
  - unfold onVisibilityChange. by destruct (String.eqb _ _).
  - destruct (flush_same_refs L) as (? & ? & _). done.
  - destruct (flush_resume_same_refs i outcome L) as (? & ? & _). done.
  - rewrite cleanup_eq. cbn [fst].
    destruct (flush_same_refs (set_listening false
                (push env (exit_partial env L) L).1)) as (-> & -> & _).
    done.
Qed.

Lemma run_keeps_entry (trace : list (Env * Event)) L :
  Forall (λ x, is_setup x.2 = false) trace →
  config (run trace L).1 = config L
  ∧ enterAtRef (run trace L).1 = enterAtRef L.
Proof.
  revert L. induction trace as [| [env ev] rest IH]; intros L Htrace; [done |].
  apply Forall_cons in Htrace as [Hev Hrest]. cbn in Hev.
  rewrite run_cons. cbn [fst].
  destruct (IH (step env ev L).1 Hrest) as [-> ->].
  by apply step_keeps_entry.
Qed.

(** Only the cleanup detaches the listeners, and only a setup attaches
    them. *)
Lemma step_keeps_listening env ev L :
  is_setup ev = false → is_cleanup ev = false →
  listening (step env ev L).1 = listening L.
Proof.
  intros Hs Hc. destruct ev; try discriminate; cbn [step];
    try (destruct (listening L) eqn:Hon; [| done]);
    try destruct changed; try destruct target; try done.
  - unfold onVisibilityChange. by destruct (String.eqb _ _).
  - destruct (flush_same_refs L) as (_ & _ & _ & _ & _ & _ & _ & Hsame).
    cbn [fst]. congruence.
  - destruct (flush_resume_same_refs i outcome L)
      as (_ & _ & _ & _ & _ & _ & _ & Hsame).
    cbn [fst]. congruence.
Qed.

(** The time of hiding is written by a visibility change that finds the
    document hidden, and by nothing else. *)
Lemma step_keeps_hiddenAt env ev L :
  hides (env, ev) = false →
  hiddenAtRef (step env ev L).1 = hiddenAtRef L.
Proof.
  intros Hev. destruct ev; cbn [step];
    try (destruct (listening L); [| done]);
    try destruct changed; try destruct target; try done.
  - unfold onVisibilityChange. unfold hides in Hev. cbn in Hev. by rewrite Hev.
  - by destruct (flush_same_refs L) as (_ & _ & ? & _).
  - by destruct (flush_resume_same_refs i outcome L) as (_ & _ & ? & _).
  - rewrite cleanup_eq. cbn [fst].
    by destruct (flush_same_refs (set_listening false
                   (push env (exit_partial env L) L).1)) as (_ & _ & -> & _).
Qed.

(** The last scroll position and time are written by the scroll listener,
    and by nothing else. *)
Lemma step_keeps_lastScroll env ev L :
  is_scroll ev = false →
  lastScrollTopRef (step env ev L).1 = lastScrollTopRef L
  ∧ lastScrollTsRef (step env ev L).1 = lastScrollTsRef L.
Proof.
  intros Hev. destruct ev; try discriminate Hev; cbn [step];
    try (destruct (listening L); [| done]);
    try destruct changed; try destruct target; try done.
  - unfold onVisibilityChange. by destruct (String.eqb _ _).
  - by destruct (flush_same_refs L) as (_ & _ & _ & _ & _ & ? & ? & _).
  - by destruct (flush_resume_same_refs i outcome L)
      as (_ & _ & _ & _ & _ & ? & ? & _).
  - rewrite cleanup_eq. cbn [fst].
    by destruct (flush_same_refs (set_listening false
                   (push env (exit_partial env L) L).1))
      as (_ & _ & _ & _ & _ & -> & -> & _).
Qed.

End Frames.

(** ** The life of the effect *)

Section Lifecycle.

Implicit Types (L : Logger) (env : Env) (ev : Event) (p : Partial).

Lemma run_keeps_listening (trace : list (Env * Event)) L :
  Forall (λ x, is_setup x.2 = false ∧ is_cleanup x.2 = false) trace →
  listening (run trace L).1 = listening L.
Proof.
  revert L. induction trace as [| [env ev] rest IH]; intros L Htrace; [done |].
  apply Forall_cons in Htrace as [[Hs Hc] Hrest]. cbn in Hs, Hc.
  rewrite run_cons. cbn [fst]. rewrite (IH _ Hrest).
  by apply step_keeps_listening.
Qed.

Lemma created_push env p L : created (push env p L).2 = [make_record env p L].
Proof. reflexivity. Qed.

Lemma created_cleanup env L :
  created (cleanup env L).2 = [make_record env (exit_partial env L) L].
Proof.
  rewrite cleanup_eq. cbn [snd].
  by rewrite created_app, flush_created, app_nil_r.
Qed.

Lemma created_handleUnload env L :
  created (handleUnload env L).2 = [exit_record env L].
Proof. reflexivity. Qed.

Lemma setup_listening env cfg L :
  listening (setup env cfg L).1 = true
  ∧ enterAtRef (setup env cfg L).1 = now env
  ∧ config (setup env cfg L).1 = cfg.
Proof. by repeat split. Qed.

(** The records of a turn that is no setup carry the configuration in
    force. *)
Lemma step_records_config env ev L :
  is_setup ev = false →
  Forall (λ r, page r = cfg_pageId (config L)
               ∧ condition r = cfg_condition (config L)
               ∧ participantId r = cfg_participantId (config L))
    (created (step env ev L).2).
Proof.
  intros Hev. destruct ev; try discriminate Hev; cbn [step];
    try (destruct (listening L); [| by constructor]);
    try destruct changed; try destruct target;
    try (by constructor); try (by repeat constructor).
  - unfold onVisibilityChange. rewrite created_push.
    destruct (String.eqb _ _); by repeat constructor.
  - rewrite flush_created. constructor.
  - rewrite created_cleanup. by repeat constructor.
Qed.

Lemma run_records_config (trace : list (Env * Event)) L :
  Forall (λ x, is_setup x.2 = false) trace →
  Forall (λ r, page r = cfg_pageId (config L)
               ∧ condition r = cfg_condition (config L)
               ∧ participantId r = cfg_participantId (config L))
    (created (run trace L).2).
Proof.
  revert L. induction trace as [| [env ev] rest IH]; intros L Htrace;
    [constructor |].
  apply Forall_cons in Htrace as [Hev Hrest]. cbn in Hev.
  rewrite run_cons. cbn [snd]. rewrite created_app. apply Forall_app. split.
  - by apply step_records_config.
  - specialize (IH (step env ev L).1 Hrest).
    by rewrite (proj1 (step_keeps_entry env ev L Hev)) in IH.
Qed.

(** Without its listeners and timers the hook does nothing. *)
Lemma silent_step env ev L :
  listening L = false → is_setup ev = false →
  (step env ev L).2 = []
  ∧ listening (step env ev L).1 = false
  ∧ ∃ front, queueRef (step env ev L).1 = front ++ queueRef L.
Proof.
  intros Hoff Hev. destruct ev; try discriminate Hev; cbn [step];
    rewrite ?Hoff; try (split; [done | split; [done | by exists []]]).
  cbn [fst snd]. split; [done |]. split.
  - destruct (flush_resume_same_refs i outcome L)
      as (_ & _ & _ & _ & _ & _ & _ & Hsame). congruence.
  - unfold flush_resume. destruct (pending L !! i) as [batch |]; [| by exists []].
    destruct (sendEvents_fulfilled outcome); [by exists [] | by exists batch].
Qed.

Lemma silent_run (trace : list (Env * Event)) L :
  listening L = false →
  Forall (λ x, is_setup x.2 = false) trace →
  (run trace L).2 = []
  ∧ listening (run trace L).1 = false
  ∧ ∃ front, queueRef (run trace L).1 = front ++ queueRef L.
Proof.
  revert L. induction trace as [| [env ev] rest IH]; intros L Hoff Htrace.
  - split; [done | split; [done | by exists []]].
  - apply Forall_cons in Htrace as [Hev Hrest]. cbn in Hev.
    rewrite run_cons. cbn [fst snd].
    destruct (silent_step env ev L Hoff Hev) as (-> & Hoff1 & front1 & Hq1).
    destruct (IH _ Hoff1 Hrest) as (-> & Hoff2 & front2 & Hq2).
    split; [done |]. split; [done |].
    exists (front2 ++ front1). by rewrite Hq2, Hq1, app_assoc.
Qed.

End Lifecycle.

(** X1.  The dwell time counts from the latest setup of the effect.  After
    a setup at clock reading [t0] and any events that neither set the
    effect up again nor clean it up, the [page_exit] record of a cleanup
    and the one of the unload guard, taken at clock reading [t1], both
    carry [dwellMs = t1 - t0]: the first render's clock reading and the
    events in between play no part. *)
Theorem dwell_counts_from_setup (L : Logger) (env0 env1 : Env)
    (cfg : LoggerConfig) (trace : list (Env * Event)) (beacon_queued : bool) :
  listening L = false →
  Forall (λ x, is_setup x.2 = false ∧ is_cleanup x.2 = false) trace →
  let L1 := (step env0 (EffectSetup cfg) L).1 in
  let L2 := (run trace L1).1 in
  dwellMs <$> created (step env1 EffectCleanup L2).2
    = [Some (now env1 - now env0)]
  ∧ dwellMs <$> created (step env1 (Unload beacon_queued) L2).2
    = [Some (now env1 - now env0)].
Proof.
  intros Hoff Htrace. cbv zeta. cbn [step]. rewrite Hoff.
  destruct (setup_listening env0 cfg L) as (Hon & Henter & _).
  assert (Hno_setup : Forall (λ x : Env * Event, is_setup x.2 = false) trace).
  { eapply Forall_impl; [exact Htrace |]. by intros x [? _]. }
  destruct (run_keeps_entry trace (setup env0 cfg L).1 Hno_setup) as [_ Hkept].
  rewrite (run_keeps_listening trace _ Htrace), Hon.
  rewrite created_cleanup, created_handleUnload, !list_fmap_singleton.
  cbn [dwellMs make_record exit_record exit_partial p_dwellMs].
  by rewrite Hkept, Henter.
Qed.

Lemma dwell_counts_from_setup_witness :
  dwellMs <$> created
    (step (browser_at 9000 0) EffectCleanup
       (run scroll_burst
          (step (browser_at 5 0) (EffectSetup login_cfg) fresh_logger).1).1).2
  = [Some 8995].
Proof.
  destruct (dwell_counts_from_setup fresh_logger (browser_at 5 0)
              (browser_at 9000 0) login_cfg scroll_burst true) as [Hexit _];
    [reflexivity | by repeat constructor |].
  by rewrite Hexit.
Defined.

(** X2.  Every record carries the page id, the condition and the
    participant id of the configuration that the latest setup of the effect
    captured: through any run without a new setup, all records constructed,
    the [page_exit] of the cleanup and of the unload guard included, show
    the same three values. *)
Theorem records_carry_config (L : Logger) (env0 : Env) (cfg : LoggerConfig)
    (trace : list (Env * Event)) :
  listening L = false →
  Forall (λ x, is_setup x.2 = false) trace →
  let L1 := (step env0 (EffectSetup cfg) L).1 in
  Forall (λ r, page r = cfg_pageId cfg
               ∧ condition r = cfg_condition cfg
               ∧ participantId r = cfg_participantId cfg)
    (created (step env0 (EffectSetup cfg) L).2 ++ created (run trace L1).2).
Proof.
  intros Hoff Htrace. cbv zeta. cbn [step]. rewrite Hoff.
  apply Forall_app. split; [by repeat constructor |].
  exact (run_records_config trace (setup env0 cfg L).1 Htrace).
Qed.

Lemma records_carry_config_witness :
  Forall (λ r, page r = "login" ∧ condition r = "prelogin"
               ∧ participantId r = "p001")
    (created (step (browser_at 5 0) (EffectSetup login_cfg) fresh_logger).2
     ++ created
          (run (scroll_burst ++ [(browser_at 9000 0, EffectCleanup)])
             (step (browser_at 5 0) (EffectSetup login_cfg) fresh_logger).1).2).
Proof.
  apply (records_carry_config fresh_logger (browser_at 5 0) login_cfg
           (scroll_burst ++ [(browser_at 9000 0, EffectCleanup)])).
  - reflexivity.
  - by repeat constructor.
Defined.

(** ** Delivery *)

Section Delivery.

Implicit Types (L : Logger) (env : Env) (ev : Event) (p : Partial).

Lemma fetched_app (a b : list Effect) : fetched (a ++ b) = fetched a ++ fetched b.
Proof. apply omap_app. Qed.

Lemma sent_app (a b : list Effect) : sent (a ++ b) = sent a ++ sent b.
Proof. unfold sent. by rewrite sends_app, concat_app. Qed.

(** What [flush] posts is the whole queue, and only when nothing is in
    flight. *)
Lemma flush_fetched L (batch : list EventPayload) :
  batch ∈ fetched (flush L).2 →
  batch = queueRef L ∧ batch ≠ [] ∧ flushingRef L = false
  ∧ queueRef (flush L).1 = []
  ∧ pending (flush L).1 = pending L ++ [batch].
Proof.
  unfold flush. destruct (flushingRef L); [by intros ?%not_elem_of_nil |].
  destruct (queueRef L) as [| r rest] eqn:Hq; [by intros ?%not_elem_of_nil |].
  cbn. intros ->%list_elem_of_singleton. by repeat split.
Qed.

Lemma push_fetched env p L : fetched (push env p L).2 = [].
Proof. reflexivity. Qed.

Lemma wf_before_final_flush env L :
  wf L → wf (set_listening false (push env (exit_partial env L) L).1).
Proof.
  intros HL. eapply wf_same_core; [| by apply (wf_push env), HL].
  by repeat split.
Qed.

Lemma wf_queue_sorted L : wf L → StronglySorted Z.lt (seq <$> queueRef L).
Proof.
  intros HL. pose proof (wf_sorted L HL) as Hs. unfold waiting in Hs.
  rewrite fmap_app in Hs. by apply StronglySorted_app_1_r in Hs.
Qed.

End Delivery.

(** X3.  Whatever turn of the event loop posts a batch with [fetch], in any
    reachable state: the batch is not empty, its records are in strictly
    increasing [seq] order, no other post was in flight when it left, and
    it took the whole queue with it, leaving the queue empty and the batch
    as the one post in flight. *)
Theorem fetch_batches_ordered (L : Logger) (env : Env) (ev : Event)
    (batch : list EventPayload) :
  reachable L →
  batch ∈ fetched (step env ev L).2 →
  batch ≠ []
  ∧ StronglySorted Z.lt (seq <$> batch)
  ∧ flushingRef L = false
  ∧ queueRef (step env ev L).1 = []
  ∧ pending (step env ev L).1 = [batch].
Proof.
  intros HL%reachable_wf.
  assert (Hflush : ∀ L0, wf L0 → batch ∈ fetched (flush L0).2 →
            batch ≠ [] ∧ StronglySorted Z.lt (seq <$> batch)
            ∧ flushingRef L0 = false
            ∧ queueRef (flush L0).1 = [] ∧ pending (flush L0).1 = [batch]).
  { intros L0 HL0 Hin.
    destruct (flush_fetched L0 batch Hin) as (-> & Hne & Hidle & Hq & Hp).
    split; [done |]. split; [by apply wf_queue_sorted |].
    split; [done |]. split; [done |].
    destruct (wf_single L0 HL0) as [[_ Hnone] | [? _]]; [| congruence].
    by rewrite Hp, Hnone. }
  destruct (step_cases env ev L)
    as [-> | [(p & L1 & Hcore & _ & ->) | [-> | [(i & o & _ & ->) | [(b & _ & ->) | ->]]]]].
  - by intros ?%not_elem_of_nil.
  - by intros ?%not_elem_of_nil.
  - by apply Hflush.
  - by intros ?%not_elem_of_nil.
  - by intros ?%not_elem_of_nil.
  - rewrite cleanup_eq. cbn [fst snd]. rewrite fetched_app, push_fetched.
    cbn [app]. intros Hin.
    destruct (Hflush _ (wf_before_final_flush env L HL) Hin)
      as (Hne & Hsorted & Hidle & Hq & Hp).
    by repeat split.
Qed.

Lemma fetch_batches_ordered_witness :
  queueRef two_queued ≠ []
  ∧ StronglySorted Z.lt (seq <$> queueRef two_queued)
  ∧ flushingRef two_queued = false
  ∧ queueRef (step (browser_at 400 0) FlushTick two_queued).1 = []
  ∧ pending (step (browser_at 400 0) FlushTick two_queued).1
    = [queueRef two_queued].
Proof.
  apply (fetch_batches_ordered two_queued (browser_at 400 0) FlushTick
           (queueRef two_queued) two_queued_reachable).
  by vm_compute; left.
Defined.

(** X4.  A cleanup that comes while a post is in flight strands its
    [page_exit] record.  The final [flush] is skipped, so the cleanup sends
    nothing; with the timers cancelled and the listeners removed, no later
    event sends anything either, until the effect is set up again; and all
    that time the [page_exit] record sits in the queue. *)
Theorem cleanup_in_flight_strands_exit (L : Logger) (env : Env)
    (trace : list (Env * Event)) :
  reachable L →
  listening L = true →
  flushingRef L = true →
  Forall (λ x, is_setup x.2 = false) trace →
  let r := make_record env (exit_partial env L) L in
  let L1 := (step env EffectCleanup L).1 in
  (step env EffectCleanup L).2 = [Created r]
  ∧ event r = page_exit
  ∧ (run trace L1).2 = []
  ∧ r ∈ queueRef (run trace L1).1.
Proof.
  intros _ Hon Hbusy Htrace. cbv zeta. cbn [step]. rewrite Hon.
  rewrite cleanup_eq. cbn [fst snd].
  rewrite (flush_busy (set_listening false _)) by done. cbn [fst snd].
  split; [reflexivity |]. split; [reflexivity |].
  destruct (silent_run trace
              (set_listening false (push env (exit_partial env L) L).1)
              eq_refl Htrace) as (Hnone & _ & front & Hq).
  split; [exact Hnone |].
  rewrite Hq. apply elem_of_app. right. cbn. apply elem_of_app. right.
  by left.
Qed.

Lemma cleanup_in_flight_strands_exit_witness :
  let r := make_record (browser_at 500 500)
             (exit_partial (browser_at 500 500) one_in_flight) one_in_flight in
  let L1 := (step (browser_at 500 500) EffectCleanup one_in_flight).1 in
  let later := [(browser_at 520 500, Settle 0 (Responded 200));
                (browser_at 900 500, FlushTick);
                (browser_at 950 500, Unload true)] in
  (run later L1).2 = [] ∧ r ∈ queueRef (run later L1).1.
Proof.
  cbv zeta.
  eapply (cleanup_in_flight_strands_exit one_in_flight (browser_at 500 500)).
  - apply one_in_flight_reachable.
  - by vm_compute.
  - by vm_compute.
  - by repeat constructor.
Defined.

(** X5.  A change of page inside one instance of the hook (the effect is
    cleaned up and set up again with a new configuration) gives exactly two
    records: a [page_exit] for the old page and a [page_enter] for the new
    one, numbered consecutively after the records before them.  Both carry
    the instance's one page-session id and session id: the page-session id
    is not renewed by the change of page. *)
Theorem page_switch (L : Logger) (env1 env2 : Env) (cfg : LoggerConfig) :
  listening L = true →
  let run2 := run [(env1, EffectCleanup); (env2, EffectSetup cfg)] L in
  ∃ x n,
    created run2.2 = [x; n]
    ∧ event x = page_exit ∧ page x = cfg_pageId (config L)
    ∧ dwellMs x = Some (now env1 - enterAtRef L)
    ∧ event n = page_enter ∧ page n = cfg_pageId cfg
    ∧ seq x = seqRef L + 1 ∧ seq n = seqRef L + 2
    ∧ pageSessionId x = pageSessionIdRef L
    ∧ pageSessionId n = pageSessionIdRef L
    ∧ sessionId n = sessionId x
    ∧ listening run2.1 = true
    ∧ enterAtRef run2.1 = now env2
    ∧ pageSessionIdRef run2.1 = pageSessionIdRef L.
Proof.
  intros Hon. cbv zeta. rewrite !run_cons. cbn [run fst snd].
  rewrite app_nil_r, created_app.
  assert (Hoff : listening (step env1 EffectCleanup L).1 = false).
  { cbn [step]. rewrite Hon, cleanup_eq. cbn [fst].
    by destruct (flush_same_refs (set_listening false
                   (push env1 (exit_partial env1 L) L).1))
      as (_ & _ & _ & _ & _ & _ & _ & ->). }
  destruct (step_ids env1 EffectCleanup L) as (Hpg & Hsid & _).
  assert (Hseq : seqRef (step env1 EffectCleanup L).1 = seqRef L + 1).
  { cbn [step]. rewrite Hon, cleanup_eq. cbn [fst]. by rewrite flush_seqRef. }
  assert (Hexit : created (step env1 EffectCleanup L).2
                  = [make_record env1 (exit_partial env1 L) L]).
  { cbn [step]. rewrite Hon. apply created_cleanup. }
  destruct (step env1 EffectCleanup L) as [L1 effs1]. cbn [fst snd] in *.
  rewrite Hexit. cbn [step]. rewrite Hoff.
  unfold setup. rewrite created_push.
  eexists _, _. split; [reflexivity |].
  cbn. rewrite Hpg, Hsid, Hseq. repeat split; lia.
Qed.

Lemma page_switch_witness :
  let run2 := run [(browser_at 3000 0, EffectCleanup);
                   (browser_at 3001 0,
                    EffectSetup
                      {| cfg_pageId := "smart_detail";
                         cfg_condition := "lab_default";
                         cfg_participantId := "p001";
                         cfg_userProfile := None |})] two_queued in
  ∃ x n,
    created run2.2 = [x; n]
    ∧ page x = cfg_pageId (config two_queued) ∧ page n = "smart_detail"
    ∧ pageSessionId n = pageSessionId x.
Proof.
  cbv zeta.
  destruct (page_switch two_queued (browser_at 3000 0) (browser_at 3001 0)
              {| cfg_pageId := "smart_detail"; cfg_condition := "lab_default";
                 cfg_participantId := "p001"; cfg_userProfile := None |})
    as (x & n & Hcreated & _ & Hx & _ & _ & Hn & _ & _ & Hpx & Hpn & _);
    [by vm_compute |].
  exists x, n. rewrite Hpx, Hpn. by repeat split.
Defined.

(** X6.  The unload guard leaves the batch in flight out of its beacon.
    When it runs while a post is in flight, no record of that batch is in
    the beacon; if the post is then rejected, the batch comes back as the
    whole queue (and nothing is left to send it, short of a new tick); if
    the post is answered, the queue stays empty. *)
Theorem unload_in_flight (L : Logger) (env env' : Env)
    (batch : list EventPayload) (beacon_queued : bool) :
  reachable L →
  listening L = true →
  pending L = [batch] →
  let L1 := (step env (Unload beacon_queued) L).1 in
  sends (step env (Unload beacon_queued) L).2
    = [exit_record env L :: queueRef L]
  ∧ Forall (λ r, seq r ∉ seq <$> (exit_record env L :: queueRef L)) batch
  ∧ (∀ reason,
       queueRef (step env' (Settle 0 (Rejected reason)) L1).1 = batch)
  ∧ (∀ status,
       queueRef (step env' (Settle 0 (Responded status)) L1).1 = []).
Proof.
  intros HL%reachable_wf Hon Hone. cbv zeta. cbn [step]. rewrite Hon.
  split; [reflexivity |]. split.
  - pose proof (wf_sorted L HL) as Hsorted. pose proof (wf_bound L HL) as Hbound.
    unfold waiting in Hsorted, Hbound. rewrite Hone in Hsorted, Hbound.
    cbn [concat] in Hsorted, Hbound. rewrite app_nil_r in Hsorted, Hbound.
    rewrite fmap_app in Hsorted. apply StronglySorted_app in Hsorted as (Hlt & _ & _).
    apply Forall_app in Hbound as [Hbatch _].
    rewrite Forall_forall in Hbatch. apply Forall_forall. intros r Hr.
    rewrite fmap_cons. intros [Heq | Hin]%elem_of_cons.
    + specialize (Hbatch r Hr). cbn in Heq, Hbatch. lia.
    + assert (seq r < seq r); [| lia].
      apply Hlt; [by apply list_elem_of_fmap_2 | done].
  - cbn [handleUnload fst]. split.
    + intros reason. by rewrite (flush_resume_rejected _ batch), app_nil_r.
    + intros status. by rewrite (flush_resume_responded _ batch).
Qed.

Lemma unload_in_flight_witness :
  let L1 := (step (browser_at 470 500) (Unload true) one_in_flight).1 in
  batch_seqs (step (browser_at 470 500) (Unload true) one_in_flight).2
    = [[4; 3]]
  ∧ queueRef (step (browser_at 480 500)
                (Settle 0 (Rejected "TypeError: Failed to fetch")) L1).1
    = queueRef two_queued.
Proof.
  cbv zeta. split; [by vm_compute |].
  destruct (unload_in_flight one_in_flight (browser_at 470 500)
              (browser_at 480 500) (queueRef two_queued) true
              one_in_flight_reachable) as (_ & _ & Hrej & _);
    [by vm_compute | apply one_in_flight_pending |].
  apply Hrej.
Defined.

(** X7.  The unload guard is registered for [beforeunload] and for
    [pagehide]; when both fire, each builds its own [page_exit] record.
    The first beacon carries the first record and the queue, the second
    carries the second record alone, numbered one above the first. *)
Theorem unload_twice (L : Logger) (env1 env2 : Env) (b1 b2 : bool) :
  listening L = true →
  let effs := (run [(env1, Unload b1); (env2, Unload b2)] L).2 in
  ∃ x1 x2,
    sends effs = [x1 :: queueRef L; [x2]]
    ∧ created effs = [x1; x2]
    ∧ event x1 = page_exit ∧ event x2 = page_exit
    ∧ seq x1 = seqRef L + 1 ∧ seq x2 = seqRef L + 2
    ∧ dwellMs x1 = Some (now env1 - enterAtRef L)
    ∧ dwellMs x2 = Some (now env2 - enterAtRef L).
Proof.
  intros Hon. cbv zeta. cbn [run step]. rewrite Hon. cbn [handleUnload].
  cbn [listening set_queue set_seq]. rewrite Hon.
  eexists _, _. split; [reflexivity |]. split; [reflexivity |].
  cbn. repeat split; lia.
Qed.

Lemma unload_twice_witness :
  batch_seqs (run [(browser_at 700 0, Unload true);
                   (browser_at 701 0, Unload true)] two_queued).2
  = [[3; 1; 2]; [4]].
Proof.
  destruct (unload_twice two_queued (browser_at 700 0) (browser_at 701 0)
              true true) as (x1 & x2 & Hsends & _ & _ & _ & Hs1 & Hs2 & _);
    [by vm_compute |].
  unfold batch_seqs. rewrite Hsends. cbn [fmap list_fmap].
  rewrite Hs1, Hs2, two_queued_seqs. by vm_compute.
Defined.

Section Accounting.

Implicit Types (L : Logger) (env : Env) (ev : Event) (p : Partial).
Implicit Types (S : list EventPayload) (r : EventPayload).

Lemma accounts_push S env p L :
  flights_sent L S → accounts S L (push env p L).
Proof.
  intros Hsent. split.
  - intros r Hr. left. rewrite waiting_push. apply elem_of_app.
    destruct Hr as [Hr | Hr]; [by left | by right].
  - intros r Hr. apply elem_of_app. left. by apply Hsent.
Qed.

Lemma accounts_flush S L :
  flights_sent L S → accounts S L (flush L).
Proof.
  intros Hsent. unfold flush. destruct (flushingRef L).
  { split; [| intros r Hr; apply elem_of_app; left; by apply Hsent].
    intros r [Hr | Hr]; [by left | by apply not_elem_of_nil in Hr]. }
  destruct (queueRef L) as [| q rest] eqn:Hq.
  { split; [| intros r Hr; apply elem_of_app; left; by apply Hsent].
    intros r [Hr | Hr]; [| by apply not_elem_of_nil in Hr].
    left. unfold waiting in *. cbn. by rewrite Hq in Hr. }
  split.
  - intros r [Hr | Hr]; [| by apply not_elem_of_nil in Hr].
    left. unfold waiting in *. cbn [fst pending queueRef set_pending set_flushing set_queue].
    rewrite concat_app, Hq in *. cbn [concat]. by rewrite !app_nil_r.
  - intros r. cbn [fst snd pending set_pending set_flushing set_queue sendEvents].
    rewrite concat_app. cbn [concat]. rewrite app_nil_r.
    intros [Hr | Hr]%elem_of_app; apply elem_of_app.
    + left. by apply Hsent.
    + right. unfold sent. cbn. by rewrite app_nil_r.
Qed.

Lemma accounts_flush_resume S i o L :
  wf L → flights_sent L S → accounts S L (flush_resume i o L, []).
Proof.
  intros HL Hsent. unfold flush_resume.
  destruct (pending L !! i) as [batch |] eqn:Hi.
  2:{ split; [| intros r Hr; apply elem_of_app; left; by apply Hsent].
      intros r [Hr | Hr]; [by left | by apply not_elem_of_nil in Hr]. }
  destruct (pending_lookup L i batch HL Hi) as (-> & Hone & _ & _).
  unfold flights_sent in Hsent. rewrite Hone in Hsent.
  cbn [concat] in Hsent. setoid_rewrite app_nil_r in Hsent.
  rewrite Hone. cbn [delete list_delete].
  split.
  - intros r [Hr | Hr]; [| by apply not_elem_of_nil in Hr].
    unfold waiting in Hr. rewrite Hone in Hr. cbn [concat] in Hr.
    rewrite app_nil_r in Hr. apply elem_of_app in Hr as [Hr | Hr].
    + destruct (sendEvents_fulfilled o).
      * right. left. by apply Hsent.
      * left. unfold waiting. cbn. apply elem_of_app. by left.
    + left. destruct (sendEvents_fulfilled o); unfold waiting; cbn;
        [done | apply elem_of_app; by right].
  - intros r Hr. destruct (sendEvents_fulfilled o); cbn in Hr;
      by apply not_elem_of_nil in Hr.
Qed.

Lemma accounts_handleUnload S env L :
  flights_sent L S → accounts S L (handleUnload env L).
Proof.
  intros Hsent. split.
  - intros r Hr. cbn [handleUnload fst snd].
    assert (Hbeacon : ∀ x, x ∈ exit_record env L :: queueRef L →
              x ∈ sent [Created (exit_record env L);
                        Beacon (exit_record env L :: queueRef L)]).
    { intros x Hx. unfold sent. cbn. by rewrite app_nil_r. }
    destruct Hr as [Hr | Hr].
    + unfold waiting in Hr. apply elem_of_app in Hr as [Hr | Hr].
      * left. unfold waiting. cbn. apply elem_of_app. by left.
      * right. right. apply Hbeacon. by right.
    + right. right. apply Hbeacon. cbn in Hr.
      apply list_elem_of_singleton in Hr as ->. by left.
  - intros r Hr. apply elem_of_app. left. by apply Hsent.
Qed.

(** Two transitions in a row. *)
Lemma accounts_then S L (out1 out2 : Logger * list Effect) :
  accounts S L out1 →
  accounts (S ++ sent out1.2) out1.1 out2 →
  accounts S L (out2.1, out1.2 ++ out2.2).
Proof.
  intros [Hkeep1 Hsent1] [Hkeep2 Hsent2]. unfold accounts. cbn [fst snd].
  split.
  - intros r Hr. rewrite created_app in Hr. rewrite sent_app.
    assert (Hmid : r ∈ waiting out1.1 ∨ r ∈ S ∨ r ∈ sent out1.2
                   ∨ r ∈ created out2.2).
    { destruct Hr as [Hr | [Hr | Hr]%elem_of_app].
      - destruct (Hkeep1 r (or_introl Hr)) as [? | [? | ?]]; auto.
      - destruct (Hkeep1 r (or_intror Hr)) as [? | [? | ?]]; auto.
      - auto. }
    rewrite elem_of_app.
    destruct Hmid as [Hw | [Hs | [Hs | Hc]]]; [| by auto | by auto |].
    + destruct (Hkeep2 r (or_introl Hw)) as [? | [[? | ?]%elem_of_app | ?]];
        auto.
    + destruct (Hkeep2 r (or_intror Hc)) as [? | [[? | ?]%elem_of_app | ?]];
        auto.
  - intros r Hr. rewrite sent_app, app_assoc. by apply Hsent2.
Qed.

Lemma accounts_same_waiting S L L1 (out : Logger * list Effect) :
  waiting L1 = waiting L → accounts S L1 out → accounts S L out.
Proof. intros Hw [Hkeep Hsent]. split; [| done]. intros r. rewrite <- Hw. apply Hkeep. Qed.

Lemma accounts_step S env ev L :
  wf L → flights_sent L S → accounts S L (step env ev L).
Proof.
  intros HL Hsent.
  destruct (step_cases env ev L)
    as [-> | [(p & L1 & Hcore & _ & ->) | [-> | [(i & o & _ & ->) | [(b & _ & ->) | ->]]]]].
  - split; [| intros r Hr; apply elem_of_app; left; by apply Hsent].
    intros r [Hr | Hr]; [by left | by apply not_elem_of_nil in Hr].
  - destruct Hcore as (_ & Hq & Hp & _).
    apply (accounts_same_waiting S L L1); [unfold waiting; by rewrite Hq, Hp |].
    apply accounts_push. unfold flights_sent. by rewrite Hp.
  - by apply accounts_flush.
  - by apply accounts_flush_resume.
  - by apply accounts_handleUnload.
  - rewrite cleanup_eq.
    apply (accounts_then S L (push env (exit_partial env L) L)
             (flush (set_listening false (push env (exit_partial env L) L).1))).
    + by apply accounts_push.
    + apply (accounts_same_waiting _ _
               (set_listening false (push env (exit_partial env L) L).1));
        [reflexivity |].
      apply accounts_flush. intros r Hr. apply elem_of_app. left.
      by apply Hsent.
Qed.

Lemma accounts_run S (trace : list (Env * Event)) L :
  wf L → flights_sent L S → accounts S L (run trace L).
Proof.
  revert S L. induction trace as [| [env ev] rest IH]; intros S L HL Hsent.
  - split; [| intros r Hr; apply elem_of_app; left; by apply Hsent].
    intros r [Hr | Hr]; [by left | by apply not_elem_of_nil in Hr].
  - rewrite run_cons.
    apply (accounts_then S L (step env ev L) (run rest (step env ev L).1)).
    + by apply accounts_step.
    + apply IH; [by apply wf_step |].
      by destruct (accounts_step S env ev L HL Hsent) as [_ ?].
Qed.

Lemma elem_of_concat (r : EventPayload) (batches : list (list EventPayload)) :
  r ∈ concat batches ↔ ∃ b, b ∈ batches ∧ r ∈ b.
Proof.
  induction batches as [| b0 rest IH]; cbn [concat].
  - split; [by intros ?%not_elem_of_nil | by intros (b & ?%not_elem_of_nil & _)].
  - rewrite elem_of_app, IH. split.
    + intros [Hr | (b & Hb & Hr)].
      * exists b0. split; [by left | done].
      * exists b. split; [by right | done].
    + intros (b & [-> | Hb]%elem_of_cons & Hr); [by left |].
      right. by exists b.
Qed.

(** What is in flight was posted with [fetch]. *)
Lemma flight_fetched_flush (F : list (list EventPayload)) L :
  (∀ b, b ∈ pending L → b ∈ F) →
  ∀ b, b ∈ pending (flush L).1 → b ∈ F ++ fetched (flush L).2.
Proof.
  intros Hin b. unfold flush. destruct (flushingRef L).
  { cbn [fst snd]. intros Hb. apply elem_of_app. left. by apply Hin. }
  destruct (queueRef L) as [| q rest].
  { cbn. intros Hb. apply elem_of_app. left. by apply Hin. }
  cbn [fst snd pending set_pending set_flushing set_queue sendEvents fetched omap
       list_omap].
  intros [Hb | Hb]%elem_of_app; apply elem_of_app.
  - left. by apply Hin.
  - by right.
Qed.

Lemma flight_fetched_step (F : list (list EventPayload)) env ev L :
  wf L →
  (∀ b, b ∈ pending L → b ∈ F) →
  ∀ b, b ∈ pending (step env ev L).1 → b ∈ F ++ fetched (step env ev L).2.
Proof.
  intros HL Hin b.
  destruct (step_cases env ev L)
    as [-> | [(p & L1 & Hcore & _ & ->) | [-> | [(i & o & _ & ->) | [(u & _ & ->) | ->]]]]].
  - cbn. intros Hb. apply elem_of_app. left. by apply Hin.
  - destruct Hcore as (_ & _ & Hp & _). cbn. rewrite Hp.
    intros Hb. apply elem_of_app. left. by apply Hin.
  - by apply flight_fetched_flush.
  - cbn [fst snd]. unfold flush_resume.
    destruct (pending L !! i) as [batch |] eqn:Hi.
    + destruct (pending_lookup L i batch HL Hi) as (-> & Hone & _ & _).
      rewrite Hone. destruct (sendEvents_fulfilled o); cbn;
        by intros ?%not_elem_of_nil.
    + intros Hb. apply elem_of_app. left. by apply Hin.
  - cbn. intros Hb. apply elem_of_app. left. by apply Hin.
  - rewrite cleanup_eq. cbn [fst snd]. rewrite fetched_app, push_fetched.
    cbn [app].
    by apply (flight_fetched_flush F
                (set_listening false (push env (exit_partial env L) L).1)).
Qed.

Lemma flight_fetched_run (F : list (list EventPayload))
    (trace : list (Env * Event)) L :
  wf L →
  (∀ b, b ∈ pending L → b ∈ F) →
  ∀ b, b ∈ pending (run trace L).1 → b ∈ F ++ fetched (run trace L).2.
Proof.
  revert F L. induction trace as [| [env ev] rest IH]; intros F L HL Hin b.
  - cbn. intros Hb. apply elem_of_app. left. by apply Hin.
  - rewrite run_cons. cbn [fst snd]. rewrite fetched_app, app_assoc.
    apply IH; [by apply wf_step |]. by apply flight_fetched_step.
Qed.

End Accounting.

(** X8.  No record is dropped before it has been handed to a transport.
    After any run from the first render, every record the hook constructed
    either still waits (in the queue or in the batch in flight) or was part
    of a batch given to [fetch] or to [sendBeacon]; and every batch in
    flight is one of the batches that were given to [fetch], so that every
    record in flight was given to [fetch]. *)
Theorem records_accounted (storage : gmap string string) (renv : RenderEnv)
    (cfg : LoggerConfig) (trace : list (Env * Event)) :
  let L0 := (useExperimentLogger storage renv cfg).2 in
  let L := (run trace L0).1 in
  let effs := (run trace L0).2 in
  Forall (λ r, r ∈ waiting L ∨ r ∈ sent effs) (created effs)
  ∧ Forall (λ b, b ∈ fetched effs) (pending L)
  ∧ Forall (λ r, r ∈ concat (fetched effs)) (concat (pending L)).
Proof.
  cbv zeta.
  assert (Hnone : pending (useExperimentLogger storage renv cfg).2 = []).
  { unfold useExperimentLogger. by destruct (resolve_session _ _). }
  assert (Hbatches : ∀ b,
            b ∈ pending (run trace (useExperimentLogger storage renv cfg).2).1 →
            b ∈ fetched (run trace (useExperimentLogger storage renv cfg).2).2).
  { intros b Hb.
    apply (flight_fetched_run [] trace _ (wf_render storage renv cfg)); [| done].
    intros b'. rewrite Hnone. by intros ?%not_elem_of_nil. }
  destruct (accounts_run [] trace (useExperimentLogger storage renv cfg).2)
    as [Hkeep _].
  - apply wf_render.
  - intros r Hr. rewrite Hnone in Hr. by apply not_elem_of_nil in Hr.
  - split; [| split]; apply Forall_forall.
    + intros r Hr.
      destruct (Hkeep r (or_intror Hr)) as [? | [?%not_elem_of_nil | ?]];
        by auto.
    + exact Hbatches.
    + intros r (b & Hb & Hr)%elem_of_concat.
      apply elem_of_concat. exists b. split; [by apply Hbatches | done].
Qed.

Section Turns.

Implicit Types (L : Logger) (env : Env) (ev : Event).

Lemma flush_sends_le L : (length (sends (flush L).2) ≤ 1)%nat.
Proof.
  unfold flush. destruct (flushingRef L); [cbn; lia |].
  destruct (queueRef L); cbn; lia.
Qed.

End Turns.

(** X22.  One turn of the event loop, whatever the event, constructs at most
    one record and hands at most one batch to a transport. *)
Theorem one_record_one_send_per_turn (L : Logger) (env : Env) (ev : Event) :
  (length (created (step env ev L).2) ≤ 1)%nat
  ∧ (length (sends (step env ev L).2) ≤ 1)%nat.
Proof.
  split.
  - destruct (step_created env ev L) as [[-> _] | (r & -> & _)]; cbn; lia.
  - destruct (step_cases env ev L)
      as [-> | [(p & L1 & _ & _ & ->) | [-> | [(i & o & _ & ->) | [(b & _ & ->) | ->]]]]];
      try (cbn; lia).
    + apply flush_sends_le.
    + rewrite cleanup_eq. cbn [snd]. rewrite sends_app. cbn [push snd sends omap].
      apply flush_sends_le.
Qed.

(** X23.  In every reachable state the records that wait for delivery, those
    of the batch in flight followed by those of the queue, are in strictly
    increasing [seq] order, and none is numbered above the counter: the
    queue is always in the order of construction, also after a batch has
    been put back. *)
Theorem waiting_records_ordered (L : Logger) :
  reachable L →
  StronglySorted Z.lt (seq <$> waiting L)
  ∧ StronglySorted Z.lt (seq <$> queueRef L)
  ∧ Forall (λ r, seq r ≤ seqRef L) (waiting L).
Proof.
  intros HL%reachable_wf. split; [apply (wf_sorted L HL) |].
  split; [by apply wf_queue_sorted | apply (wf_bound L HL)].
Qed.

Lemma waiting_records_ordered_witness :
  StronglySorted Z.lt (seq <$> waiting one_in_flight)
  ∧ seq <$> waiting one_in_flight = [1; 2; 3].
Proof.
  split; [| by vm_compute].
  apply (waiting_records_ordered one_in_flight one_in_flight_reachable).
Defined.

(** ** The running maximum, continued *)

Section RunningMaximum.

Implicit Types (L : Logger) (env : Env) (ev : Event).

Lemma Qmax_cases (a b : Q) : Qmax a b = a ∨ Qmax a b = b.
Proof.
  unfold Qmax, GenericMinMax.gmax. destruct (a ?= b)%Q; auto.
Qed.

Lemma scroll_or_heartbeat_step env ev L :
  is_scroll_or_heartbeat ev = true → listening L = true →
  maxDepthRef (step env ev L).1
    = Qmax (maxDepthRef L) (depthPct (getScrollMetrics (scroll_dom env)))
  ∧ listening (step env ev L).1 = true.
Proof.
  intros Hev Hon. destruct ev; try discriminate Hev; cbn [step]; rewrite Hon;
    by split.
Qed.

(** After a turn the running maximum is what it was, or the larger of that
    and the depth just read, or (after a setup) the depth just read. *)
Lemma step_maxDepth_cases env ev L :
  let d := depthPct (getScrollMetrics (scroll_dom env)) in
  maxDepthRef (step env ev L).1 = maxDepthRef L
  ∨ maxDepthRef (step env ev L).1 = Qmax (maxDepthRef L) d
  ∨ maxDepthRef (step env ev L).1 = d.
Proof.
  cbv zeta. destruct ev; cbn [step];
    try (destruct (listening L); [| by left]);
    try destruct changed; try destruct target;
    try (by left); try (by right; left); try (by right; right).
  - left. unfold onVisibilityChange. by destruct (String.eqb _ _).
  - left. by destruct (flush_same_refs L) as (_ & _ & _ & ? & _).
  - left. by destruct (flush_resume_same_refs i outcome L) as (_ & _ & _ & ? & _).
  - left. rewrite cleanup_eq. cbn [fst].
    by destruct (flush_same_refs (set_listening false
                   (push env (exit_partial env L) L).1)) as (_ & _ & _ & -> & _).
  - destruct (listening L); [by left | by right; right].
Qed.

Lemma maxDepth_range L : reachable L → (0 <= maxDepthRef L <= 100)%Q.
Proof.
  induction 1 as [storage renv cfg | env ev L _ IH].
  - unfold useExperimentLogger. destruct (resolve_session _ _). cbn. lra.
  - pose proof (depthPct_bounds (scroll_dom env)) as Hd.
    destruct (step_maxDepth_cases env ev L) as [-> | [-> | ->]]; [done | | done].
    destruct (Qmax_cases (maxDepthRef L)
                (depthPct (getScrollMetrics (scroll_dom env)))) as [-> | ->];
      done.
Qed.

Lemma cents_as_quotient (n : Z) : (n # 100 == inject_Z n / 100)%Q.
Proof. rewrite (Qmake_Qdiv n 100). reflexivity. Qed.

(** The hundredths printed for a number are within half a hundredth of
    it. *)
Lemma hundredths_near (q : Q) :
  (q - (1 # 200) <= JS.hundredths q # 100 <= q + (1 # 200))%Q.
Proof.
  unfold JS.hundredths.
  pose proof (Qfloor_le (q * 100 + (1 # 2))) as Hlo.
  pose proof (Qlt_floor (q * 100 + (1 # 2))) as Hhi.
  rewrite inject_Z_plus in Hhi.
  rewrite cents_as_quotient.
  set (n := inject_Z (Qfloor (q * 100 + (1 # 2)))) in *.
  change (inject_Z 1) with 1%Q in Hhi.
  clearbody n. unfold Qdiv. change (/ 100)%Q with (1 # 100)%Q.
  split; lra.
Qed.

(** Up to 100, rounding to two decimals moves a number by at most half a
    hundredth, and reading the decimal as a double by at most half a unit
    in the last place of the doubles below 128. *)
Lemma Number_toFixed2_near (q : Q) :
  (0 <= q <= 100)%Q →
  (q - (1 # 200) - (1 # 2 ^ 47) <= JS.Number_toFixed2 q
   <= q + (1 # 200) + (1 # 2 ^ 47))%Q.
Proof.
  intros [Hlo Hhi]. unfold JS.Number_toFixed2.
  destruct (Qlt_le_dec q 0) as [Hneg | _]; [lra |].
  pose proof (hundredths_near q) as [Hclo Hchi].
  set (c := (JS.hundredths q # 100)%Q) in *.
  assert (Hc : (Qabs c < 2 ^ 7)%Q).
  { apply Qabs_Qlt_condition. change (2 ^ 7)%Q with 128%Q. lra. }
  pose proof (round_near_below c 7 Hc ltac:(lia)) as Hn.
  change (2 ^ (7 - 54))%Q with (1 # 140737488355328)%Q in Hn.
  apply Qabs_diff_Qle_condition in Hn as [Hrlo Hrhi].
  change (1 # 2 ^ 47)%Q with (1 # 140737488355328)%Q.
  lra.
Qed.

(** Up to 100, the number recorded is the double nearest to a whole number
    of hundredths. *)
Lemma Number_toFixed2_cents (q : Q) :
  (0 <= q <= 100)%Q →
  ∃ n : Z, 0 ≤ n ≤ 10000 ∧ JS.Number_toFixed2 q = Double.round (n # 100).
Proof.
  intros [Hlo Hhi]. exists (JS.hundredths q). split.
  - split; [by apply hundredths_nonneg |].
    change 10000 with (JS.hundredths 100). by apply hundredths_mono.
  - unfold JS.Number_toFixed2. destruct (Qlt_le_dec q 0); [lra | done].
Qed.

Lemma Number_toFixed2_range (q : Q) :
  (0 <= q <= 100)%Q → (0 <= JS.Number_toFixed2 q <= 100)%Q.
Proof.
  intros [Hlo Hhi]. split.
  - apply Qle_trans with (JS.Number_toFixed2 0); [by vm_compute |].
    by apply Number_toFixed2_mono.
  - apply Qle_trans with (JS.Number_toFixed2 100); [| by vm_compute].
    by apply Number_toFixed2_mono.
Qed.

End RunningMaximum.

(** X9.  The running maximum is the maximum.  Over any sequence of scroll
    events and heartbeats with the listeners attached, the value the hook
    ends with is at least every depth it read and at least the value it
    started from, and it is one of these: the start value or one of the
    depths read. *)
Theorem running_max_is_max (L : Logger) (trace : list (Env * Event)) :
  listening L = true →
  Forall (λ x, is_scroll_or_heartbeat x.2 = true) trace →
  let depths := (λ x, depthPct (getScrollMetrics (scroll_dom x.1))) <$> trace in
  let m := maxDepthRef (run trace L).1 in
  Forall (λ d, (d <= m)%Q) depths
  ∧ (maxDepthRef L <= m)%Q
  ∧ m ∈ maxDepthRef L :: depths.
Proof.
  cbv zeta. revert L. induction trace as [| [env ev] rest IH];
    intros L Hon Htrace.
  - cbn. split; [constructor |]. split; [lra | by left].
  - apply Forall_cons in Htrace as [Hev Hrest]. cbn in Hev.
    rewrite run_cons. cbn [fst]. rewrite fmap_cons. cbn [fst].
    destruct (scroll_or_heartbeat_step env ev L Hev Hon) as [Hmax Hon1].
    destruct (IH (step env ev L).1 Hon1 Hrest) as (Hall & Hup & Hin).
    rewrite Hmax in Hup, Hin.
    set (d := depthPct (getScrollMetrics (scroll_dom env))) in *.
    pose proof (Q.le_max_l (maxDepthRef L) d) as Hl.
    pose proof (Q.le_max_r (maxDepthRef L) d) as Hr.
    split; [constructor; [lra | done] |]. split; [lra |].
    apply elem_of_cons in Hin as [Hin | Hin].
    + rewrite Hin. destruct (Qmax_cases (maxDepthRef L) d) as [Hc | Hc];
        rewrite Hc.
      * apply elem_of_cons. by left.
      * apply elem_of_cons. right. apply elem_of_cons. by left.
    + right. by right.
Qed.

Lemma running_max_is_max_witness :
  maxDepthRef (run scroll_burst two_queued).1
    ∈ maxDepthRef two_queued
      :: ((λ x, depthPct (getScrollMetrics (scroll_dom x.1))) <$> scroll_burst)
  ∧ (maxDepthRef (run scroll_burst two_queued).1 == 50)%Q.
Proof.
  split; [| by vm_compute].
  apply (running_max_is_max two_queued scroll_burst).
  - by vm_compute.
  - by repeat constructor.
Defined.

(** X10.  In every reachable state the running maximum lies in [0, 100];
    and every [maxDepthPct] that a turn records lies in [0, 100] too, is the
    double nearest to a whole number of hundredths, and is within half a
    hundredth and [2 ^ -47] (the rounding to two decimals and the reading of
    the decimal as a double) of the running maximum the turn leaves. *)
Theorem recorded_depth_in_range (L : Logger) (env : Env) (ev : Event) :
  reachable L →
  (0 <= maxDepthRef L <= 100)%Q
  ∧ Forall (λ q, (0 <= q <= 100)%Q
                 ∧ (∃ n : Z, 0 ≤ n ≤ 10000 ∧ q = Double.round (n # 100))
                 ∧ (maxDepthRef (step env ev L).1 - (1 # 200) - (1 # 2 ^ 47)
                    <= q
                    <= maxDepthRef (step env ev L).1 + (1 # 200) + (1 # 2 ^ 47))%Q)
      (maxDepthPcts (step env ev L).2).
Proof.
  intros HL. split; [by apply maxDepth_range |].
  pose proof (maxDepth_range _ (reachable_step env ev L HL)) as Hrange.
  destruct (is_setup ev) eqn:Hev.
  - destruct ev; try discriminate Hev. cbn [step].
    destruct (listening L); [by constructor |].
    unfold setup. rewrite push_no_maxDepthPct; [constructor |].
    cbn [default from_option id p_meta]. lookup_none_tac.
  - destruct (step_maxDepth env ev L Hev) as [_ Hrec].
    eapply Forall_impl; [exact Hrec |]. intros q ->. split.
    + by apply Number_toFixed2_range.
    + split; [by apply Number_toFixed2_cents | by apply Number_toFixed2_near].
Qed.

Lemma recorded_depth_in_range_witness :
  (0 <= maxDepthRef two_queued <= 100)%Q
  ∧ Forall (λ q, (0 <= q <= 100)%Q
                 ∧ (∃ n : Z, 0 ≤ n ≤ 10000 ∧ q = Double.round (n # 100))
                 ∧ (maxDepthRef (step (browser_at 450 333) DomScroll two_queued).1
                      - (1 # 200) - (1 # 2 ^ 47)
                    <= q
                    <= maxDepthRef (step (browser_at 450 333) DomScroll two_queued).1
                      + (1 # 200) + (1 # 2 ^ 47))%Q)
      (maxDepthPcts (step (browser_at 450 333) DomScroll two_queued).2).
Proof.
  apply (recorded_depth_in_range two_queued (browser_at 450 333) DomScroll).
  apply two_queued_reachable.
Defined.

(** ** Listeners that remember *)

Section Remembering.

Implicit Types (L : Logger) (env : Env) (ev : Event).

Lemma run_keeps_hiddenAt (trace : list (Env * Event)) L :
  Forall (λ x, hides x = false) trace →
  hiddenAtRef (run trace L).1 = hiddenAtRef L.
Proof.
  revert L. induction trace as [| [env ev] rest IH]; intros L Htrace; [done |].
  apply Forall_cons in Htrace as [Hev Hrest].
  rewrite run_cons. cbn [fst]. rewrite (IH _ Hrest).
  by apply step_keeps_hiddenAt.
Qed.

Lemma run_keeps_lastScroll (trace : list (Env * Event)) L :
  Forall (λ x, is_scroll x.2 = false) trace →
  lastScrollTopRef (run trace L).1 = lastScrollTopRef L
  ∧ lastScrollTsRef (run trace L).1 = lastScrollTsRef L.
Proof.
  revert L. induction trace as [| [env ev] rest IH]; intros L Htrace; [done |].
  apply Forall_cons in Htrace as [Hev Hrest]. cbn in Hev.
  rewrite run_cons. cbn [fst]. destruct (IH (step env ev L).1 Hrest) as [-> ->].
  by apply step_keeps_lastScroll.
Qed.

(** The duration that a visibility change reports, and the time of hiding
    it leaves. *)
Lemma onVisibilityChange_duration env L :
  let hidden := String.eqb (visibilityState env) "hidden" in
  (λ r, meta r !! "hiddenDurationMs") <$> created (onVisibilityChange env L).2
    = [Some (JS.of_Z
         (if hidden then 0
          else match hiddenAtRef L with
               | Some h => if h =? 0 then 0 else now env - h
               | None => 0
               end))]
  ∧ hiddenAtRef (onVisibilityChange env L).1
    = (if hidden then Some (now env) else hiddenAtRef L).
Proof.
  cbv zeta. unfold onVisibilityChange. rewrite created_push, list_fmap_singleton.
  rewrite make_record_meta. cbn [default from_option id p_meta].
  rewrite lookup_insert_ne by discriminate. rewrite lookup_insert_eq.
  by destruct (String.eqb (visibilityState env) "hidden").
Qed.

(** What the scroll listener records about the movement, and the position
    and time it leaves. *)
Lemma onScroll_delta env L :
  let top := scrollTop (getScrollMetrics (scroll_dom env)) in
  let deltaY := Double.sub top (lastScrollTopRef L) in
  let deltaT := Z.max (now env - lastScrollTsRef L) 1 in
  (λ r, meta r !! "deltaY") <$> created (onScroll env L).2
    = [Some (JS.of_Z (JS.Math_round deltaY))]
  ∧ (λ r, meta r !! "velocityPxPerSec") <$> created (onScroll env L).2
    = [Some (num (JS.Number_toFixed2
                    (Double.mul (Double.div deltaY (inject_Z deltaT)) 1000)))]
  ∧ lastScrollTopRef (onScroll env L).1 = top
  ∧ lastScrollTsRef (onScroll env L).1 = now env.
Proof.
  cbv zeta. unfold onScroll. rewrite created_push, !list_fmap_singleton.
  rewrite !make_record_meta. cbn [default from_option id p_meta].
  split; [| split; [| by split]].
  - rewrite !lookup_insert_ne by discriminate. by rewrite lookup_insert_eq.
  - rewrite !lookup_insert_ne by discriminate. by rewrite lookup_insert_eq.
Qed.

Lemma Number_toFixed2_nonneg (q : Q) : (0 <= q)%Q → (0 <= JS.Number_toFixed2 q)%Q.
Proof.
  intros Hq. apply Qle_trans with (JS.Number_toFixed2 0); [by vm_compute |].
  by apply Number_toFixed2_mono.
Qed.

(** Dividing a double by 1 gives it back. *)
Lemma div_one (q : Q) :
  Double.div (Double.round q) (inject_Z 1) = Double.round q.
Proof.
  unfold Double.div.
  assert (Hq : (Double.round q / inject_Z 1 == Double.round q)%Q).
  { change (inject_Z 1) with 1%Q. field. }
  rewrite (round_compat _ _ Hq). apply round_idempotent.
Qed.

(** The velocity of a movement downwards is not negative. *)
Lemma velocity_nonneg (deltaY : Q) (deltaT : Z) :
  (0 <= deltaY)%Q → 1 ≤ deltaT →
  (0 <= Double.mul (Double.div deltaY (inject_Z deltaT)) 1000)%Q.
Proof.
  intros Hy Ht.
  assert (Hdt : (0 < inject_Z deltaT)%Q).
  { change 0%Q with (inject_Z 0). rewrite <- Zlt_Qlt. lia. }
  assert (Hdiv : (0 <= Double.div deltaY (inject_Z deltaT))%Q).
  { apply round_nonneg. apply Qle_shift_div_l; [done | lra]. }
  apply round_nonneg. lra.
Qed.

(** Between offsets of at most [2 ^ 53] no operation of the scroll
    listener leaves the range of the doubles. *)
Lemma velocity_in_range (top1 top2 : Q) (deltaT : Z) :
  (Qabs top1 <= 2 ^ 53)%Q → (Qabs top2 <= 2 ^ 53)%Q → 1 ≤ deltaT →
  (Qabs (Double.mul (Double.div (Double.sub top2 top1) (inject_Z deltaT)) 1000)
   <= 2 ^ 64)%Q.
Proof.
  intros H1 H2 Ht.
  apply Qabs_Qle_condition in H1 as [H1lo H1hi].
  apply Qabs_Qle_condition in H2 as [H2lo H2hi].
  change (2 ^ 53)%Q with 9007199254740992%Q in *.
  assert (Hdt : (1 <= inject_Z deltaT)%Q).
  { change 1%Q with (inject_Z 1). by rewrite <- Zle_Qle. }
  assert (Hy : (Qabs (Double.sub top2 top1) <= 2 ^ 54)%Q).
  { apply round_abs_le; [| lia]. apply Qabs_Qle_condition.
    change (2 ^ 54)%Q with 18014398509481984%Q. lra. }
  set (deltaY := Double.sub top2 top1) in *.
  assert (Hd : (Qabs (Double.div deltaY (inject_Z deltaT)) <= 2 ^ 54)%Q).
  { apply round_abs_le; [| lia].
    apply Qabs_Qle_condition in Hy as [Hylo Hyhi].
    change (2 ^ 54)%Q with 18014398509481984%Q in *.
    apply Qabs_Qle_condition. split.
    - apply Qle_shift_div_l; [lra | nra].
    - apply Qle_shift_div_r; [lra | nra]. }
  set (v := Double.div deltaY (inject_Z deltaT)) in *.
  apply round_abs_le; [| lia].
  apply Qabs_Qle_condition in Hd as [Hdlo Hdhi].
  change (2 ^ 54)%Q with 18014398509481984%Q in *.
  apply Qabs_Qle_condition.
  change (2 ^ 64)%Q with 18446744073709551616%Q. lra.
Qed.

End Remembering.

(** X11.  The hidden duration is measured from the latest hiding.  A
    visibility change that finds the document hidden at a clock reading
    [t0] (other than 0) reports a duration of 0; after any events in which
    the document is not found hidden again, a visibility change that finds
    it not hidden at [t1] reports [t1 - t0].  The time of hiding is never
    cleared, so a further such change reports its distance to [t0] as
    well. *)
Theorem hidden_duration_from_last_hiding (L : Logger) (env_h env_s : Env)
    (mid : list (Env * Event)) :
  listening L = true →
  visibilityState env_h = "hidden" →
  now env_h ≠ 0 →
  visibilityState env_s ≠ "hidden" →
  Forall (λ x, hides x = false ∧ is_setup x.2 = false ∧ is_cleanup x.2 = false)
    mid →
  let L1 := (step env_h DomVisibilityChange L).1 in
  let L2 := (run mid L1).1 in
  (λ r, meta r !! "hiddenDurationMs")
    <$> created (step env_h DomVisibilityChange L).2 = [Some (JS.of_Z 0)]
  ∧ (λ r, meta r !! "hiddenDurationMs")
      <$> created (step env_s DomVisibilityChange L2).2
    = [Some (JS.of_Z (now env_s - now env_h))]
  ∧ hiddenAtRef (step env_s DomVisibilityChange L2).1 = Some (now env_h).
Proof.
  intros Hon Hhid Hnz Hshown Hmid. cbv zeta.
  assert (Hon2 : listening (run mid (step env_h DomVisibilityChange L).1).1 = true).
  { rewrite run_keeps_listening.
    - by rewrite step_keeps_listening.
    - eapply Forall_impl; [exact Hmid |]. by intros x (_ & ? & ?). }
  assert (Hat : hiddenAtRef (run mid (step env_h DomVisibilityChange L).1).1
                = Some (now env_h)).
  { rewrite run_keeps_hiddenAt.
    - cbn [step]. rewrite Hon.
      rewrite (proj2 (onVisibilityChange_duration env_h L)).
      by rewrite Hhid.
    - eapply Forall_impl; [exact Hmid |]. by intros x (? & _). }
  destruct (step env_h DomVisibilityChange L) as [L1 effs1] eqn:Hstep1.
  cbn [fst snd] in *.
  assert (Heffs1 : effs1 = (onVisibilityChange env_h L).2).
  { cbn [step] in Hstep1. rewrite Hon in Hstep1. by rewrite Hstep1. }
  cbn [step]. rewrite Hon2.
  destruct (onVisibilityChange_duration env_s (run mid L1).1) as [-> ->].
  rewrite Heffs1, (proj1 (onVisibilityChange_duration env_h L)), Hhid, Hat.
  apply String.eqb_neq in Hshown. rewrite Hshown.
  apply Z.eqb_neq in Hnz. rewrite Hnz. done.
Qed.

Lemma hidden_duration_from_last_hiding_witness :
  let hide := {| now := 1700000002000; push_now := 1700000002000;
                 scroll_dom := long_page 0; visibilityState := "hidden";
                 href := "https://lab.example/login";
                 userAgent := "Mozilla/5.0"; innerWidth := 390;
                 onLine := true |} in
  let L2 := (run [(browser_at 2100 0, SampleTick)]
               (step hide DomVisibilityChange two_queued).1).1 in
  (λ r, meta r !! "hiddenDurationMs")
    <$> created (step (browser_at 9500 0) DomVisibilityChange L2).2
  = [Some (JS.of_Z 7500)].
Proof.
  cbv zeta.
  refine (proj1 (proj2 (hidden_duration_from_last_hiding two_queued _
            (browser_at 9500 0) [(browser_at 2100 0, SampleTick)]
            _ _ _ _ _))).
  - by vm_compute.
  - reflexivity.
  - discriminate.
  - discriminate.
  - by repeat constructor.
Defined.

(** X12.  The scroll listener measures from the previous scroll event.
    After a scroll event at offset [top1] and clock reading [t1], and any
    events but scrolls in between, the next scroll event at [top2] and [t2]
    records as [deltaY] the difference [top2 - top1] (a double) rounded to
    an integer, and as velocity [deltaY / max(t2 - t1, 1) * 1000], the
    quotient and the product each rounded to a double, then rounded to two
    decimals.  A movement downwards never gives a negative velocity; a
    clock that stood still or ran backwards counts as one millisecond;
    between integer offsets the difference is exact; and between offsets of
    at most [2 ^ 53] the velocity stays below [2 ^ 64], far inside the
    range of the doubles. *)
Theorem scroll_delta_from_last_scroll (L : Logger) (env1 env2 : Env)
    (mid : list (Env * Event)) :
  listening L = true →
  Forall (λ x, is_scroll x.2 = false ∧ is_setup x.2 = false
               ∧ is_cleanup x.2 = false) mid →
  let top1 := scrollTop (getScrollMetrics (scroll_dom env1)) in
  let top2 := scrollTop (getScrollMetrics (scroll_dom env2)) in
  let deltaY := Double.sub top2 top1 in
  let deltaT := Z.max (now env2 - now env1) 1 in
  let velocity := Double.mul (Double.div deltaY (inject_Z deltaT)) 1000 in
  let L2 := (run mid (step env1 DomScroll L).1).1 in
  (λ r, meta r !! "deltaY") <$> created (step env2 DomScroll L2).2
    = [Some (JS.of_Z (JS.Math_round deltaY))]
  ∧ (λ r, meta r !! "velocityPxPerSec") <$> created (step env2 DomScroll L2).2
    = [Some (num (JS.Number_toFixed2 velocity))]
  ∧ ((top1 <= top2)%Q →
     (0 <= deltaY)%Q ∧ (0 <= JS.Number_toFixed2 velocity)%Q)
  ∧ (now env2 ≤ now env1 → velocity = Double.mul deltaY 1000)
  ∧ (∀ z1 z2 : Z,
       (top1 == inject_Z z1)%Q → (top2 == inject_Z z2)%Q →
       Z.abs (z2 - z1) ≤ 2 ^ 53 →
       (deltaY == inject_Z (z2 - z1))%Q)
  ∧ ((Qabs top1 <= 2 ^ 53)%Q → (Qabs top2 <= 2 ^ 53)%Q →
     (Qabs velocity <= 2 ^ 64)%Q).
Proof.
  intros Hon Hmid. cbv zeta.
  assert (Hon2 : listening (run mid (step env1 DomScroll L).1).1 = true).
  { rewrite run_keeps_listening.
    - by rewrite step_keeps_listening.
    - eapply Forall_impl; [exact Hmid |]. by intros x (_ & ? & ?). }
  assert (Hlast : lastScrollTopRef (run mid (step env1 DomScroll L).1).1
                    = scrollTop (getScrollMetrics (scroll_dom env1))
                  ∧ lastScrollTsRef (run mid (step env1 DomScroll L).1).1
                    = now env1).
  { destruct (run_keeps_lastScroll mid (step env1 DomScroll L).1) as [-> ->].
    - eapply Forall_impl; [exact Hmid |]. by intros x (? & _).
    - cbn [step]. rewrite Hon.
      by destruct (onScroll_delta env1 L) as (_ & _ & -> & ->). }
  destruct Hlast as [Htop Hts].
  destruct (step env1 DomScroll L) as [L1 effs1]. cbn [fst snd] in *.
  cbn [step]. rewrite Hon2.
  destruct (onScroll_delta env2 (run mid L1).1) as (-> & -> & _).
  rewrite Htop, Hts. split; [done |]. split; [done |].
  set (top1 := scrollTop (getScrollMetrics (scroll_dom env1))).
  set (top2 := scrollTop (getScrollMetrics (scroll_dom env2))).
  set (dt := Z.max (now env2 - now env1) 1).
  assert (Hdt : 1 ≤ dt) by (subst dt; lia).
  split; [| split; [| split]].
  - intros Hdown.
    assert (Hy : (0 <= Double.sub top2 top1)%Q) by (apply round_nonneg; lra).
    split; [exact Hy |].
    by apply Number_toFixed2_nonneg, velocity_nonneg.
  - intros Hclock. subst dt. rewrite Z.max_r by lia.
    unfold Double.sub. by rewrite div_one.
  - intros z1 z2 H1 H2 Hz. unfold Double.sub.
    assert (Heq : (top2 - top1 == inject_Z (z2 - z1))%Q).
    { unfold Z.sub. rewrite inject_Z_plus, inject_Z_opp, H1, H2. reflexivity. }
    rewrite (round_compat _ _ Heq). by apply round_Z.
  - intros H1 H2. by apply velocity_in_range.
Qed.

Lemma scroll_delta_from_last_scroll_witness :
  let L2 := (run [(browser_at 600 300, SampleTick)]
               (step (browser_at 500 100) DomScroll two_queued).1).1 in
  (λ r, meta r !! "deltaY") <$> created (step (browser_at 820 423) DomScroll L2).2
    = [Some (JS.of_Z 323)]
  ∧ (λ r, meta r !! "velocityPxPerSec")
      <$> created (step (browser_at 820 423) DomScroll L2).2
    = [Some (num (Double.round (100937 # 100)))].
Proof.
  cbv zeta.
  destruct (scroll_delta_from_last_scroll two_queued (browser_at 500 100)
              (browser_at 820 423) [(browser_at 600 300, SampleTick)])
    as (HdeltaY & Hvelocity & _); [by vm_compute | by repeat constructor |].
  rewrite HdeltaY, Hvelocity. clear. by vm_compute.
Defined.

(** ** Click targets and input fields *)

Section Targets.

Lemma closest_decomposition (el : Element) :
  match closest_data_track el with
  | Some t =>
      ∃ near far,
        ancestors el = near ++ t :: far
        ∧ Forall (λ a, dataset_track a = None) near
        ∧ dataset_track t ≠ None
  | None => Forall (λ a, dataset_track a = None) (ancestors el)
  end.
Proof.
  revert el. fix IH 1. intros el.
  destruct el as [eid tag cls txt track trackId parent].
  destruct track as [a |] eqn:Htrack.
  - cbn. exists [], (match parent with Some p => ancestors p | None => [] end).
    by repeat split.
  - destruct parent as [p |].
    + specialize (IH p). cbn [closest_data_track dataset_track parentElement].
      cbn [ancestors parentElement].
      destruct (closest_data_track p) as [t |].
      * destruct IH as (near & far & Hchain & Hnear & Ht).
        eexists (_ :: near), far. rewrite Hchain. split; [reflexivity |].
        split; [by constructor | done].
      * by constructor.
    + cbn. by repeat constructor.
Qed.

Lemma or_str_nonempty (o : option string) (d : string) :
  d ≠ "" → JS.or_str o d ≠ "".
Proof.
  intros Hd. unfold JS.or_str. destruct o as [s |]; [| done].
  by destruct (String.eqb_spec s "").
Qed.

Lemma or_undefined_truthy (o : option string) : JS.or_undefined o ≠ Some "".
Proof.
  unfold JS.or_undefined, JS.str_or, JS.truthy.
  destruct o as [s |]; [| done].
  by destruct (String.eqb_spec s "") as [-> | Hne]; cbn; [| intros [= ->]].
Qed.

Lemma lower_char_not_upper (c : ascii) : is_upper (JS.lower_char c) = false.
Proof. by destruct c as [[] [] [] [] [] [] [] []]. Qed.

Lemma toLowerCase_no_upper (s : string) : has_upper (JS.toLowerCase s) = false.
Proof.
  induction s as [| c rest IH]; [done |].
  cbn [JS.toLowerCase has_upper]. by rewrite lower_char_not_upper, IH.
Qed.

Lemma str_or_truthy_l (a b : option string) (s : string) :
  a = Some s → s ≠ "" → JS.str_or a b = Some s.
Proof.
  intros -> Hs. unfold JS.str_or, JS.truthy.
  by destruct (String.eqb_spec s "").
Qed.

End Targets.

(** X13.  [closest('[data-track]')] finds the nearest tracked element: when
    it returns an element, that element carries the attribute and stands
    in the chain of the target and its ancestors behind elements that all
    lack it; when it returns nothing, no element of the chain carries the
    attribute. *)
Theorem closest_is_nearest_tracked (el : Element) :
  (∀ t, closest_data_track el = Some t →
        ∃ near far,
          ancestors el = near ++ t :: far
          ∧ Forall (λ a, dataset_track a = None) near
          ∧ dataset_track t ≠ None)
  ∧ (closest_data_track el = None →
     Forall (λ a, dataset_track a = None) (ancestors el)).
Proof.
  pose proof (closest_decomposition el) as H.
  split.
  - intros t Ht. by rewrite Ht in H.
  - intros Hnone. by rewrite Hnone in H.
Qed.

Lemma closest_is_nearest_tracked_witness :
  ∃ near far,
    ancestors inner_span = near ++ tracked_card :: far
    ∧ Forall (λ a, dataset_track a = None) near
    ∧ dataset_track tracked_card ≠ None.
Proof.
  apply (proj1 (closest_is_nearest_tracked inner_span) tracked_card).
  reflexivity.
Defined.

(** X14.  What [extractTargetMeta] never returns: an empty action, an empty
    string as target id (the id is absent instead), or a tag with a capital
    letter A to Z.  And what it prefers: a non-empty [data-track] of the
    nearest tracked element is the action, and a non-empty [data-track-id]
    of that element is the target id, whatever ids the elements have. *)
Theorem extractTargetMeta_never_empty (target : EventTarget) :
  let m := extractTargetMeta target in
  tm_action m ≠ ""
  ∧ tm_targetId m ≠ Some ""
  ∧ has_upper (tm_tag m) = false
  ∧ (∀ el t a, target = TargetElement el →
       closest_data_track el = Some t →
       dataset_track t = Some a → a ≠ "" → tm_action m = a)
  ∧ (∀ el t i, target = TargetElement el →
       closest_data_track el = Some t →
       dataset_trackId t = Some i → i ≠ "" → tm_targetId m = Some i).
Proof.
  cbv zeta. split; [by apply or_str_nonempty |].
  split; [apply or_undefined_truthy |].
  split; [apply toLowerCase_no_upper |].
  split.
  - intros el t a -> Ht Ha Hne. unfold extractTargetMeta.
    cbn [tm_action mbind option_bind]. rewrite Ht. cbn [mbind option_bind].
    rewrite Ha. unfold JS.or_str. by destruct (String.eqb_spec a "").
  - intros el t i -> Ht Hi Hne. unfold extractTargetMeta.
    cbn [tm_targetId mbind option_bind]. rewrite Ht. cbn [mbind option_bind].
    rewrite (str_or_truthy_l _ _ i Hi Hne).
    unfold JS.or_undefined. by rewrite (str_or_truthy_l _ _ i eq_refl Hne).
Qed.

Lemma extractTargetMeta_never_empty_witness :
  tm_action (extractTargetMeta (TargetElement inner_span)) = "aigs_card".
Proof.
  destruct (extractTargetMeta_never_empty (TargetElement inner_span))
    as (_ & _ & _ & Haction & _).
  apply (Haction inner_span tracked_card); [done | done | done | discriminate].
Defined.

(** X15.  The input listener records the length of the text, never the
    text: two input events on fields that differ only in the text typed,
    with texts of the same length, give the same record and leave the same
    state; and the length recorded is the number of code units of the
    text, or 0 when the field has no string value. *)
Theorem input_text_not_recorded (env : Env) (t1 t2 : InputTarget) (L : Logger) :
  same_field t1 t2 →
  String.length (default "" (it_value t1))
    = String.length (default "" (it_value t2)) →
  step env (DomInput (Some t1)) L = step env (DomInput (Some t2)) L
  ∧ (λ r, meta r !! "valueLength") <$> created (onInput env (Some t1) L).2
    = [Some (JS.of_Z (Z.of_nat (String.length (default "" (it_value t1)))))].
Proof.
  intros (Hid & Hname & Htrack & Htype) Hlen. split.
  - cbn [step]. destruct (listening L); [| done].
    unfold onInput. by rewrite Hid, Hname, Htrack, Htype, Hlen.
  - unfold onInput. rewrite created_push, list_fmap_singleton, make_record_meta.
    cbn [default from_option id p_meta].
    rewrite lookup_insert_ne by discriminate. by rewrite lookup_insert_eq.
Qed.

Lemma input_text_not_recorded_witness :
  step (browser_at 300 0) (DomInput (Some (secret_field "hunter2"))) two_queued
  = step (browser_at 300 0) (DomInput (Some (secret_field "letmein"))) two_queued.
Proof.
  apply (input_text_not_recorded (browser_at 300 0) (secret_field "hunter2")
           (secret_field "letmein") two_queued).
  - by repeat split.
  - reflexivity.
Defined.

(** X16.  Every record that an instance of the hook constructs, in any run
    from its first render, has a session id and a page-session id that
    are not empty and a sequence number of at least 1. *)
Theorem record_ids_never_empty (storage : gmap string string)
    (renv : RenderEnv) (cfg : LoggerConfig) (trace : list (Env * Event)) :
  let L0 := (useExperimentLogger storage renv cfg).2 in
  Forall (λ r, sessionId r ≠ "" ∧ pageSessionId r ≠ "" ∧ 1 ≤ seq r)
    (created (run trace L0).2).
Proof.
  cbv zeta.
  destruct (run_ids trace (useExperimentLogger storage renv cfg).2)
    as (_ & _ & Hids).
  destruct (run_created trace (useExperimentLogger storage renv cfg).2)
    as [Hseq _].
  rewrite render_sessionId, render_pageSessionId in Hids.
  apply Forall_forall. intros r Hr.
  rewrite Forall_forall in Hids. destruct (Hids r Hr) as [-> ->].
  split; [apply resolve_session_stored |].
  split; [by apply make_id_nonempty |].
  apply (list_elem_of_fmap_2 seq) in Hr. rewrite Hseq in Hr.
  apply elem_of_seqZ in Hr.
  assert (0 ≤ seqRef (useExperimentLogger storage renv cfg).2); [| lia].
  unfold useExperimentLogger. by destruct (resolve_session _ _).
Qed.

(** X17.  A render of the hook touches one key of the session storage and
    no other; it leaves a non-empty session id under that key; and a
    further render on the storage it leaves writes nothing at all. *)
Theorem session_storage_frame (storage : gmap string string)
    (r1 r2 : RenderEnv) (c1 c2 : LoggerConfig) :
  let storage1 := (useExperimentLogger storage r1 c1).1 in
  (∀ k : string, k ≠ SESSION_KEY → storage1 !! k = storage !! k)
  ∧ (∃ sid, storage1 !! SESSION_KEY = Some sid ∧ sid ≠ "")
  ∧ (useExperimentLogger storage1 r2 c2).1 = storage1.
Proof.
  cbv zeta. rewrite !render_fst.
  destruct (resolve_session_stored storage r1) as [Hstored Hne].
  split; [| split].
  - intros k Hk. unfold resolve_session.
    destruct (storage !! SESSION_KEY) as [existing |];
      [destruct (String.eqb existing "") |]; cbn [fst];
      by rewrite ?lookup_insert_ne.
  - by eexists.
  - by rewrite (resolve_session_existing _ r2 _ Hstored Hne).
Qed.

(** ** The participant id *)

Section Participant.

Lemma truthy_nonempty (o : option string) :
  JS.truthy o = true → default "" o ≠ "".
Proof.
  destruct o as [s |]; [| done]. cbn.
  by destruct (String.eqb_spec s "").
Qed.

Lemma truthy_Some (s : string) : s ≠ "" → JS.truthy (Some s) = true.
Proof. intros Hs. cbn. by destruct (String.eqb_spec s ""). Qed.

End Participant.

(** X18.  [getParticipantId] never returns the empty string.  A non-empty
    [pid] of the query wins and leaves the storage alone.  Without one, the
    id comes from the storage or is generated and stored, and a further
    call on the storage left behind returns the same id and writes
    nothing, whatever the clock and the random draw are by then.  No other
    key of the storage is ever touched. *)
Theorem participant_id_stable (fromQuery : option string)
    (storage : gmap string string) (ms draw ms' draw' : Z) :
  let out := App.getParticipantId fromQuery storage ms draw in
  out.2 ≠ ""
  ∧ (∀ q, fromQuery = Some q → q ≠ "" → out = (storage, q))
  ∧ (JS.truthy fromQuery = false →
     App.getParticipantId fromQuery out.1 ms' draw' = out)
  ∧ (∀ k : string, k ≠ App.PARTICIPANT_KEY → out.1 !! k = storage !! k).
Proof.
  cbv zeta. unfold App.getParticipantId.
  destruct (JS.truthy fromQuery) eqn:Hq.
  { split; [by apply truthy_nonempty |]. split; [| done].
    by intros q -> Hne. }
  destruct (JS.truthy (storage !! App.PARTICIPANT_KEY)) eqn:Hc; cbn [fst snd].
  - split; [by apply truthy_nonempty |]. split.
    { intros q -> Hne. by rewrite truthy_Some in Hq. }
    split; [| done]. intros _. by rewrite Hc.
  - split; [done |]. split.
    { intros q -> Hne. by rewrite truthy_Some in Hq. }
    split.
    + intros _. rewrite lookup_insert_eq. by rewrite truthy_Some.
    + intros k Hk. by rewrite lookup_insert_ne.
Qed.

Lemma participant_id_stable_witness :
  let out := App.getParticipantId None ∅ 1700000123456 42 in
  out.2 = "p12345642"
  ∧ App.getParticipantId None out.1 1700000999999 77 = out.
Proof.
  cbv zeta. split; [by vm_compute |].
  apply (participant_id_stable None ∅ 1700000123456 42 1700000999999 77).
  reflexivity.
Defined.

(** ** The events endpoint *)

Section Endpoint.

Lemma append_assoc (a b c : string) : (a +:+ b) +:+ c = a +:+ (b +:+ c).
Proof.
  induction a as [| x a IH]; [done |].
  by rewrite !append_cons_l, IH.
Qed.

(** Joining by line feeds and ending with one is ending each line with
    one, unless there is no line at all. *)
Lemma join_terminated (lines : list string) :
  lines ≠ [] →
  String.concat (String "010" EmptyString) lines +:+ String "010" EmptyString
  = terminated lines.
Proof.
  induction lines as [| l rest IH]; [done |]. intros _.
  destruct rest as [| l' rest'].
  - reflexivity.
  - change (String.concat (String "010" EmptyString) (l :: l' :: rest'))
      with (l +:+ String "010" EmptyString
            +:+ String.concat (String "010" EmptyString) (l' :: rest')).
    rewrite !append_assoc. rewrite IH by done. reflexivity.
Qed.

Lemma assoc_set_field_eq (k : string) (v : Server.Json)
    (fields : list (string * Server.Json)) :
  Server.assoc k (Server.set_field k v fields) = Some v.
Proof.
  induction fields as [| [k' v'] rest IH]; cbn.
  - by rewrite String.eqb_refl.
  - destruct (String.eqb k k') eqn:Hk; cbn; by rewrite ?String.eqb_refl, ?Hk.
Qed.

Lemma assoc_set_field_ne (k j : string) (v : Server.Json)
    (fields : list (string * Server.Json)) :
  j ≠ k →
  Server.assoc j (Server.set_field k v fields) = Server.assoc j fields.
Proof.
  intros Hjk. apply String.eqb_neq in Hjk.
  induction fields as [| [k' v'] rest IH]; cbn.
  - by rewrite Hjk.
  - destruct (String.eqb k k') eqn:Hk; cbn.
    + apply String.eqb_eq in Hk as <-. by rewrite Hjk.
    + by rewrite IH.
Qed.

Lemma set_field_length_ge (k : string) (v : Server.Json)
    (fields : list (string * Server.Json)) :
  (length fields ≤ length (Server.set_field k v fields))%nat.
Proof.
  induction fields as [| [k' v'] rest IH]; cbn; [lia |].
  destruct (String.eqb k k'); cbn; lia.
Qed.

End Endpoint.

(** X19.  [normalizeEvents] returns a list in two cases only: the body is
    an object whose [events] is an array, or the body is a non-empty string
    that parses to such an object; the list is then that array.  A missing
    body, a falsy one, a number, [true], an array, a string that does not
    parse, and an object whose [events] is no array all give [null]. *)
Theorem normalizeEvents_shapes (JSON_parse : string → option Server.Json)
    (body : option Server.Json) (events : list Server.Json) :
  Server.normalizeEvents JSON_parse body = Some events
  ↔ (∃ fields, body = Some (Server.JObj fields)
               ∧ Server.assoc "events" fields = Some (Server.JArr events))
    ∨ (∃ s fields, body = Some (Server.JStr s) ∧ s ≠ ""
                   ∧ JSON_parse s = Some (Server.JObj fields)
                   ∧ Server.assoc "events" fields = Some (Server.JArr events)).
Proof.
  unfold Server.normalizeEvents. split.
  - destruct body as [[| b | q | s | items | fields] |]; cbn; try done.
    + by destruct b.
    + by destruct (Qeq_bool q 0).
    + destruct (String.eqb_spec s "") as [-> | Hne]; cbn; [done |].
      destruct (JSON_parse s) as [[| | | | | fields] |] eqn:Hparse; cbn;
        try done.
      destruct (Server.assoc "events" fields) as [[| | | | evs |] |] eqn:Hev;
        try done.
      intros [= <-]. right. by exists s, fields.
    + destruct (Server.assoc "events" fields) as [[| | | | evs |] |] eqn:Hev;
        try done.
      intros [= <-]. left. by exists fields.
  - intros [(fields & -> & Hev) | (s & fields & -> & Hne & Hparse & Hev)]; cbn.
    + by rewrite Hev.
    + destruct (String.eqb_spec s ""); [done |]. cbn.
      by rewrite Hparse; cbn; rewrite Hev.
Qed.

(** X20.  The endpoint answers 400 exactly when [normalizeEvents] gives
    [null], and then calls no [appendFile].  An accepted batch of [n]
    events whose write succeeds is answered 200 with [count = n], and the
    text appended is one stringified object per event, each ended by a line
    feed.  The empty batch is accepted as well: it is answered 200 with
    [count = 0] and appends a lone line feed, a blank line in the log. *)
Theorem post_events_appends_lines (JSON_parse : string → option Server.Json)
    (JSON_stringify : Server.Json → string) (req : Server.Request)
    (clock : nat → Z) (fs : Server.FsOutcome) :
  let out := Server.post_events JSON_parse JSON_stringify req clock fs in
  let ip := JS.or_str (JS.str_or (Server.x_forwarded_for req)
                         (Server.remoteAddress req)) "" in
  let ua := JS.or_str (Server.user_agent req) "" in
  (Server.status out.1 = 400
   ↔ Server.normalizeEvents JSON_parse (Server.body req) = None)
  ∧ (Server.status out.1 = 400 → out.2 = None)
  ∧ (∀ events,
       Server.normalizeEvents JSON_parse (Server.body req) = Some events →
       fs = Server.Written →
       Server.status out.1 = 200
       ∧ Server.assoc "count" (Server.spread (Server.json out.1))
         = Some (Server.JNum (inject_Z (Z.of_nat (length events))))
       ∧ (events ≠ [] →
          out.2 = Some (terminated
                          (imap (λ i event,
                                   JSON_stringify
                                     (Server.stamp (clock i) ip ua event))
                             events)))
       ∧ (events = [] → out.2 = Some (String "010" EmptyString))).
Proof.
  cbv zeta. unfold Server.post_events.
  destruct (Server.normalizeEvents JSON_parse (Server.body req))
    as [events |] eqn:Hnorm.
  - split; [split; [by destruct fs | done] |].
    split; [by destruct fs |].
    intros evs [= <-] ->. cbn [fst snd Server.status Server.json].
    split; [done |]. split; [done |]. split.
    + intros Hne. unfold Server.log_lines. f_equal.
      apply join_terminated. by destruct events.
    + by intros ->.
  - split; [done |]. split; [done |]. by intros evs.
Qed.

Lemma post_events_appends_lines_witness :
  let out := Server.post_events toy_parse toy_stringify beacon_request
               (λ i, 1700000000500 + Z.of_nat i) Server.Written in
  Server.status out.1 = 200
  ∧ out.2 = Some ("3" +:+ String "010" ("3" +:+ String "010" "")).
Proof.
  cbv zeta.
  destruct (post_events_appends_lines toy_parse toy_stringify beacon_request
              (λ i, 1700000000500 + Z.of_nat i) Server.Written)
    as (_ & _ & Hok).
  destruct (Hok _ eq_refl eq_refl) as (Hstatus & _ & Hlines & _).
  split; [exact Hstatus |]. by rewrite Hlines.
Defined.

(** X21.  A client cannot set the server's fields.  In the object logged
    for an event, [serverReceivedAt] is the server's clock reading and
    [serverMeta] holds the address and user agent the server saw, whatever
    the event itself carried under these names; every other field of the
    event is logged with the value the event gave it, and no field is
    lost. *)
Theorem stamp_overrides_client (received : Z) (ip userAgent : string)
    (event : Server.Json) :
  let logged := Server.spread (Server.stamp received ip userAgent event) in
  Server.assoc "serverReceivedAt" logged
    = Some (Server.JNum (inject_Z received))
  ∧ Server.assoc "serverMeta" logged
    = Some (Server.JObj [("ip", Server.JStr ip);
                         ("userAgent", Server.JStr userAgent)])
  ∧ (∀ k : string, k ≠ "serverReceivedAt" → k ≠ "serverMeta" →
       Server.assoc k logged = Server.assoc k (Server.spread event))
  ∧ (length (Server.spread event) ≤ length logged)%nat.
Proof.
  cbv zeta. cbn [Server.stamp Server.spread].
  split; [| split; [| split]].
  - rewrite assoc_set_field_ne by discriminate. apply assoc_set_field_eq.
  - apply assoc_set_field_eq.
  - intros k H1 H2. by rewrite !assoc_set_field_ne.
  - etrans; [| apply set_field_length_ge]. apply set_field_length_ge.
Qed.
